(** * ISF pricing workflow: a shallow embedding and its verified properties

    The development embeds the text-processing core of the pricing workflow
    ([dynamic_pricing.py], [inshape_pricing_formatter.py],
    [split_club_files.py]) and proves properties of it.

    Modelling conventions.
    - A Python [str] is a [list ascii]: a sequence of code points below 256.
      Whitespace, digits and case conversion follow Python's rules on that
      range ([str.isspace], [\s], [\d], [str.lower]).
    - File contents are the decoded text the program reads and the text it
      writes back; an operation on a file is a function from the text read
      to the success flag and the text left in the file.
    - String positions are [Z], as in Python, with [-1] for "not found" and
      Python's slice clamping written out.
    - Regular expressions are embedded as syntax trees and run by a
      backtracking matcher with Python's priorities (leftmost start, greedy
      or lazy repetition, ordered alternation). *)

From Stdlib Require Import ZArith Ascii String List Lia Bool.
From stdpp Require Import base list strings gmap sorting.

Set Default Proof Using "Type".
Open Scope Z_scope.

(** ** Characters and texts *)

(** A text is a list of characters with code points below 256. *)
Abbreviation text := (list ascii).

Definition txt (s : string) : text := list_ascii_of_string s.

Definition nl : ascii := ascii_of_nat 10.

Definition code (c : ascii) : N := N_of_ascii c.

(** [str.isspace] / [\s] on code points below 256. *)
Definition is_space (c : ascii) : bool :=
  let n := code c in
  ((9 <=? n) && (n <=? 13) || (28 <=? n) && (n <=? 32) || (n =? 133) || (n =? 160))%N.

(** [\d] on code points below 256. *)
Definition is_digit (c : ascii) : bool :=
  let n := code c in ((48 <=? n) && (n <=? 57))%N.

(** [str.isdigit] for one character: the decimal digits and the
    superscripts 1, 2, 3 of Latin-1. *)
Definition isdigit_char (c : ascii) : bool :=
  let n := code c in
  ((48 <=? n) && (n <=? 57) || (n =? 178) || (n =? 179) || (n =? 185))%N.

Definition is_upper (c : ascii) : bool :=
  let n := code c in
  ((65 <=? n) && (n <=? 90) || (192 <=? n) && (n <=? 222) && negb (n =? 215))%N.

Definition lower_char (c : ascii) : ascii :=
  if is_upper c then ascii_of_N (code c + 32) else c.

(** [str.lower] on code points below 256, where lowering gives one
    character for each character. *)
Definition lower (s : text) : text := map lower_char s.

Definition chr_eqb (a b : ascii) : bool := Ascii.eqb a b.

Fixpoint text_eqb (a b : text) : bool :=
  match a, b with
  | [], [] => true
  | x :: a', y :: b' => chr_eqb x y && text_eqb a' b'
  | _, _ => false
  end.

(** [s.startswith(p)]. *)
Fixpoint starts_with (p s : text) : bool :=
  match p, s with
  | [], _ => true
  | x :: p', y :: s' => chr_eqb x y && starts_with p' s'
  | _ :: _, [] => false
  end.

(** [s.endswith(p)]. *)
Definition ends_with (p s : text) : bool :=
  starts_with (rev p) (rev s).

(** [sub in s]. *)
Fixpoint contains (sub s : text) : bool :=
  starts_with sub s ||
  match s with
  | [] => false
  | _ :: s' => contains sub s'
  end.

(** Lowest offset at which [sub] occurs in [s], counted from [i]. *)
Fixpoint find_from (sub s : text) (i : nat) : option nat :=
  if starts_with sub s then Some i
  else match s with
       | [] => None
       | _ :: s' => find_from sub s' (S i)
       end.

(** [s.find(sub)] and [s.find(sub, start)] for [0 <= start]. *)
Definition find (sub s : text) (start : Z) : Z :=
  if Z.of_nat (length s) <? start then -1
  else match find_from sub (drop (Z.to_nat start) s) (Z.to_nat start) with
       | Some i => Z.of_nat i
       | None => -1
       end.

(** Python's index clamping for a slice bound. *)
Definition clamp (len i : Z) : Z :=
  if i <? 0 then Z.max 0 (i + len) else Z.min i len.

(** [s[lo:hi]]. *)
Definition slice (s : text) (lo hi : Z) : text :=
  let n := Z.of_nat (length s) in
  let lo' := clamp n lo in
  let hi' := clamp n hi in
  take (Z.to_nat (hi' - lo')) (drop (Z.to_nat lo') s).

(** [s[:hi]] and [s[lo:]]. *)
Definition slice_to (s : text) (hi : Z) : text := slice s 0 hi.
Definition slice_from (s : text) (lo : Z) : text :=
  slice s lo (Z.of_nat (length s)).

(** Highest index of the character [c] in [s[lo:hi]], for [0 <= lo <= hi],
    as [s.rfind(c, lo, hi)] gives it. *)
Fixpoint rindex (c : ascii) (s : text) (i : nat) : option nat :=
  match s with
  | [] => None
  | x :: s' =>
      match rindex c s' (S i) with
      | Some j => Some j
      | None => if chr_eqb x c then Some i else None
      end
  end.

Definition rfind_char (c : ascii) (s : text) (lo hi : Z) : Z :=
  let n := Z.of_nat (length s) in
  let lo' := clamp n lo in
  match rindex c (slice s lo hi) (Z.to_nat lo') with
  | Some j => Z.of_nat j
  | None => -1
  end.

(** [str.strip()]: whitespace removed at both ends. *)
Fixpoint lstrip (s : text) : text :=
  match s with
  | c :: s' => if is_space c then lstrip s' else s
  | [] => []
  end.

Definition rstrip (s : text) : text := rev (lstrip (rev s)).

Definition strip (s : text) : text := rstrip (lstrip s).

(** [s.replace(old, new)]: every non-overlapping occurrence, left to right.
    [skip] counts the characters of an occurrence still to be passed over. *)
Fixpoint replace_go (old new : text) (skip : nat) (s : text) : text :=
  match s with
  | [] => []
  | c :: s' =>
      match skip with
      | S k => replace_go old new k s'
      | O =>
          if starts_with old s
          then new ++ replace_go old new (length old - 1) s'
          else c :: replace_go old new 0 s'
      end
  end.

Definition str_replace (old new s : text) : text :=
  match old with
  | [] => new ++ flat_map (fun c => c :: new) s
  | _ :: _ => replace_go old new 0 s
  end.

(** [sep.join(parts)]. *)
Fixpoint join (sep : text) (parts : list text) : text :=
  match parts with
  | [] => []
  | [p] => p
  | p :: rest => p ++ sep ++ join sep rest
  end.

(** [s.strip(chars)]: the characters of [chars] removed at both ends. *)
Fixpoint lstrip_chars (chars s : text) : text :=
  match s with
  | c :: s' => if existsb (chr_eqb c) chars then lstrip_chars chars s' else s
  | [] => []
  end.

Definition rstrip_chars (chars s : text) : text :=
  rev (lstrip_chars chars (rev s)).

Definition strip_chars (chars s : text) : text :=
  rstrip_chars chars (lstrip_chars chars s).

(** ** Regular expressions

    The fragment of Python's [re] the program uses: repetition is only ever
    applied to a single character class, so [Star] and [StarLazy] take the
    class itself. *)

Inductive regex : Type :=
| Empty
| Cls (p : ascii -> bool)
| Seq (r1 r2 : regex)
| Alt (r1 r2 : regex)
| Star (p : ascii -> bool)
| StarLazy (p : ascii -> bool)
| Look (r : regex)
| Bol (multiline : bool)
| Eol (multiline : bool)
| EndZ.

(** A matching position: the characters before it, nearest first, and the
    characters from it on. *)
Definition mstate : Type := (text * text)%type.

Definition mpos (st : mstate) : nat := length (fst st).

Fixpoint star_greedy (p : ascii -> bool) (bef rest : text)
    (k : mstate -> option mstate) : option mstate :=
  match rest with
  | c :: tl =>
      if p c then
        match star_greedy p (c :: bef) tl k with
        | Some x => Some x
        | None => k (bef, rest)
        end
      else k (bef, rest)
  | [] => k (bef, [])
  end.

Fixpoint star_lazy (p : ascii -> bool) (bef rest : text)
    (k : mstate -> option mstate) : option mstate :=
  match k (bef, rest) with
  | Some x => Some x
  | None =>
      match rest with
      | c :: tl => if p c then star_lazy p (c :: bef) tl k else None
      | [] => None
      end
  end.

Definition at_bol (multiline : bool) (st : mstate) : bool :=
  match fst st with
  | [] => true
  | c :: _ => multiline && chr_eqb c nl
  end.

Definition at_eol (multiline : bool) (st : mstate) : bool :=
  match snd st with
  | [] => true
  | c :: tl => chr_eqb c nl && (multiline || match tl with [] => true | _ => false end)
  end.

Definition at_end (st : mstate) : bool :=
  match snd st with [] => true | _ => false end.

(** The backtracking matcher: [rmatch r st k] tries the ways [r] matches at
    [st] in Python's priority order and returns the first for which the
    continuation [k] succeeds. *)
Fixpoint rmatch (r : regex) (st : mstate) (k : mstate -> option mstate)
    : option mstate :=
  match r with
  | Empty => k st
  | Cls p =>
      match snd st with
      | c :: tl => if p c then k (c :: fst st, tl) else None
      | [] => None
      end
  | Seq r1 r2 => rmatch r1 st (fun st' => rmatch r2 st' k)
  | Alt r1 r2 =>
      match rmatch r1 st k with
      | Some x => Some x
      | None => rmatch r2 st k
      end
  | Star p => star_greedy p (fst st) (snd st) k
  | StarLazy p => star_lazy p (fst st) (snd st) k
  | Look r' =>
      match rmatch r' st Some with
      | Some _ => k st
      | None => None
      end
  | Bol ml => if at_bol ml st then k st else None
  | Eol ml => if at_eol ml st then k st else None
  | EndZ => if at_end st then k st else None
  end.

(** [re.search]: the leftmost start at which the pattern matches, with the
    end the matcher picks there; [(start, end)] as offsets. *)
Fixpoint search_from (r : regex) (bef rest : text) : option (nat * nat) :=
  match rmatch r (bef, rest) Some with
  | Some st' => Some (length bef, mpos st')
  | None =>
      match rest with
      | c :: tl => search_from r (c :: bef) tl
      | [] => None
      end
  end.

Definition re_search (r : regex) (s : text) : option (nat * nat) :=
  search_from r [] s.

(** [match.group(0)] of a search result. *)
Definition group0 (s : text) (m : nat * nat) : text :=
  take (snd m - fst m)%nat (drop (fst m) s).

(** [re.sub(r, repl, s)] for a pattern that cannot match the empty string:
    matches are replaced left to right, each search resuming where the
    previous match ended. An empty match (none of the patterns substituted
    here has one) ends the scan. *)
Fixpoint sub_from (fuel : nat) (r : regex) (repl : text) (bef rest : text) : text :=
  match fuel with
  | O => rest
  | S fuel' =>
      match search_from r bef rest with
      | None => rest
      | Some (s, e) =>
          let off := (s - length bef)%nat in
          let len := (e - s)%nat in
          match len with
          | O => rest
          | S _ =>
              take off rest ++ repl ++
              sub_from fuel' r repl (rev (take (off + len) rest) ++ bef)
                       (drop (off + len) rest)
          end
      end
  end.

Definition re_sub (r : regex) (repl s : text) : text :=
  sub_from (S (length s)) r repl [] s.

(** *** Pattern combinators *)

Definition any_char (c : ascii) : bool := true.
Definition chr (c : ascii) : ascii -> bool := chr_eqb c.
Definition chr_i (c : ascii) : ascii -> bool :=
  fun x => chr_eqb (lower_char x) (lower_char c).
Definition not_chr (c : ascii) : ascii -> bool := fun x => negb (chr_eqb x c).

Fixpoint lit_of (f : ascii -> ascii -> bool) (s : text) : regex :=
  match s with
  | [] => Empty
  | [c] => Cls (f c)
  | c :: s' => Seq (Cls (f c)) (lit_of f s')
  end.

(** A literal, and a literal under [re.IGNORECASE]. *)
Definition lit_t (s : text) : regex := lit_of chr s.
Definition lit (s : string) : regex := lit_t (txt s).
Definition lit_i (s : string) : regex := lit_of chr_i (txt s).

Definition Plus (p : ascii -> bool) : regex := Seq (Cls p) (Star p).
Definition Opt (r : regex) : regex := Alt r Empty.

Fixpoint seqs (rs : list regex) : regex :=
  match rs with
  | [] => Empty
  | [r] => r
  | r :: rs' => Seq r (seqs rs')
  end.

Fixpoint alts (rs : list regex) : regex :=
  match rs with
  | [] => Empty
  | [r] => r
  | r :: rs' => Alt r (alts rs')
  end.

(** *** What a match is

    [matches r st st']: the pattern [r] can match from position [st] to
    position [st'], priorities aside. The matcher explores exactly these
    matches. *)

Inductive matches : regex -> mstate -> mstate -> Prop :=
| M_Empty st : matches Empty st st
| M_Cls p c bef tl : p c = true -> matches (Cls p) (bef, c :: tl) (c :: bef, tl)
| M_Seq r1 r2 st st1 st2 :
    matches r1 st st1 -> matches r2 st1 st2 -> matches (Seq r1 r2) st st2
| M_AltL r1 r2 st st' : matches r1 st st' -> matches (Alt r1 r2) st st'
| M_AltR r1 r2 st st' : matches r2 st st' -> matches (Alt r1 r2) st st'
| M_Star0 p st : matches (Star p) st st
| M_StarS p c bef tl st' :
    p c = true -> matches (Star p) (c :: bef, tl) st' ->
    matches (Star p) (bef, c :: tl) st'
| M_Lazy0 p st : matches (StarLazy p) st st
| M_LazyS p c bef tl st' :
    p c = true -> matches (StarLazy p) (c :: bef, tl) st' ->
    matches (StarLazy p) (bef, c :: tl) st'
| M_Look r st st' : matches r st st' -> matches (Look r) st st
| M_Bol ml st : at_bol ml st = true -> matches (Bol ml) st st
| M_Eol ml st : at_eol ml st = true -> matches (Eol ml) st st
| M_EndZ st : at_end st = true -> matches EndZ st st.

(** [holds_at r s i j]: in the text [s], the pattern matches from offset
    [i] to offset [j]. *)
Definition holds_at (r : regex) (s : text) (i j : nat) : Prop :=
  exists pre w post, s = pre ++ w ++ post /\ i = length pre /\
    j = (i + length w)%nat /\
    matches r (rev pre, w ++ post) (rev w ++ rev pre, post).



(** The class of the first character of every match, for a pattern that
    cannot match without consuming one; anchors and lookaheads in front
    are passed over. *)
Definition zero_width (r : regex) : bool :=
  match r with
  | Empty | Look _ | Bol _ | Eol _ | EndZ => true
  | _ => false
  end.

Fixpoint first_class (r : regex) : option (ascii -> bool) :=
  match r with
  | Cls p => Some p
  | Seq r1 r2 =>
      match first_class r1 with
      | Some p => Some p
      | None => if zero_width r1 then first_class r2 else None
      end
  | Alt r1 r2 =>
      match first_class r1, first_class r2 with
      | Some p1, Some p2 => Some (fun c => p1 c || p2 c)
      | _, _ => None
      end
  | _ => None
  end.

(** * The pricing workflow: [dynamic_pricing.py] *)

Module DynamicPricing.

(** ** Club-name normalisation *)

(** "^(CFF|In-Shape):\s*" under [re.IGNORECASE]. *)
Definition prefix_re : regex :=
  seqs [Bol false; Alt (lit_i "CFF") (lit_i "In-Shape"); lit ":"; Star is_space].

(** "\s+california\s+\d+" and "\s+ca\s+\d+". *)
Definition state_zip_re (state : string) : regex :=
  seqs [Plus is_space; lit state; Plus is_space; Plus is_digit].

(** "\s+". *)
Definition spaces_re : regex := Plus is_space.

Definition normalize_club_name (name : text) : text :=
  let name := re_sub prefix_re [] name in
  let name := str_replace (txt "-") (txt " ")
                (str_replace (txt "_") (txt " ") (lower name)) in
  let name := re_sub (state_zip_re "california") [] name in
  let name := re_sub (state_zip_re "ca") [] name in
  strip (re_sub spaces_re (txt " ") name).

(** A file is represented by its stem, [filepath.stem]: the file name
    without its last extension, which is all the name extractors read. *)

(** "^(CFF__|In-Shape__)". *)
Definition txt_prefix_re : regex :=
  seqs [Bol false; Alt (lit "CFF__") (lit "In-Shape__")].

Definition extract_club_name_from_txt (stem : text) : text :=
  let club_name := re_sub txt_prefix_re [] stem in
  str_replace (txt "_") (txt " ") club_name.

(** "^www\.inshape\.com_gyms_", "_clean$", "-california-\d+", "-ca-\d+". *)
Definition md_prefix_re : regex := seqs [Bol false; lit "www.inshape.com_gyms_"].
Definition md_suffix_re : regex := seqs [lit "_clean"; Eol false].
Definition md_state_zip_re (state : string) : regex :=
  seqs [lit "-"; lit state; lit "-"; Plus is_digit].

Definition extract_club_name_from_md (stem : text) : text :=
  let filename := re_sub md_prefix_re [] stem in
  let filename := re_sub md_suffix_re [] filename in
  let filename := re_sub (md_state_zip_re "california") [] filename in
  let filename := re_sub (md_state_zip_re "ca") [] filename in
  str_replace (txt "_") (txt " ") (str_replace (txt "-") (txt " ") filename).

(** ** Pricing content from the CSV

    The CSV is taken as [csv.reader] delivers it: the header row followed
    by the data rows, each a list of cells. *)

Abbreviation row := (list text).

Definition not_available : text := txt "Not available".

(** [value or 'Not available']. *)
Definition or_not_available (value : text) : text :=
  match value with [] => not_available | _ => value end.

(** [row[i].strip()] if [len(row) > i], the empty string otherwise. *)
Definition stripped_cell (r : row) (i : nat) : text :=
  match r !! i with Some v => strip v | None => [] end.

Definition is_lifestyle_column (col_name : text) : bool :=
  contains (txt "Lifestyle Local Network") col_name ||
  contains (txt "Lifestyle Network Plus") col_name.

Fixpoint index_where {A : Type} (p : A -> bool) (l : list A) (i : nat) : option nat :=
  match l with
  | [] => None
  | x :: l' => if p x then Some i else index_where p l' (S i)
  end.

Fixpoint enumerate_from {A : Type} (i : nat) (l : list A) : list (nat * A) :=
  match l with
  | [] => []
  | x :: l' => (i, x) :: enumerate_from (S i) l'
  end.

Definition is_nonempty (t : text) : bool :=
  match t with [] => false | _ => true end.

(** The named columns after the lifestyle column, with their indices. *)
Definition additional_columns (header : row) (lifestyle_col_idx : nat)
    : list (nat * text) :=
  filter (fun ic => is_nonempty (snd ic) = true)
    (map (fun ic => (fst ic, strip (snd ic)))
       (enumerate_from (lifestyle_col_idx + 1) (drop (lifestyle_col_idx + 1) header))).

Definition fee_types : list text :=
  map txt ["Member Type"; "Enrollment 12 M"; "Main Dues 12M"; "Enrollment MTM";
           "Main Dues MTM"; "Add Adult"; "Add Youth"; "Add Child";
           "Preferred"; "Elevate"; "Non-EFT Fee"; "Credit Card Service Fee"]%string.

Definition add_on_fees_col : nat := 6.
Definition local_network_col : nat := 15.
Definition fitness_plus_col : nat := 16.
Definition lifestyle_col : nat := 17.

(** The rows of the club: those with a second cell whose normalised value
    is the normalised club name. *)
Definition is_club_row (normalized_club_name : text) (r : row) : bool :=
  match r !! 1%nat with
  | Some c => text_eqb normalized_club_name (normalize_club_name (strip c))
  | None => false
  end.

Definition club_rows_of (rows : list row) (club_name : text) : list row :=
  filter (fun r => is_club_row (normalize_club_name club_name) r = true) rows.

(** First row of the club for a fee type. *)
Definition is_fee_row (fee_type : text) (r : row) : bool :=
  match r !! add_on_fees_col with
  | Some c => text_eqb (strip c) fee_type
  | None => false
  end.

Definition fee_row_of (club_rows : list row) (fee_type : text) : option row :=
  List.find (is_fee_row fee_type) club_rows.

(** The values excluded from the additional columns: the empty string,
    the dash and the dollar-dash (listed twice in the source). *)
Definition is_dash_value (v : text) : bool :=
  text_eqb v [] || text_eqb v (txt "-") || text_eqb v (txt "$-") || text_eqb v (txt "$-").

Definition additional_part (fee_row : row) (col : nat * text) : option text :=
  match fee_row !! fst col with
  | Some v =>
      let col_value := strip v in
      if is_nonempty col_value && negb (is_dash_value col_value)
      then Some (strip (str_replace (txt " - NFC") [] (snd col)) ++ txt ": " ++ col_value)
      else None
  | None => None
  end.

Definition additional_parts (fee_row : row) (cols : list (nat * text)) : list text :=
  omap (additional_part fee_row) cols.

Definition core_line (fee_type : text) (fee_row : row) : text :=
  fee_type ++ txt ": Local Network: "
    ++ or_not_available (stripped_cell fee_row local_network_col)
    ++ txt " | Fitness Plus Local Network: "
    ++ or_not_available (stripped_cell fee_row fitness_plus_col)
    ++ txt " | Lifestyle Network Plus: "
    ++ or_not_available (stripped_cell fee_row lifestyle_col).

Definition pricing_line (fee_type : text) (fee_row : row)
    (cols : list (nat * text)) : text :=
  match additional_parts fee_row cols with
  | [] => core_line fee_type fee_row
  | parts => core_line fee_type fee_row ++ txt " | " ++ join (txt " | ") parts
  end.

Definition pricing_lines (club_rows : list row) (cols : list (nat * text))
    : list text :=
  omap (fun fee_type =>
          match fee_row_of club_rows fee_type with
          | Some fee_row => Some (pricing_line fee_type fee_row cols)
          | None => None
          end) fee_types.

(** [None] stands for the function's [None]: no header row (the
    [StopIteration] of [next(reader)] is caught), no lifestyle column, or
    no row of the club. *)
Definition read_pricing_content_from_csv (csv : list row) (club_name : text)
    : option (text * list text) :=
  match csv with
  | [] => None
  | header :: rows =>
      match index_where is_lifestyle_column header 0 with
      | None => None
      | Some lifestyle_col_idx =>
          let cols := additional_columns header lifestyle_col_idx in
          match club_rows_of rows club_name with
          | [] => None
          | club_rows =>
              Some (join [nl] (pricing_lines club_rows cols), map snd cols)
          end
      end
  end.

(** ** Pricing content from a club text file *)

(** "Member Type:.*?(?=\n\s*$|\Z)" under [re.DOTALL]. *)
Definition member_block_re : regex :=
  seqs [lit "Member Type:"; StarLazy any_char;
        Look (Alt (seqs [Cls (chr nl); Star is_space; Eol false]) EndZ)].

Definition read_pricing_content_from_txt (content : text) : option text :=
  match re_search member_block_re content with
  | Some m => Some (strip (group0 content m))
  | None => None
  end.

(** ** Replacing the pricing section of a location document *)

Definition availability_re : regex := Alt (lit "available") (lit "not available").

(** "Member Type:.*?(?:SILVER SNEAKERS|Insurance Availability):.*?(?:available|not available).*?(?:\n(?:Peer Fit|PeerFit):.*?(?:available|not available).*?)?(?=\n\n|\n\[Get Started\]|\Z)"
    under [re.DOTALL]. *)
Definition pricing_block_re : regex :=
  seqs [lit "Member Type:"; StarLazy any_char;
        Alt (lit "SILVER SNEAKERS") (lit "Insurance Availability"); lit ":";
        StarLazy any_char; availability_re; StarLazy any_char;
        Opt (seqs [Cls (chr nl); Alt (lit "Peer Fit") (lit "PeerFit"); lit ":";
                   StarLazy any_char; availability_re; StarLazy any_char]);
        Look (alts [lit_t [nl; nl]; lit_t (nl :: txt "[Get Started]"); EndZ])].

(** The success flag and the text left in the file. *)
Definition replace_pricing_section_in_md (content new_pricing_content : text)
    : bool * text :=
  match re_search pricing_block_re content with
  | Some m => (true, str_replace (group0 content m) new_pricing_content content)
  | None => (false, content)
  end.

(** ** Replacing the enhancement-fee text of a location document *)

Definition len (t : text) : Z := Z.of_nat (length t).
Definition mstart (m : nat * nat) : Z := Z.of_nat (fst m).
Definition mend (m : nat * nat) : Z := Z.of_nat (snd m).

Definition new_enhancement_fee_text : text :=
  txt "*Annual enhancement fee of $49.95 for the first member and $89.95 for all memberships with two or more persons will be billed 60 days from the join date, then every 12 months thereafter for the duration of the membership. If you choose to use a credit or debit card for your method of payment, additional $4.99 credit card fee added to your dues."
  ++ [nl; nl] ++
  txt "*Amenities and programming vary by location. Monthly retail rebate valid on in-club purchases of drinks, snacks and shakes and excludes day passes and discounted items. Rebate not to exceed monthly dues amount. Relax & Recover available at select clubs. For guest passes, guest must be 18+ and accompany a member. One guest per visit. All access pass is one time per month and expires at the end of the month."
  ++ [nl; nl] ++
  txt "*Reservations are required. A $2 no-show fee will be applied if reservations are not cancelled 2 hours prior.".

Definition signature_first : text := txt "$49.95 for the first member".
Definition signature_all : text := txt "$89.95 for all memberships".

Definition already_updated (content : text) : bool :=
  contains signature_first content && contains signature_all content.

(** The group "\*\*Note:\*\*\s*" followed by "$", under [re.MULTILINE]. *)
Definition note_re : regex := seqs [lit "**Note:**"; Star is_space; Eol true].

(** The group "\*\*Additional\s+Fees?:\*\*\s*" followed by "$", under
    [re.MULTILINE | re.IGNORECASE]. *)
Definition additional_fees_re : regex :=
  seqs [lit_i "**Additional"; Plus is_space; lit_i "Fee"; Opt (Cls (chr_i "s"));
        lit_i ":**"; Star is_space; Eol true].

(** "Other\s+terms\s+and\s+conditions\s+apply" and "\[Click\s+here", both
    under [re.IGNORECASE]. *)
Definition other_terms_head : regex :=
  seqs [lit_i "Other"; Plus is_space; lit_i "terms"; Plus is_space; lit_i "and";
        Plus is_space; lit_i "conditions"; Plus is_space; lit_i "apply"].
Definition click_here_head : regex :=
  seqs [lit_i "[Click"; Plus is_space; lit_i "here"].

(** "\[Click\s+here[^\]]*?\]\([^\)]+\)". *)
Definition click_link_re : regex :=
  seqs [click_here_head; StarLazy (not_chr "]"); lit "]("; Plus (not_chr ")"); lit ")"].

(** "Other\s+terms\s+and\s+conditions\s+apply[^.]*?\.?\s*(?:\[Click\s+here[^\]]*?\]\([^\)]+\))?". *)
Definition other_terms_re : regex :=
  seqs [other_terms_head; StarLazy (not_chr "."); Opt (Cls (chr "."));
        Star is_space; Opt click_link_re].

(** The fragment kept after the new text: either of the two. *)
Definition trailer_re : regex := Alt other_terms_re click_link_re.

(** The two preceded by ".*?", under [re.DOTALL]. *)
Definition terms_re : regex := Seq (StarLazy any_char) other_terms_re.
Definition link_re : regex := Seq (StarLazy any_char) click_link_re.

Definition dot_end : regex := Alt (Cls (chr nl)) (Eol false).

(** "(.*?\.\s*(?:\n|$))" and "(.*?\.\s+.*?\.\s*(?:\n|$))" under [re.DOTALL]. *)
Definition sentence_re : regex :=
  seqs [StarLazy any_char; Cls (chr "."); Star is_space; dot_end].
Definition two_sentences_re : regex :=
  seqs [StarLazy any_char; Cls (chr "."); Plus is_space;
        StarLazy any_char; Cls (chr "."); Star is_space; dot_end].

(** "(?=\s+Other\s+terms\s+and\s+conditions\s+apply|\[Click\s+here|\n\n#|\Z)". *)
Definition section_end : regex :=
  Look (alts [Seq (Plus is_space) other_terms_head; click_here_head;
              lit_t [nl; nl; "#"%char]; EndZ]).

Definition terms_pattern : regex := Seq (StarLazy any_char) section_end.

(** ".*?\$2\.99.*?" followed by the same lookahead. *)
Definition extended_re : regex :=
  seqs [StarLazy any_char; lit "$2.99"; StarLazy any_char; section_end].

Definition paragraph_break : regex :=
  alts [lit_t [nl; nl]; lit_t [nl; "#"%char]; EndZ].

(** ".*?\.\s*\*?\s*(?:\n\n|\n#|\Z)". *)
Definition paragraph_end_re : regex :=
  seqs [StarLazy any_char; Cls (chr "."); Star is_space; Opt (Cls (chr "*"));
        Star is_space; paragraph_break].

(** ".*?\.\s*\*?\s*\n\s*\*?\s*.*?\$2\.99.*?(?:\n\n|\n#|\Z)". *)
Definition next_line_re : regex :=
  seqs [StarLazy any_char; Cls (chr "."); Star is_space; Opt (Cls (chr "*"));
        Star is_space; Cls (chr nl); Star is_space; Opt (Cls (chr "*"));
        Star is_space; StarLazy any_char; lit "$2.99"; StarLazy any_char;
        paragraph_break].

(** ".*?(?=\n\n|\n#|\Z)". *)
Definition break_re : regex := Seq (StarLazy any_char) (Look paragraph_break).

Definition has_card_fee (t : text) : bool :=
  contains (txt "$2.99") t || contains (txt "credit card") (lower t)
  || contains (txt "debit card") (lower t).

(** Start of the line holding [pos], looking back 200 characters at most;
    50 characters back when no line start is found. *)
Definition line_start_pos (content : text) (pos : Z) : Z :=
  let line_start := rfind_char nl content (Z.max 0 (pos - 200)) pos in
  if line_start =? -1 then Z.max 0 (pos - 50) else line_start + 1.

(** Start of a heading matched at the end of [before_text]. *)
Definition heading_start (pos : Z) (before_text : text) (m : nat * nat) : Z :=
  pos - (len before_text - mstart m).

(** [after_text.split('\n')[0]]. *)
Fixpoint first_line (s : text) : text :=
  match s with
  | [] => []
  | c :: s' => if chr_eqb c nl then [] else c :: first_line s'
  end.

(** The text kept after the new text for a fragment found. *)
Definition preserved (fragment : text) : text := [nl; nl] ++ strip fragment.

(** End of a generic disclaimer when no trailer is found: one or two
    sentences. *)
Definition sentences_end (after_text : text) (an_pos : Z) : Z :=
  match re_search sentence_re after_text with
  | Some end_match =>
      match re_search two_sentences_re after_text with
      | Some next_sentence => an_pos + mend next_sentence
      | None => an_pos + mend end_match
      end
  | None =>
      if contains [nl] after_text then an_pos + len (first_line after_text)
      else len after_text
  end.

(** End position and preserved text of the generic branch. *)
Definition generic_end (after_text : text) (an_pos : Z) : Z * text :=
  match re_search terms_re after_text with
  | Some terms_match =>
      let g0 := group0 after_text terms_match in
      match re_search other_terms_re g0 with
      | Some preserved_match =>
          let g1 := group0 g0 preserved_match in
          (an_pos + mstart terms_match + find g1 g0 0, preserved g1)
      | None => (an_pos + mend terms_match, [])
      end
  | None =>
      match re_search link_re after_text with
      | Some link_match =>
          if mstart link_match <? 200 then
            let g0 := group0 after_text link_match in
            match re_search click_link_re g0 with
            | Some preserved_match =>
                let g1 := group0 g0 preserved_match in
                (an_pos + mstart link_match + find g1 g0 0, preserved g1)
            | None => (an_pos + mend link_match, [])
            end
          else (sentences_end after_text an_pos, [])
      | None => (sentences_end after_text an_pos, [])
      end
  end.

Definition generic_start (content : text) (an_pos : Z) : Z :=
  let before_text := slice content (Z.max 0 (an_pos - 200)) an_pos in
  match re_search note_re before_text with
  | Some note_match => heading_start an_pos before_text note_match
  | None => line_start_pos content an_pos
  end.

Definition legacy_start (content : text) (fee_pos : Z) : Z :=
  let before_text := slice content (Z.max 0 (fee_pos - 200)) fee_pos in
  match re_search note_re before_text with
  | Some note_match => heading_start fee_pos before_text note_match
  | None =>
      match re_search additional_fees_re before_text with
      | Some additional_match => heading_start fee_pos before_text additional_match
      | None => line_start_pos content fee_pos
      end
  end.

(** End position and preserved text once the text up to [matched_len]
    holds the card-fee clause: a trailer within the next 100 characters is
    passed over and kept. *)
Definition preserve_after (remaining : text) (search_start matched_len : Z)
    : Z * text :=
  let end_pos := search_start + matched_len in
  let after_text := slice remaining matched_len (matched_len + 100) in
  match re_search trailer_re after_text with
  | Some preserved_match =>
      (end_pos + mend preserved_match, preserved (group0 after_text preserved_match))
  | None => (end_pos, [])
  end.

(** End position and preserved text of the legacy branch; [None] when no
    end is found. *)
Definition legacy_end (remaining : text) (search_start : Z) : option (Z * text) :=
  match re_search terms_pattern remaining with
  | Some terms_match =>
      let matched_text := group0 remaining terms_match in
      if has_card_fee matched_text
      then Some (preserve_after remaining search_start (len matched_text))
      else
        match re_search extended_re remaining with
        | Some extended_match =>
            Some (preserve_after remaining search_start
                    (len (group0 remaining extended_match)))
        | None => Some (search_start + len matched_text, [])
        end
  | None =>
      match re_search paragraph_end_re remaining with
      | Some end_match =>
          let matched_text := group0 remaining end_match in
          if has_card_fee matched_text
          then Some (search_start + len matched_text, [])
          else
            match re_search next_line_re remaining with
            | Some next_line_match =>
                Some (search_start + len (group0 remaining next_line_match), [])
            | None => Some (search_start + len matched_text, [])
            end
      | None =>
          match re_search break_re remaining with
          | Some end_match => Some (search_start + len (group0 remaining end_match), [])
          | None => None
          end
      end
  end.

(** What the function decides for a document: nothing to do, nothing
    found, or the span [[start_pos, end_pos)] to replace and the text to
    keep after the new text. *)
Inductive fee_plan : Type :=
| AlreadyUpdated
| NotFound
| Splice (start_pos end_pos : Z) (preserved_text : text).

(** Where "An Annual Enhancement Fee applies" starts, the anchor itself
    when the sentence is not found. *)
Definition generic_an_pos (content : text) (fee_pos search_start : Z) : Z :=
  let an_pos := find (txt "an annual enhancement fee applies") (lower content) search_start in
  if an_pos =? -1 then fee_pos else an_pos.

Definition generic_plan (content : text) (fee_pos search_start : Z) : fee_plan :=
  let an_pos := generic_an_pos content fee_pos search_start in
  let start_pos := generic_start content an_pos in
  let after_text := slice content an_pos (an_pos + 300) in
  let '(end_pos, preserved_text) := generic_end after_text an_pos in
  Splice start_pos end_pos preserved_text.

(** The old amounts are near the anchor: "$49.99" within 500 characters
    after it, or else "$89.98" in the 500 characters from it. *)
Definition has_old_amounts (content : text) (fee_pos : Z) : bool :=
  let amount_pos := find (txt "$49.99") content fee_pos in
  negb ((amount_pos =? -1) || (fee_pos + 500 <? amount_pos))
  || contains (txt "$89.98") (slice content fee_pos (fee_pos + 500)).

Definition legacy_plan (content : text) (fee_pos : Z) : fee_plan :=
  if negb (has_old_amounts content fee_pos) then NotFound
  else
    let start_pos := legacy_start content fee_pos in
    match legacy_end (slice_from content fee_pos) fee_pos with
    | Some (end_pos, preserved_text) => Splice start_pos end_pos preserved_text
    | None => NotFound
    end.

(** The generic disclaimer: "applies" near the anchor, none of the old
    dollar amounts. *)
Definition is_generic (content : text) (fee_pos : Z) : bool :=
  let search_start := Z.max 0 (fee_pos - 50) in
  let remaining_text := slice content search_start (fee_pos + 400) in
  let has_applies :=
    contains (txt "applies") (lower remaining_text)
    && contains (txt "annual enhancement fee") (lower remaining_text) in
  let has_dollar_amounts :=
    contains (txt "$49.99") remaining_text || contains (txt "$89.98") remaining_text
    || contains (txt "$2.99") remaining_text in
  has_applies && negb has_dollar_amounts.

(** Position of "annual enhancement fee", whatever the case. *)
Definition fee_anchor (content : text) : Z :=
  find (txt "annual enhancement fee") (lower content) 0.

Definition fee_plan_of (content : text) : fee_plan :=
  if already_updated content then AlreadyUpdated
  else
    let fee_pos := fee_anchor content in
    if fee_pos =? -1 then NotFound
    else if is_generic content fee_pos
         then generic_plan content fee_pos (Z.max 0 (fee_pos - 50))
         else legacy_plan content fee_pos.




(** The success flag and the text left in the file. *)
Definition replace_enhancement_fee_text (content : text) : bool * text :=
  match fee_plan_of content with
  | AlreadyUpdated => (true, content)
  | NotFound => (false, content)
  | Splice start_pos end_pos preserved_text =>
      (true, slice_to content start_pos
               ++ (new_enhancement_fee_text ++ preserved_text)
               ++ slice_from content end_pos)
  end.

(** ** Matching club text files to location documents

    Text files and documents are given by their stems, in the order the
    directory listing yields them. *)

Definition special_mappings : gmap text text :=
  list_to_map
    [(txt "sports complex", txt "rocklin east");
     (txt "east arden", txt "carmichael arden");
     (txt "madison", txt "madison i 80");
     (txt "sunrise", txt "sunrise hwy 50");
     (txt "modesto mchenry", txt "modesto mchenry north");
     (txt "suisun", txt "suisun city");
     (txt "turlock", txt "turlock monte vista");
     (txt "vallejo lincoln rd", txt "vallejo lincoln road");
     (txt "victorville", txt "victorville north");
     (txt "visalia mooney", txt "visalia mooney north")].

Definition multi_mappings : gmap text (list text) :=
  list_to_map [(txt "midtown", [txt "midtown"; txt "downtown"])].

(** The warnings printed while matching. *)
Inductive warning : Type :=
| MultiTargetNotFound (target_name txt_file : text)
| NoMatchSpecial (txt_file normalized special_normalized : text)
| NoMatch (txt_file normalized : text).

(** Normalised document name to document; a later document with the same
    name replaces an earlier one. *)
Definition md_name_map_of (md_files : list text) : gmap text text :=
  foldl (fun m md_file =>
           <[normalize_club_name (extract_club_name_from_md md_file) := md_file]> m)
        ∅ md_files.

(** The documents found for the targets of a one-to-many entry, and the
    warnings for the targets without a document. *)
Definition resolve_targets (md_name_map : gmap text text) (txt_file : text)
    (targets : list text) : list text * list warning :=
  (omap (fun target_name => md_name_map !! target_name) targets,
   omap (fun target_name =>
           match md_name_map !! target_name with
           | Some _ => None
           | None => Some (MultiTargetNotFound target_name txt_file)
           end) targets).

(** One turn of the loop over the text files: the mapping and the warnings
    so far, updated for [txt_file]. *)
Definition match_txt_file (md_name_map : gmap text text)
    (acc : gmap text (list text) * list warning) (txt_file : text)
    : gmap text (list text) * list warning :=
  let '(mapping, warnings) := acc in
  let normalized := normalize_club_name (extract_club_name_from_txt txt_file) in
  match multi_mappings !! normalized with
  | Some targets =>
      let '(md_file_list, missing) := resolve_targets md_name_map txt_file targets in
      (match md_file_list with
       | [] => mapping
       | _ => <[txt_file := md_file_list]> mapping
       end, warnings ++ missing)
  | None =>
      match md_name_map !! normalized with
      | Some md_file => (<[txt_file := [md_file]]> mapping, warnings)
      | None =>
          match special_mappings !! normalized with
          | Some special_normalized =>
              match md_name_map !! special_normalized with
              | Some md_file => (<[txt_file := [md_file]]> mapping, warnings)
              | None =>
                  (mapping,
                   warnings ++ [NoMatchSpecial txt_file normalized special_normalized])
              end
          | None => (mapping, warnings ++ [NoMatch txt_file normalized])
          end
      end
  end.

(** The mapping returned and the warnings printed. *)
Definition build_club_mapping (txt_files md_files : list text)
    : gmap text (list text) * list warning :=
  foldl (match_txt_file (md_name_map_of md_files)) (∅, []) txt_files.

(** ** The run over the club text files

    A directory is taken as the program lists it: each text file or
    document is its stem with its text, [None] standing for a directory
    that does not exist. The output directory, distinct from the document
    directory, is the map of its "*_clean.md" documents by stem; the CSV
    file is its rows, [None] when there is no such file. [copy_ok] tells
    for which documents the copy into the output directory succeeds. *)

Abbreviation files := (list (text * text)).

(** The text of the file [stem] of a directory. *)
Fixpoint file_text (dir : files) (stem : text) : text :=
  match dir with
  | [] => []
  | (s, t) :: dir' => if text_eqb s stem then t else file_text dir' stem
  end.

(** [mapping.items()]: the entries in the order of their insertion, which
    is the order of the text files, these being distinct. *)
Definition mapping_items (txt_files : list text) (mapping : gmap text (list text))
    : list (text * list text) :=
  omap (fun txt_file =>
          match mapping !! txt_file with
          | Some md_files => Some (txt_file, md_files)
          | None => None
          end) txt_files.

(** The pricing content of a club: from the CSV when it gives a content
    that is not empty, from the club text file otherwise; [None] when
    neither gives one. *)
Definition pricing_content_for (csv_file : option (list row))
    (club_name txt_content : text) : option text :=
  let pricing_content :=
    match csv_file with
    | Some csv =>
        match read_pricing_content_from_csv csv club_name with
        | Some (pricing_content, additional_columns) => Some pricing_content
        | None => None
        end
    | None => None
    end in
  let pricing_content :=
    match pricing_content with
    | Some (_ :: _) => pricing_content
    | _ => read_pricing_content_from_txt txt_content
    end in
  match pricing_content with
  | Some (_ :: _) => pricing_content
  | _ => None
  end.

Record counters : Type := {
  success_count : nat;
  failed_count : nat;
  total_files_processed : nat
}.

Definition count_processed (n : counters) : counters :=
  {| success_count := success_count n; failed_count := failed_count n;
     total_files_processed := S (total_files_processed n) |}.

Definition count_success (n : counters) : counters :=
  {| success_count := S (success_count n); failed_count := failed_count n;
     total_files_processed := total_files_processed n |}.

Definition count_failed (k : nat) (n : counters) : counters :=
  {| success_count := success_count n; failed_count := failed_count n + k;
     total_files_processed := total_files_processed n |}.

(** One document of a text file: copied into the output directory, its
    pricing section and then its enhancement-fee text replaced there. *)
Definition update_md_file (md_dir : files) (copy_ok : text -> bool)
    (pricing_content : text) (acc : counters * gmap text text) (md_file : text)
    : counters * gmap text text :=
  let '(n, updated_dir) := acc in
  let n := count_processed n in
  if copy_ok md_file then
    let '(pricing_success, content) :=
      replace_pricing_section_in_md (file_text md_dir md_file) pricing_content in
    let '(enhancement_fee_success, content) := replace_enhancement_fee_text content in
    (if pricing_success then count_success n else count_failed 1 n,
     <[md_file := content]> updated_dir)
  else (count_failed 1 n, updated_dir).

(** One text file with its documents. *)
Definition process_txt_file (txt_dir md_dir : files) (csv_file : option (list row))
    (copy_ok : text -> bool) (acc : counters * gmap text text)
    (item : text * list text) : counters * gmap text text :=
  let '(txt_file, md_files) := item in
  let club_name := extract_club_name_from_txt txt_file in
  match pricing_content_for csv_file club_name (file_text txt_dir txt_file) with
  | None => (count_failed (length md_files) (fst acc), snd acc)
  | Some pricing_content =>
      foldl (update_md_file md_dir copy_ok pricing_content) acc md_files
  end.

(** The last pass: the enhancement-fee text replaced in every document of
    the output directory; the counts of successes and failures. *)
Definition replace_in_all (updated_dir : gmap text text) : nat * nat * gmap text text :=
  let results := map (fun kv => fst (replace_enhancement_fee_text (snd kv)))
                     (map_to_list updated_dir) in
  (length (filter (fun b => b = true) results),
   length (filter (fun b => b = false) results),
   (fun content => snd (replace_enhancement_fee_text content)) <$> updated_dir).

Record summary : Type := {
  text_files_processed : nat;
  counts : counters;
  enhancement_fee_success_count : nat;
  enhancement_fee_failed_count : nat
}.

(** The summary printed and the output directory left; [None] when a
    directory is missing and nothing is done. *)
Definition run (txt_dir md_dir : option files) (updated_dir : gmap text text)
    (csv_file : option (list row)) (copy_ok : text -> bool)
    : option (summary * gmap text text) :=
  match txt_dir, md_dir with
  | Some txt_dir, Some md_dir =>
      let txt_files := map fst txt_dir in
      let mapping := fst (build_club_mapping txt_files (map fst md_dir)) in
      let items := mapping_items txt_files mapping in
      let '(n, updated_dir) :=
        foldl (process_txt_file txt_dir md_dir csv_file copy_ok)
              ({| success_count := 0; failed_count := 0; total_files_processed := 0 |},
               updated_dir) items in
      let '(succeeded, failed, updated_dir) := replace_in_all updated_dir in
      Some ({| text_files_processed := length items; counts := n;
               enhancement_fee_success_count := succeeded;
               enhancement_fee_failed_count := failed |}, updated_dir)
  | _, _ => None
  end.

End DynamicPricing.

(** * The multi-club formatter: [inshape_pricing_formatter.py] *)

(** Python's order on strings: lexicographic on code points. *)
Fixpoint text_leb (a b : text) : bool :=
  match a, b with
  | [], _ => true
  | _ :: _, [] => false
  | x :: a', y :: b' =>
      if (code x <? code y)%N then true
      else if (code y <? code x)%N then false
      else text_leb a' b'
  end.

Definition text_le (a b : text) : Prop := text_leb a b = true.

#[global] Instance text_le_dec : RelDecision text_le.
Proof. intros a b. unfold text_le. apply _. Defined.

(** [sorted(names)]. *)
Definition sorted (names : list text) : list text := merge_sort text_le names.

Module Formatter.

Abbreviation row := (list text).

Definition not_available : text := txt "Not available".

Definition fee_types : list text :=
  map txt ["Member Type"; "Enrollment 12 M"; "Main Dues 12M"; "Enrollment MTM";
           "Main Dues MTM"; "Add Adult"; "Add Youth"; "Add Child";
           "Preferred"; "Elevate"; "Non-EFT Fee"; "Credit Card Service Fee"]%string.

Definition is_nonempty (t : text) : bool :=
  match t with [] => false | _ => true end.

Definition clean_price (value : text) : text :=
  if negb (is_nonempty value) || text_eqb (strip value) []
     || text_eqb (strip value) (txt "-")
  then not_available
  else
    let value := strip value in
    if text_eqb value (txt "$-") then not_available
    else if text_eqb value (txt "$") then not_available
    else value.

(** [row[i].strip()], for an index within the row. *)
Definition cell (r : row) (i : nat) : text :=
  match r !! i with Some v => strip v | None => [] end.

(** What [all_clubs] keeps for a club id. *)
Record club_info : Type := {
  name : text;
  level : text;
  local_name : text;
  local_access : text;
  elevate_offering : text
}.

(** Insertion-ordered dictionaries, as association lists. *)
Fixpoint assoc_get {V : Type} (k : text) (d : list (text * V)) : option V :=
  match d with
  | [] => None
  | (k', v) :: d' => if text_eqb k k' then Some v else assoc_get k d'
  end.

Definition assoc_has {V : Type} (k : text) (d : list (text * V)) : bool :=
  match assoc_get k d with Some _ => true | None => false end.

(** [d[k].append(x)] on a [defaultdict(list)]. *)
Fixpoint assoc_append {V : Type} (k : text) (x : V) (d : list (text * list V))
    : list (text * list V) :=
  match d with
  | [] => [(k, [x])]
  | (k', xs) :: d' =>
      if text_eqb k k' then (k', xs ++ [x]) :: d'
      else (k', xs) :: assoc_append k x d'
  end.

Definition get_network_clubs (local_access local_name club_name : text)
    (all_clubs : list (text * club_info)) : list text :=
  if negb (is_nonempty local_name) || text_eqb local_name (txt "NA") then []
  else
    sorted (omap (fun kv => if text_eqb (Formatter.local_name (snd kv)) local_name
                            then Some (name (snd kv)) else None) all_clubs).

Definition shows_availability (value : text) : bool :=
  is_nonempty value
  && ((contains (txt "$") value && existsb isdigit_char value)
      || (negb (text_eqb value []) && negb (text_eqb value (txt "-")))).

Definition program_status (rows : list row) (col_idx : nat) : text :=
  if existsb (fun r => match r !! col_idx with
                       | Some v => shows_availability (strip v)
                       | None => false
                       end) rows
  then txt "available" else txt "not available".

Definition get_program_availability (rows : list row)
    (available_programs : list (text * nat)) : list (text * text) :=
  map (fun pc => (fst pc, program_status rows (snd pc))) available_programs.

Definition program_exact_matches : list (text * list text) :=
  [(txt "SILVER SNEAKERS", [txt "silver sneakers"]);
   (txt "ASH - Standard", [txt "ash - standard"; txt "ash standard"]);
   (txt "ASH - Premium", [txt "ash - premium"; txt "ash premium"]);
   (txt "Optum - Classic Core", [txt "optum - classic core"; txt "optum classic core"]);
   (txt "Optum - Premium Elite", [txt "optum - premium elite"; txt "optum premium elite"]);
   (txt "OPTUM RENEW", [txt "optum renew"; txt "optum renew - nfc"]);
   (txt "Peer Fit", [txt "peer fit"; txt "peerfit"])].

(** A header names the program by one of its patterns. *)
Definition header_matches (header_lower pattern : text) : bool :=
  let pattern_lower := lower pattern in
  (text_eqb pattern_lower header_lower
   || text_eqb header_lower pattern_lower
   || starts_with (pattern_lower ++ txt " -") header_lower
   || starts_with (pattern_lower ++ txt " ") header_lower
   || ends_with (txt " - " ++ pattern_lower) header_lower
   || ends_with (txt " " ++ pattern_lower) header_lower)
  && negb (contains (txt "silver sneakers") pattern_lower
           && (contains (txt "soccer") header_lower
               || contains (txt "academy") header_lower)).

Definition detect_in_header (idx : nat) (header : text)
    (detected : list (text * nat)) : list (text * nat) :=
  let header_lower := lower (strip header) in
  foldl (fun det pp =>
           if assoc_has (fst pp) det then det
           else if existsb (header_matches header_lower) (snd pp)
                then det ++ [(fst pp, idx)]
                else det)
        detected program_exact_matches.

Definition detect_availability_columns (headers : list text) : list (text * nat) :=
  foldl (fun det ih => detect_in_header (fst ih) (snd ih) det) []
        (DynamicPricing.enumerate_from 0 headers).

(** The rows kept: at least 15 cells, a club name that is not empty and
    not the header's. *)
Definition is_data_row (r : row) : bool :=
  negb (length r <? 15)%nat
  && is_nonempty (cell r 1) && negb (text_eqb (cell r 1) (txt "Club Name")).

Definition info_of (r : row) : club_info :=
  {| name := cell r 1; level := cell r 2; local_name := cell r 3;
     local_access := cell r 4; elevate_offering := cell r 5 |}.

(** [all_clubs] and [club_data_by_name] after the rows are read. *)
Definition read_row (acc : list (text * club_info) * list (text * list row))
    (r : row) : list (text * club_info) * list (text * list row) :=
  if is_data_row r then
    (if assoc_has (cell r 0) (fst acc) then fst acc
     else fst acc ++ [(cell r 0, info_of r)],
     assoc_append (cell r 1) r (snd acc))
  else acc.

Definition read_rows (rows : list row)
    : list (text * club_info) * list (text * list row) :=
  foldl read_row ([], []) rows.

(** The three prices of a row. *)
Definition prices_of (r : row) : text * text * text :=
  if text_eqb (cell r 6) (txt "Member Type") then
    let plain i := match r !! i with
                   | Some v => if is_nonempty (strip v) then strip v else not_available
                   | None => not_available
                   end in
    (plain 12%nat, plain 13%nat, plain 14%nat)
  else
    let price i := match r !! i with
                   | Some v => clean_price v
                   | None => not_available
                   end in
    (price 12%nat, price 13%nat, price 14%nat).

(** [fee_data]: the prices by fee type, a later row replacing an earlier. *)
Definition fee_data_of (rows : list row) : gmap text (text * text * text) :=
  foldl (fun fd r => if (length r <? 15)%nat then fd
                     else <[cell r 6 := prices_of r]> fd) ∅ rows.

Definition fee_line (fee_type : text) (data : text * text * text) : text :=
  fee_type ++ txt ": One Club: " ++ fst (fst data) ++ txt " | "
    ++ txt "Local Network: " ++ snd (fst data) ++ txt " | "
    ++ txt "Lifestyle Network Plus: " ++ snd data.

Definition program_order : list text :=
  map txt ["SILVER SNEAKERS"; "ASH - Standard"; "ASH - Premium";
           "Optum - Classic Core"; "Optum - Premium Elite"; "OPTUM RENEW";
           "Peer Fit"]%string.

Definition availability_lines (rows : list row)
    (availability_programs : list (text * nat)) : list text :=
  match availability_programs with
  | [] => []
  | _ =>
      let program_availability := get_program_availability rows availability_programs in
      let availability_parts :=
        omap (fun program =>
                if assoc_has program availability_programs then
                  Some (program ++ txt ": "
                          ++ match assoc_get program program_availability with
                             | Some status => status
                             | None => txt "not available"
                             end)
                else None) program_order in
      match availability_parts with
      | [] => []
      | _ => [txt "Availability:"; join (txt " | ") availability_parts]
      end
  end.

Definition separator : text := repeat "="%char 80.

(** The output lines of one club. *)
Definition club_section (all_clubs : list (text * club_info))
    (availability_programs : list (text * nat)) (club_name : text)
    (rows : list row) : list text :=
  match rows with
  | [] => []
  | first_row :: _ =>
      let local_name := cell first_row 3 in
      let local_access := cell first_row 4 in
      let elevate_offering := cell first_row 5 in
      let fee_data := fee_data_of rows in
      let network_clubs := get_network_clubs local_access local_name club_name all_clubs in
      [txt "Club Name: " ++ club_name; []; txt "Pricing Details:"]
      ++ omap (fun fee_type =>
                 match fee_data !! fee_type with
                 | Some data => Some (fee_line fee_type data)
                 | None => None
                 end) fee_types
      ++ [[]]
      ++ [if is_nonempty local_name && negb (text_eqb local_name (txt "NA"))
          then txt "Network Name: " ++ local_name ++ txt " (Other Clubs: "
                 ++ join (txt ", ") network_clubs ++ txt ")"
          else txt "Network Name: Not available (Other Clubs: )"]
      ++ [if is_nonempty elevate_offering
             && negb (text_eqb (strip elevate_offering) []
                      || text_eqb (strip elevate_offering) (txt "NA")
                      || text_eqb (strip elevate_offering) (txt "Not available"))
          then txt "Elevate Offering: " ++ strip elevate_offering
          else txt "Elevate Offering: Not available"]
      ++ [[]]
      ++ availability_lines rows availability_programs
      ++ [separator; []]
  end.

(** The club names in the order their sections are written. *)
Definition section_names (rows : list row) : list text :=
  sorted (map fst (snd (read_rows rows))).

Definition rows_of (club_data_by_name : list (text * list row)) (club_name : text)
    : list row :=
  match assoc_get club_name club_data_by_name with
  | Some rows => rows
  | None => []
  end.

(** The formatted text for the rows [csv.reader] delivers, header first. *)
Definition process_csv_file (csv : list row) : text :=
  match csv with
  | [] => txt "Error processing file: "
  | headers :: rows =>
      let availability_programs := detect_availability_columns headers in
      let '(all_clubs, club_data_by_name) := read_rows rows in
      join [nl]
        (flat_map (fun club_name =>
                     club_section all_clubs availability_programs club_name
                       (rows_of club_data_by_name club_name))
                  (sorted (map fst club_data_by_name)))
  end.

End Formatter.

(** * The club file splitter: [split_club_files.py] *)

Module Splitter.

(** [file.readlines()] with the line ends removed: the lines of a text,
    a final line end opening no further line. *)
Fixpoint lines_go (cur : text) (s : text) : list text :=
  match s with
  | [] => match cur with [] => [] | _ => [rev cur] end
  | c :: s' =>
      if chr_eqb c nl then rev cur :: lines_go [] s'
      else lines_go (c :: cur) s'
  end.

Definition readlines (s : text) : list text := lines_go [] s.

Record club_section : Type := { name : text; content : text }.

Definition club_name_prefix : text := txt "Club Name: ".
Definition separator : text := txt "================================================================================".

Definition is_nonempty {A : Type} (l : list A) : bool :=
  match l with [] => false | _ => true end.

(** The section being read, closed when it has a name and lines. *)
Definition close_section (current_club : option text) (current_content : list text)
    (club_sections : list club_section) : list club_section :=
  match current_club with
  | Some club =>
      if is_nonempty club && is_nonempty current_content
      then club_sections ++ [{| name := club; content := join [nl] current_content |}]
      else club_sections
  | None => club_sections
  end.

(** The loop over the lines: the sections closed so far, the current
    club and its lines. *)
Fixpoint split_lines (lines : list text) (club_sections : list club_section)
    (current_club : option text) (current_content : list text)
    : list club_section :=
  match lines with
  | [] => close_section current_club current_content club_sections
  | line :: lines' =>
      if starts_with club_name_prefix line then
        split_lines lines' (close_section current_club current_content club_sections)
          (Some line) [line]
      else
        match current_club with
        | Some club =>
            if is_nonempty club then
              if text_eqb line separator
              then split_lines lines' club_sections current_club current_content
              else split_lines lines' club_sections current_club (current_content ++ [line])
            else split_lines lines' club_sections current_club current_content
        | None => split_lines lines' club_sections current_club current_content
        end
  end.

(** The sections of the text of the formatted file. *)
Definition split_club_sections (file_text : text) : list club_section :=
  split_lines (readlines file_text) [] None [].

(** The characters replaced in a file name: the angle brackets, the colon,
    the double quote, the two slashes, the bar, the question mark and the
    star. *)
Definition invalid_filename_char (c : ascii) : bool :=
  existsb (chr_eqb c) (ascii_of_nat 34 :: txt "<>:/\|?*").

Definition clean_filename (club_name : text) : text :=
  let clean_name := str_replace club_name_prefix [] club_name in
  let clean_name := re_sub (Cls invalid_filename_char) (txt "_") clean_name in
  let clean_name := str_replace (txt " ") (txt "_") clean_name in
  strip_chars (txt ". ") clean_name.

(** What an attempt to write a club file does: the file is written whole;
    or opening it raises, and the directory stays as it is; or the write
    raises once the file is open, and the file holds what was written
    until then. *)
Inductive write_outcome : Type :=
| Written
| OpenFailed
| WriteFailed (written : text).

Definition is_written (outcome : write_outcome) : bool :=
  match outcome with
  | Written => true
  | _ => false
  end.

(** The text an attempt leaves in its file, when it touches the file. *)
Definition file_left (content : text) (outcome : write_outcome) : option text :=
  match outcome with
  | Written => Some content
  | OpenFailed => None
  | WriteFailed written => Some written
  end.

(** One turn of the loop: the section is counted as saved only when
    nothing was raised. *)
Definition save_club_file (club : club_section) (outcome : write_outcome)
    (acc : nat * gmap text text) : nat * gmap text text :=
  let filename := clean_filename (name club) in
  match outcome with
  | Written => (S (fst acc), <[filename := content club]> (snd acc))
  | OpenFailed => acc
  | WriteFailed written => (fst acc, <[filename := written]> (snd acc))
  end.

(** The sections with the outcome of their write, [write i] being what the
    file system does at the i-th turn of the loop. *)
Definition attempts (write : nat -> write_outcome) (club_sections : list club_section)
    : list (club_section * write_outcome) :=
  imap (fun i club => (club, write i)) club_sections.

(** The club files written: the output directory as the map of its files
    by name, the ".txt" ending left out and names told apart as they are
    written, and the count of saved files. *)
Definition save_club_files (write : nat -> write_outcome)
    (club_sections : list club_section) (output_directory : gmap text text)
    : nat * gmap text text :=
  foldl (fun acc a => save_club_file (fst a) (snd a) acc)
        (O, output_directory) (attempts write club_sections).

End Splitter.

(** * Vocabulary of the statements *)

(** [first_at sub a b]: in [a ++ sub ++ b], the occurrence of [sub] after
    [a] is the first one. *)
Definition first_at (sub a b : text) : Prop :=
  forall a1 c a2, a = a1 ++ c :: a2 -> starts_with sub (c :: a2 ++ sub ++ b) = false.

(** [s.replace(old, new, 1)]: the first occurrence only, as the
    specification words the pricing splice. *)
Fixpoint replace_first (old new s : text) : text :=
  if starts_with old s then new ++ drop (length old) s
  else match s with
       | [] => []
       | c :: s' => c :: replace_first old new s'
       end.

Definition member_type : text := txt "Member Type:".

(** The block as the specification words it: from "Member Type:" up to the
    next blank line or the end of the text, the line end before a blank
    line being the one after which only whitespace stands on the line. *)
Definition member_block_spec_re : regex :=
  seqs [lit "Member Type:"; StarLazy any_char;
        Look (Alt (seqs [Cls (chr nl); Star is_space; Eol true]) EndZ)].

Definition member_block_to_blank_line (content : text) : option text :=
  match re_search member_block_spec_re content with
  | Some m => Some (strip (group0 content m))
  | None => None
  end.

(** * Auxiliary notions of the proofs *)

(** What "\s+" replaced by one space gives, as a scan: [in_run] says that
    the scan is inside a run of whitespace. *)
Fixpoint collapse_ws (in_run : bool) (s : text) : text :=
  match s with
  | [] => []
  | c :: s' =>
      if is_space c
      then if in_run then collapse_ws true s' else " "%char :: collapse_ws true s'
      else c :: collapse_ws false s'
  end.

Fixpoint skip_spaces (s : text) : text :=
  match s with
  | c :: s' => if is_space c then skip_spaces s' else s
  | [] => []
  end.

Fixpoint count_spaces (s : text) : nat :=
  match s with
  | c :: s' => if is_space c then S (count_spaces s') else O
  | [] => O
  end.

Fixpoint count_nonspaces (s : text) : nat :=
  match s with
  | c :: s' => if is_space c then O else S (count_nonspaces s')
  | [] => O
  end.

(** Every whitespace character is one space, and no two stand together. *)
Fixpoint single_spaced (s : text) : bool :=
  match s with
  | [] => true
  | c :: s' =>
      (if is_space c
       then chr_eqb c " "%char
            && match s' with [] => true | d :: _ => negb (is_space d) end
       else true)
      && single_spaced s'
  end.

(** What every character of a normalised name satisfies. *)
Definition clean_char (c : ascii) : Prop :=
  lower_char c = c /\ c <> "_"%char /\ c <> "-"%char.

(** The entry a one-to-many text file gets: the documents found, or no
    entry when none is found. *)
Definition multi_entry (md_name_map : gmap text text) (targets : list text)
    : option (list text) :=
  match omap (fun target_name => md_name_map !! target_name) targets with
  | [] => None
  | found => Some found
  end.

(** [s.split('\n')]. *)
Fixpoint split_go (cur : text) (s : text) : list text :=
  match s with
  | [] => [rev cur]
  | c :: s' =>
      if chr_eqb c nl then rev cur :: split_go [] s'
      else split_go (c :: cur) s'
  end.

Definition split_nl (s : text) : list text := split_go [] s.

Definition no_nl (l : text) : Prop := Forall (fun c => chr_eqb c nl = false) l.

(** A well-formed section: a header line, then lines none of which is the
    Splitter.separator. *)
Definition section_ok (sec : Splitter.club_section) : Prop :=
  exists body,
    Splitter.content sec = join [nl] (Splitter.name sec :: body)
    /\ starts_with Splitter.club_name_prefix (Splitter.name sec) = true
    /\ Forall (fun l => l <> Splitter.separator) body
    /\ Forall no_nl (Splitter.name sec :: body).

Definition current_ok (current_club : option text) (current_content : list text) : Prop :=
  match current_club with
  | None => True
  | Some club =>
      exists body,
        current_content = club :: body
        /\ starts_with Splitter.club_name_prefix club = true
        /\ Forall (fun l => l <> Splitter.separator) body
        /\ Forall no_nl (club :: body)
  end.

(** Strictly before, in Python's order on strings. *)
Definition text_lt (a b : text) : Prop := text_le a b /\ a <> b.

(** [club_data_by_name] as the rows are read; the club table plays no part
    in it. *)
Definition add_row (d : list (text * list (list text))) (r : list text)
    : list (text * list (list text)) :=
  if Formatter.is_data_row r then Formatter.assoc_append (Formatter.cell r 1) r d else d.

(** * Sample documents *)

(** A document in which the pricing block stands twice. *)
Definition pricing_twice : text :=
  txt "Member Type: A | SILVER SNEAKERS: available" ++ [nl; nl]
  ++ txt "Member Type: A | SILVER SNEAKERS: available".

(** A club text file: a blank line after the pricing lines, more text
    below it. *)
Definition club_text_sample : text :=
  txt "Club Name: X" ++ [nl; nl] ++ txt "Pricing Details:" ++ [nl]
  ++ txt "Member Type: One Club: M1" ++ [nl; nl] ++ txt "Network Name: NetA" ++ [nl].

(** A CSV with the lifestyle column at index 17 and two named columns
    after it; the first row of the club has a dash, a dollar-dash and a
    blank in its three core tier cells. *)
Definition csv_header : list text :=
  map txt ["Club ID"; "Club Name"; "Club Level"; "Local Name"; "Local Access";
           "Elevate"; "Add On Fees"; ""; ""; ""; ""; ""; ""; ""; "";
           "Basic Local Network"; "Fitness Plus Local Network";
           "Lifestyle Local Network"; "Premier - NFC"; "Family"]%string.

Definition csv_row (club fee local fitness lifestyle premier family : string)
    : list text :=
  map txt ["101"; club; "Gold"; "NetA"; "Full"; "None"; fee]%string
  ++ repeat [] 8 ++ map txt [local; fitness; lifestyle; premier; family].

Definition csv_sample : list (list text) :=
  [csv_header;
   csv_row "Rocklin East" "Main Dues MTM" "-" "$-" " " "-" "$30";
   csv_row "CFF: rocklin_east" "Add Adult" "$10" "$15" "$20" "$-" "";
   csv_row "Other" "Add Adult" "$1" "$1" "$2" "$-" ""].

(** A formatted file with two lines before its first club section. *)
Definition splitter_sample : text :=
  txt "Formatted on Monday" ++ [nl; nl]
  ++ txt "Club Name: Alpha" ++ [nl] ++ txt "Member Type: One Club: M1" ++ [nl]
  ++ Splitter.separator ++ [nl; nl]
  ++ txt "Club Name: Zeta" ++ [nl] ++ txt "Elevate" ++ [nl].

(** Rows of two clubs, the later name first. *)
Definition formatter_row (club_id club fee one local lifestyle : string) : list text :=
  map txt [club_id; club; "L1"; "NetA"; "x"; "NA"; fee]%string
  ++ repeat [] 5 ++ map txt [one; local; lifestyle].

Definition formatter_rows : list (list text) :=
  [formatter_row "2" "Zeta" "Member Type" "M1" "" "M3";
   formatter_row "1" "Alpha" "Main Dues MTM" "$10" "-" "$-";
   formatter_row "2" "Zeta" "Main Dues MTM" "$1" "$" " "].

(** Two location documents: the generic disclaimer and the legacy text,
    each followed by the terms trailer and its link. *)
Definition generic_doc : text :=
  txt "# Club" ++ [nl; nl]
  ++ txt "**Note:** An Annual Enhancement Fee applies. Other terms and conditions apply. [Click here](https://x.com/terms)"
  ++ [nl; nl] ++ txt "## Next".

Definition legacy_doc : text :=
  txt "# Club" ++ [nl; nl]
  ++ txt "**Note:** Annual Enhancement Fee of $49.99 for one and $89.98 for two. A $2.99 credit card fee applies. Other terms and conditions apply. [Click here](https://x.com/terms)"
  ++ [nl; nl] ++ txt "## Next".





(** * Further notions of the statements *)

(** A header names a program: it meets one of the program's patterns. *)
Definition names_program (patterns : list text) (header : text) : bool :=
  existsb (Formatter.header_matches (lower (strip header))) patterns.

(** A text that stands on one line when written to a file and read back:
    no line end and no carriage return. *)
Definition one_line (t : text) : bool :=
  forallb (fun c => negb (chr_eqb c nl) && negb (chr_eqb c (ascii_of_nat 13))) t.

(** A line that cannot be taken for a header line or for the separator. *)
Definition plain_line (l : text) : Prop :=
  no_nl l /\ starts_with (txt "Cl") l = false /\ starts_with (txt "=") l = false.

(** The sections as the formatter writes them: after the lines of each
    come the separator and an empty line; the last empty line is the
    line end of the text. *)
Fixpoint as_read (secs : list (text * list text)) : list (text * list text) :=
  match secs with
  | [] => []
  | [(h, b)] => [(h, b ++ [Splitter.separator])]
  | (h, b) :: secs' => (h, b ++ [Splitter.separator; []]) :: as_read secs'
  end.

(** The three prices of a row are one line each. *)
Definition prices_one_line (d : text * text * text) : Prop :=
  no_nl (fst (fst d)) /\ no_nl (snd (fst d)) /\ no_nl (snd d).

(** A line that opens with a fixed word: plain when the word decides it. *)
Definition plain_word (w : text) : Prop :=
  no_nl w /\ forall rest, starts_with (txt "Cl") (w ++ rest) = false
                          /\ starts_with (txt "=") (w ++ rest) = false.

(** A club name without its "CFF:" or "In-Shape:" prefix, in whatever
    case, and without the whitespace after the prefix. *)
Definition without_prefix (s : text) : text :=
  if starts_with (txt "cff") (lower s) && starts_with (txt ":") (drop 3 s)
  then skip_spaces (drop 4 s)
  else if starts_with (txt "in-shape") (lower s) && starts_with (txt ":") (drop 8 s)
       then skip_spaces (drop 9 s)
       else s.

(** The text file a warning is about. *)
Definition warning_file (w : DynamicPricing.warning) : text :=
  match w with
  | DynamicPricing.MultiTargetNotFound _ txt_file => txt_file
  | DynamicPricing.NoMatchSpecial txt_file _ _ => txt_file
  | DynamicPricing.NoMatch txt_file _ => txt_file
  end.

(** The count of documents handled by a run, successes and failures
    together. *)
Definition handled (n : DynamicPricing.counters) : nat :=
  DynamicPricing.success_count n + DynamicPricing.failed_count n.

(** Where a document of the output directory comes from, when it was not
    there before: it is the copy of a document mapped to a text file that
    has a pricing content, with the two replacements made. *)
Definition copied_document (txt_dir md_dir : DynamicPricing.files)
    (csv_file : option (list (list text))) (copy_ok : text -> bool)
    (d c : text) : Prop :=
  exists f l pc,
    fst (DynamicPricing.build_club_mapping (map fst txt_dir) (map fst md_dir)) !! f
    = Some l
    /\ d ∈ l /\ copy_ok d = true
    /\ DynamicPricing.pricing_content_for csv_file
         (DynamicPricing.extract_club_name_from_txt f)
         (DynamicPricing.file_text txt_dir f)
       = Some pc
    /\ c = snd (DynamicPricing.replace_enhancement_fee_text
                  (snd (DynamicPricing.replace_pricing_section_in_md
                          (DynamicPricing.file_text md_dir d) pc))).

(** A text with its hyphens turned into spaces. *)
Definition hyphens_to_spaces (s : text) : text :=
  map (fun c => if chr_eqb "-" c then " "%char else c) s.

(** A text with its spaces turned into underscores. *)
Definition spaces_to_underscores (s : text) : text :=
  map (fun c => if chr_eqb " " c then "_"%char else c) s.

(** * Properties of the text and pattern primitives *)

(** ** Texts *)

Lemma chr_eqb_eq a b : chr_eqb a b = true <-> a = b.
Proof. unfold chr_eqb. apply Ascii.eqb_eq. Qed.

Lemma chr_eqb_refl a : chr_eqb a a = true.
Proof. apply chr_eqb_eq. reflexivity. Qed.

Lemma text_eqb_eq a : forall b, text_eqb a b = true <-> a = b.
Proof.
  induction a as [|x a IH]; intros [|y b]; simpl; split; intros H;
    try discriminate; try reflexivity.
  - apply andb_true_iff in H as [H1 H2]. apply chr_eqb_eq in H1. apply IH in H2.
    congruence.
  - injection H as -> ->. rewrite chr_eqb_refl. simpl. apply IH. reflexivity.
Qed.

Lemma text_eqb_refl a : text_eqb a a = true.
Proof. apply text_eqb_eq. reflexivity. Qed.

Lemma starts_with_spec p : forall s,
  starts_with p s = true <-> exists r, s = p ++ r.
Proof.
  induction p as [|x p IH]; intros s; simpl.
  - split; [intros _; exists s; reflexivity|reflexivity].
  - destruct s as [|y s]; simpl.
    + split; [discriminate|intros [r Hr]; discriminate].
    + rewrite andb_true_iff, chr_eqb_eq, IH. split.
      * intros [-> [r ->]]. exists r. reflexivity.
      * intros [r Hr]. injection Hr as -> ->. split; [reflexivity|eauto].
Qed.

Lemma starts_with_app p r : starts_with p (p ++ r) = true.
Proof. apply starts_with_spec. eauto. Qed.

Lemma contains_spec sub s :
  contains sub s = true <-> exists a b, s = a ++ sub ++ b.
Proof.
  induction s as [|c s IH]; simpl.
  - rewrite orb_false_r, starts_with_spec. split.
    + intros [r Hr]. exists [], r. exact Hr.
    + intros (a & b & H). symmetry in H. apply app_eq_nil in H as [-> H].
      exists b. symmetry. exact H.
  - rewrite orb_true_iff, starts_with_spec, IH. split.
    + intros [[r Hr]|(a & b & ->)].
      * exists [], r. exact Hr.
      * exists (c :: a), b. reflexivity.
    + intros (a & b & H). destruct a as [|c' a]; simpl in H.
      * left. eauto.
      * injection H as <- ->. right. eauto.
Qed.

(** A text that holds [sub] still holds it inside a larger text. *)
Lemma contains_app sub a t b :
  contains sub t = true -> contains sub (a ++ t ++ b) = true.
Proof.
  rewrite !contains_spec. intros (x & y & ->).
  exists (a ++ x), (y ++ b). rewrite <- !app_assoc. reflexivity.
Qed.

(** ** Patterns *)

Create HintDb re.
#[local] Hint Constructors matches : re.

Lemma star_greedy_sound p rest : forall bef k x,
  star_greedy p bef rest k = Some x ->
  exists st', matches (Star p) (bef, rest) st' /\ k st' = Some x.
Proof.
  induction rest as [|c tl IH]; intros bef k x H; simpl in H.
  - eauto with re.
  - destruct (p c) eqn:Hp; [|eauto with re].
    destruct (star_greedy p (c :: bef) tl k) eqn:Hg.
    + injection H as <-. apply IH in Hg as (st' & Hm & Hk). eauto with re.
    + eauto with re.
Qed.

Lemma star_lazy_sound p rest : forall bef k x,
  star_lazy p bef rest k = Some x ->
  exists st', matches (StarLazy p) (bef, rest) st' /\ k st' = Some x.
Proof.
  induction rest as [|c tl IH]; intros bef k x H; simpl in H.
  - destruct (k (bef, [])) eqn:Hk; [|discriminate]. injection H as <-. eauto with re.
  - destruct (k (bef, c :: tl)) eqn:Hk.
    + injection H as <-. eauto with re.
    + destruct (p c) eqn:Hp; [|discriminate].
      apply IH in H as (st' & Hm & Hk'). eauto with re.
Qed.

(** Soundness: whatever the matcher returns comes from a match of the
    pattern accepted by the continuation. *)
Lemma rmatch_sound r : forall st k x,
  rmatch r st k = Some x ->
  exists st', matches r st st' /\ k st' = Some x.
Proof.
  induction r as [|p|r1 IH1 r2 IH2|r1 IH1 r2 IH2|p|p|r IH|ml|ml|];
    intros [bef rest] k x H; simpl in H.
  - eauto with re.
  - destruct rest as [|c tl]; [discriminate|].
    destruct (p c) eqn:Hp; [|discriminate]. eauto with re.
  - apply IH1 in H as (st1 & Hm1 & H). apply IH2 in H as (st2 & Hm2 & H).
    eauto with re.
  - destruct (rmatch r1 (bef, rest) k) eqn:H1.
    + injection H as <-. apply IH1 in H1 as (st' & ? & ?). eauto with re.
    + apply IH2 in H as (st' & ? & ?). eauto with re.
  - apply star_greedy_sound in H. exact H.
  - apply star_lazy_sound in H. exact H.
  - destruct (rmatch r (bef, rest) Some) eqn:H1; [|discriminate].
    apply IH in H1 as (st' & ? & ?). eauto with re.
  - destruct (at_bol ml (bef, rest)) eqn:Hb; [|discriminate]. eauto with re.
  - destruct (at_eol ml (bef, rest)) eqn:Hb; [|discriminate]. eauto with re.
  - destruct (at_end (bef, rest)) eqn:Hb; [|discriminate]. eauto with re.
Qed.

(** Completeness: when some match is accepted by the continuation, the
    matcher does not fail. *)
Lemma rmatch_complete r st st' :
  matches r st st' ->
  forall k, is_Some (k st') -> is_Some (rmatch r st k).
Proof.
  induction 1 as
    [st|p c bef tl Hp|r1 r2 st st1 st2 _ IH1 _ IH2|r1 r2 st st' _ IH|r1 r2 st st' _ IH
    |p st|p c bef tl st' Hp _ IH|p st|p c bef tl st' Hp _ IH|r st st' _ IH
    |ml st Hb|ml st Hb|st Hb]; intros k Hk; simpl.
  - exact Hk.
  - rewrite Hp. exact Hk.
  - apply IH1. apply IH2. exact Hk.
  - destruct (IH k Hk) as [x ->]. eauto.
  - destruct (rmatch r1 st k); [eauto|]. apply IH. exact Hk.
  - destruct st as [bef rest]. simpl. destruct rest as [|c tl]; simpl; [exact Hk|].
    destruct (p c); [|exact Hk].
    destruct (star_greedy p (c :: bef) tl k); [eauto|exact Hk].
  - rewrite Hp. simpl in IH. destruct (IH k Hk) as [x ->]. eauto.
  - destruct st as [bef rest]. simpl. destruct Hk as [x Hk].
    destruct rest; simpl; rewrite Hk; eauto.
  - simpl in IH. destruct (k (bef, c :: tl)); [eauto|]. rewrite Hp. apply IH. exact Hk.
  - destruct (IH Some (ltac:(eauto))) as [x ->]. exact Hk.
  - rewrite Hb. exact Hk.
  - rewrite Hb. exact Hk.
  - rewrite Hb. exact Hk.
Qed.

(** A match only moves forward over the text it is run on. *)
Lemma matches_extends r st st' :
  matches r st st' ->
  exists w, snd st = w ++ snd st' /\ fst st' = rev w ++ fst st.
Proof.
  induction 1 as
    [st|p c bef tl Hp|r1 r2 st st1 st2 _ IH1 _ IH2|r1 r2 st st' _ IH|r1 r2 st st' _ IH
    |p st|p c bef tl st' Hp _ IH|p st|p c bef tl st' Hp _ IH|r st st' _ IH
    |ml st Hb|ml st Hb|st Hb];
    try (exists []; split; reflexivity); try exact IH.
  - exists [c]. split; reflexivity.
  - destruct IH1 as (w1 & E1 & F1), IH2 as (w2 & E2 & F2).
    exists (w1 ++ w2). rewrite E1, E2, F2, F1, rev_app_distr, <- !app_assoc. done.
  - destruct IH as (w & E & F). simpl in *. exists (c :: w). simpl.
    rewrite E, F, <- app_assoc. done.
  - destruct IH as (w & E & F). simpl in *. exists (c :: w). simpl.
    rewrite E, F, <- app_assoc. done.
Qed.


Lemma search_from_spec r rest : forall bef i j,
  search_from r bef rest = Some (i, j) ->
  exists pre w post,
    rest = pre ++ w ++ post /\ i = (length bef + length pre)%nat /\
    j = (i + length w)%nat /\
    matches r (rev pre ++ bef, w ++ post) (rev w ++ rev pre ++ bef, post) /\
    (forall pre1 c pre2 st', pre = pre1 ++ c :: pre2 ->
       ~ matches r (rev pre1 ++ bef, c :: pre2 ++ w ++ post) st').
Proof.
  induction rest as [|c tl IH]; intros bef i j H; simpl in H.
  - destruct (rmatch r (bef, []) Some) eqn:Hm; [|discriminate].
    injection H as <- <-. apply rmatch_sound in Hm as (st' & Hm & [= <-]).
    destruct (matches_extends _ _ _ Hm) as (w & E & F). simpl in E, F.
    symmetry in E. apply app_eq_nil in E as [-> E]. simpl in *.
    exists [], [], []. simpl. destruct st' as [b' r']; simpl in *. subst.
    repeat split; try (unfold mpos; simpl; lia); [exact Hm|].
    intros pre1 c pre2 st' Hc. destruct pre1; discriminate.
  - destruct (rmatch r (bef, c :: tl) Some) eqn:Hm.
    + injection H as <- <-. apply rmatch_sound in Hm as (st' & Hm & [= <-]).
      destruct (matches_extends _ _ _ Hm) as (w & E & F). simpl in E, F.
      destruct st' as [b' r']; simpl in *. subst b'.
      exists [], w, r'. simpl. rewrite <- E.
      repeat split; try (unfold mpos; simpl; rewrite ?length_app, ?length_rev; lia);
        [exact Hm|].
      intros pre1 c' pre2 st' Hc. destruct pre1; discriminate.
    + apply IH in H as (pre & w & post & E & Hi & Hj & Hm' & Hmin).
      exists (c :: pre), w, post. simpl. rewrite <- !app_assoc. simpl.
      repeat split; [by rewrite E|simpl in Hi; lia|exact Hj|exact Hm'|].
      intros pre1 c' pre2 st' Hc Hbad. destruct pre1 as [|c1 pre1]; simpl in *.
      * injection Hc as <- <-. rewrite <- E in Hbad.
        eapply rmatch_complete with (k := Some) in Hbad; [|eauto].
        rewrite Hm in Hbad. destruct Hbad; discriminate.
      * injection Hc as <- ->. eapply (Hmin pre1 c' pre2 st'); [reflexivity|].
        rewrite <- ?app_assoc in Hbad. simpl in Hbad.
        rewrite <- ?app_assoc. exact Hbad.
Qed.

Lemma search_from_none r rest : forall bef,
  search_from r bef rest = None ->
  forall pre post st', rest = pre ++ post -> ~ matches r (rev pre ++ bef, post) st'.
Proof.
  induction rest as [|c tl IH]; intros bef H pre post st' E Hm; simpl in H.
  - symmetry in E. apply app_eq_nil in E as [-> ->]. simpl in Hm.
    eapply rmatch_complete with (k := Some) in Hm; [|eauto].
    destruct (rmatch r (bef, []) Some); [discriminate|]. destruct Hm; discriminate.
  - destruct (rmatch r (bef, c :: tl) Some) eqn:Hr; [discriminate|].
    destruct pre as [|c' pre]; simpl in *.
    + subst post. eapply rmatch_complete with (k := Some) in Hm; [|eauto].
      rewrite Hr in Hm. destruct Hm; discriminate.
    + injection E as <- ->. eapply (IH (c :: bef) H pre post st'); [reflexivity|].
      rewrite <- app_assoc in Hm. exact Hm.
Qed.

(** *** Consequences for searches *)

Lemma re_search_spec r s i j :
  re_search r s = Some (i, j) ->
  exists pre w post,
    s = pre ++ w ++ post /\ i = length pre /\ j = (i + length w)%nat /\
    matches r (rev pre, w ++ post) (rev w ++ rev pre, post) /\
    (forall pre1 c pre2 st', pre = pre1 ++ c :: pre2 ->
       ~ matches r (rev pre1, c :: pre2 ++ w ++ post) st').
Proof.
  intros H. apply search_from_spec in H as (pre & w & post & E & Hi & Hj & Hm & Hmin).
  exists pre, w, post. rewrite !app_nil_r in *. simpl in Hi.
  repeat split; try assumption.
  intros pre1 c pre2 st' Hp Hbad. apply (Hmin pre1 c pre2 st' Hp).
  rewrite app_nil_r. exact Hbad.
Qed.

Lemma re_search_found r pre post st' :
  matches r (rev pre, post) st' -> is_Some (re_search r (pre ++ post)).
Proof.
  intros Hm. destruct (re_search r (pre ++ post)) eqn:H; [eauto|].
  exfalso. eapply (search_from_none r _ [] H pre post st'); [reflexivity|].
  rewrite app_nil_r. exact Hm.
Qed.

Lemma group0_spec (pre w post : text) :
  group0 (pre ++ w ++ post) (length pre, (length pre + length w)%nat) = w.
Proof.
  unfold group0. simpl.
  replace (length pre + length w - length pre)%nat with (length w) by lia.
  rewrite drop_app_length, take_app_length. reflexivity.
Qed.

(** The matched text of a search stands in the searched text and is a
    match of the pattern in place. *)
Lemma re_search_group r s m :
  re_search r s = Some m ->
  exists pre post,
    s = pre ++ group0 s m ++ post /\ fst m = length pre /\
    snd m = (length pre + length (group0 s m))%nat /\
    matches r (rev pre, group0 s m ++ post) (rev (group0 s m) ++ rev pre, post).
Proof.
  destruct m as [i j]. intros H.
  apply re_search_spec in H as (pre & w & post & -> & -> & -> & Hm & _).
  rewrite group0_spec. exists pre, post. repeat split. exact Hm.
Qed.

(** *** Patterns without anchors or lookahead match the same text anywhere *)




(** *** Lazy skipping *)

Lemma lazy_any_skip pre : forall bef rest,
  matches (StarLazy any_char) (bef, pre ++ rest) (rev pre ++ bef, rest).
Proof.
  induction pre as [|c pre IH]; intros bef rest; simpl.
  - constructor.
  - rewrite <- app_assoc. simpl. apply M_LazyS; [reflexivity|apply IH].
Qed.




(** A match of [r] somewhere makes the search for [.*?r] succeed. *)
Lemma lazy_search_found r pre post st' :
  matches r (rev pre, post) st' ->
  is_Some (re_search (Seq (StarLazy any_char) r) (pre ++ post)).
Proof.
  intros Hm. apply (re_search_found _ [] (pre ++ post) st'). simpl.
  econstructor; [|exact Hm].
  pose proof (lazy_any_skip pre [] post) as Hs. rewrite app_nil_r in Hs. exact Hs.
Qed.

(** *** Literals and first characters *)

Lemma matches_lit_of f t : forall st st',
  matches (lit_of f t) st st' ->
  exists w, length w = length t /\ snd st = w ++ snd st' /\ fst st' = rev w ++ fst st
            /\ Forall2 (fun c x => f c x = true) t w.
Proof.
  induction t as [|c t IH]; intros st st' H.
  - simpl in H. inversion H; subst. exists []. repeat split; constructor.
  - destruct t as [|c2 t].
    + simpl in H. inversion H; subst. exists [c0]. simpl. repeat split.
      constructor; [assumption|constructor].
    + change (lit_of f (c :: c2 :: t)) with (Seq (Cls (f c)) (lit_of f (c2 :: t))) in H.
      inversion H as [| |r1 r2 s0 s1 s2 H1 H2| | | | | | | | | |]; subst.
      inversion H1; subst. apply IH in H2 as (w & Hl & E & F & Hall).
      simpl in E, F. exists (c0 :: w). simpl. rewrite Hl, E, F, <- app_assoc.
      repeat split. constructor; assumption.
Qed.

Lemma Forall2_chr t w : Forall2 (fun c x => chr c x = true) t w -> w = t.
Proof.
  induction 1 as [|c x t w H _ IH]; [reflexivity|].
  apply chr_eqb_eq in H. congruence.
Qed.

(** A literal pattern matches exactly its text. *)
Lemma matches_lit_t t st st' :
  matches (lit_t t) st st' -> snd st = t ++ snd st' /\ fst st' = rev t ++ fst st.
Proof.
  intros H. apply matches_lit_of in H as (w & _ & E & F & Hall).
  apply Forall2_chr in Hall. subst w. split; assumption.
Qed.

Lemma lit_t_matches t : forall bef rest,
  matches (lit_t t) (bef, t ++ rest) (rev t ++ bef, rest).
Proof.
  induction t as [|c t IH]; intros bef rest.
  - constructor.
  - destruct t as [|c2 t].
    + simpl. constructor. apply chr_eqb_refl.
    + change (lit_t (c :: c2 :: t)) with (Seq (Cls (chr c)) (lit_t (c2 :: t))).
      econstructor; [constructor; apply chr_eqb_refl|].
      specialize (IH (c :: bef) rest). simpl in *. rewrite <- !app_assoc in *.
      simpl in *. exact IH.
Qed.

Lemma zero_width_spec r st st' :
  zero_width r = true -> matches r st st' -> st' = st.
Proof. intros Hz Hm. destruct r; try discriminate; inversion Hm; reflexivity. Qed.

Lemma first_class_spec r : forall p st st',
  first_class r = Some p -> matches r st st' ->
  exists c tl, snd st = c :: tl /\ p c = true.
Proof.
  induction r as [|q|r1 IH1 r2 IH2|r1 IH1 r2 IH2|q|q|r IH|ml|ml|];
    intros p st st' Hf Hm; simpl in Hf; try discriminate.
  - injection Hf as <-. inversion Hm; subst. simpl. eauto.
  - inversion Hm as [| |? ? ? st1 ? Hm1 Hm2| | | | | | | | | |]; subst.
    destruct (first_class r1) as [p1|] eqn:F1.
    + injection Hf as <-. eapply IH1; [reflexivity|eassumption].
    + destruct (zero_width r1) eqn:Hz; [|discriminate].
      rewrite (zero_width_spec _ _ _ Hz Hm1) in Hm2. eapply IH2; eassumption.
  - destruct (first_class r1) as [p1|] eqn:F1; [|discriminate].
    destruct (first_class r2) as [p2|] eqn:F2; [|discriminate].
    injection Hf as <-. inversion Hm; subst.
    + destruct (IH1 p1 st st' eq_refl) as (c & tl & E & Hc); [assumption|].
      exists c, tl. rewrite Hc. auto.
    + destruct (IH2 p2 st st' eq_refl) as (c & tl & E & Hc); [assumption|].
      exists c, tl. rewrite Hc, orb_true_r. auto.
Qed.

(** Such a pattern never matches the empty text. *)
Lemma first_class_consumes r st st' :
  matches r st st' -> forall p, first_class r = Some p ->
  (length (snd st') < length (snd st))%nat.
Proof.
  induction 1 as
    [st|p c bef tl Hp|r1 r2 st st1 st2 H1 IH1 H2 IH2|r1 r2 st st' _ IH|r1 r2 st st' _ IH
    |p st|p c bef tl st' Hp H IH|p st|p c bef tl st' Hp H IH|r st st' _ IH
    |ml st Hb|ml st Hb|st Hb]; intros q Hq; simpl in Hq; try discriminate.
  - simpl. lia.
  - destruct (first_class r1) as [p1|] eqn:F1.
    + specialize (IH1 p1 eq_refl).
      destruct (matches_extends _ _ _ H2) as (w2 & E2 & _). rewrite E2 in IH1.
      rewrite length_app in IH1. lia.
    + destruct (zero_width r1) eqn:Hz; [|discriminate].
      rewrite <- (zero_width_spec _ _ _ Hz H1). apply (IH2 q Hq).
  - destruct (first_class r1) eqn:F1; [|discriminate]. eapply IH. reflexivity.
  - destruct (first_class r1) eqn:F1; [|discriminate].
    destruct (first_class r2) eqn:F2; [|discriminate]. eapply IH. reflexivity.
Qed.

Lemma first_class_nonempty r p i j s :
  first_class r = Some p -> re_search r s = Some (i, j) -> (i < j)%nat.
Proof.
  intros Hf H. apply re_search_spec in H as (pre & w & post & -> & -> & -> & Hm & _).
  pose proof (first_class_consumes _ _ _ Hm p Hf) as Hlen. simpl in Hlen.
  rewrite length_app in Hlen. lia.
Qed.

(** ** The enhancement-fee replacement runs once *)

Section FeeIdempotence.
Import DynamicPricing.

Lemma new_text_signed p :
  already_updated (new_enhancement_fee_text ++ p) = true.
Proof.
  unfold already_updated. apply andb_true_iff. split.
  - apply (contains_app _ [] new_enhancement_fee_text p). vm_compute. reflexivity.
  - apply (contains_app _ [] new_enhancement_fee_text p). vm_compute. reflexivity.
Qed.

Lemma already_updated_app a t b :
  already_updated t = true -> already_updated (a ++ t ++ b) = true.
Proof.
  unfold already_updated. rewrite !andb_true_iff. intros [H1 H2].
  split; apply contains_app; assumption.
Qed.

Lemma generic_plan_splice content fee_pos search_start :
  exists s e p, generic_plan content fee_pos search_start = Splice s e p.
Proof.
  unfold generic_plan. destruct (generic_end _ _) as [e p]. eauto.
Qed.

Lemma legacy_plan_not_updated content fee_pos :
  legacy_plan content fee_pos <> AlreadyUpdated.
Proof.
  unfold legacy_plan. destruct (negb _); [discriminate|].
  destruct (legacy_end _ _) as [[e p]|]; discriminate.
Qed.

Lemma fee_plan_updated content :
  fee_plan_of content = AlreadyUpdated <-> already_updated content = true.
Proof.
  unfold fee_plan_of. destruct (already_updated content); [tauto|].
  split; [|discriminate]. destruct (_ =? -1); [discriminate|].
  destruct (is_generic _ _).
  - destruct (generic_plan_splice content (fee_anchor content)
                (Z.max 0 (fee_anchor content - 50))) as (s & e & p & ->).
    discriminate.
  - intros H. apply legacy_plan_not_updated in H. destruct H.
Qed.

(** The three outcomes of a run, by the text left in the file. *)
Lemma replace_cases content :
  replace_enhancement_fee_text content = (false, content)
  \/ (already_updated content = true
      /\ replace_enhancement_fee_text content = (true, content))
  \/ (already_updated content = false
      /\ exists a p b,
           replace_enhancement_fee_text content
           = (true, a ++ (new_enhancement_fee_text ++ p) ++ b)).
Proof.
  unfold replace_enhancement_fee_text.
  destruct (fee_plan_of content) as [| |s e p] eqn:Hp.
  - right. left. split; [apply fee_plan_updated; exact Hp|reflexivity].
  - left. reflexivity.
  - right. right. split; [|eauto].
    destruct (already_updated content) eqn:Hu; [|reflexivity].
    apply fee_plan_updated in Hu. congruence.
Qed.

End FeeIdempotence.

(** C1. The fee-disclaimer splice is idempotent: for every document text,
    a second run leaves the text the first run produced; after a successful
    run the second run reports success through the already-updated check,
    and a document that holds both signature substrings of the new text is
    reported as a success and left unchanged. *)
Theorem replace_enhancement_fee_text_idempotent (content : text) :
  let once := DynamicPricing.replace_enhancement_fee_text content in
  snd (DynamicPricing.replace_enhancement_fee_text (snd once)) = snd once
  /\ (fst once = true ->
      DynamicPricing.replace_enhancement_fee_text (snd once) = (true, snd once))
  /\ (contains DynamicPricing.signature_first content = true ->
      contains DynamicPricing.signature_all content = true ->
      once = (true, content)).
Proof.
  intros once. subst once.
  assert (Hup : forall c, DynamicPricing.already_updated c = true ->
                  DynamicPricing.replace_enhancement_fee_text c = (true, c)).
  { intros c Hc. unfold DynamicPricing.replace_enhancement_fee_text.
    apply fee_plan_updated in Hc. rewrite Hc. reflexivity. }
  destruct (replace_cases content) as [H|[[Hu H]|(Hu & a & p & b & H)]].
  - rewrite H. cbn [fst snd]. rewrite H. cbn [fst snd]. repeat split; try discriminate.
    intros H1 H2. rewrite Hup in H; [discriminate H|].
    unfold DynamicPricing.already_updated. rewrite H1, H2. reflexivity.
  - rewrite H. cbn [fst snd]. rewrite H. repeat split.
  - rewrite H. cbn [fst snd].
    assert (Hs : DynamicPricing.already_updated
                   (a ++ (DynamicPricing.new_enhancement_fee_text ++ p) ++ b) = true).
    { apply already_updated_app. apply new_text_signed. }
    rewrite (Hup _ Hs). cbn [fst snd]. repeat split.
    intros H1 H2. unfold DynamicPricing.already_updated in Hu.
    rewrite H1, H2 in Hu. discriminate.
Qed.

Lemma replace_enhancement_fee_text_idempotent_witness :
  fst (DynamicPricing.replace_enhancement_fee_text legacy_doc) = true
  /\ DynamicPricing.replace_enhancement_fee_text
       (snd (DynamicPricing.replace_enhancement_fee_text legacy_doc))
     = (true, snd (DynamicPricing.replace_enhancement_fee_text legacy_doc)).
Proof.
  split; [vm_compute; reflexivity|].
  apply (replace_enhancement_fee_text_idempotent legacy_doc).
  vm_compute. reflexivity.
Defined.

(** ** The trailer after the fee text is kept *)

Lemma find_from_spec sub : forall s i k,
  find_from sub s i = Some k ->
  exists a b, s = a ++ sub ++ b /\ k = (i + length a)%nat.
Proof.
  induction s as [|c s IH]; intros i k H; simpl in H.
  - destruct (starts_with sub []) eqn:Hs; [|discriminate]. injection H as <-.
    apply starts_with_spec in Hs as [r Hr]. exists [], r. simpl. split; [exact Hr|lia].
  - destruct (starts_with sub (c :: s)) eqn:Hs.
    + injection H as <-. apply starts_with_spec in Hs as [r Hr].
      exists [], r. simpl. split; [exact Hr|lia].
    + apply IH in H as (a & b & -> & ->). exists (c :: a), b. simpl. split; [reflexivity|lia].
Qed.

Lemma find_from_found sub : forall s i,
  contains sub s = true -> is_Some (find_from sub s i).
Proof.
  induction s as [|c s IH]; intros i H; simpl in *.
  - rewrite orb_false_r in H. rewrite H. eauto.
  - destruct (starts_with sub (c :: s)); [eauto|]. simpl in H. apply IH. exact H.
Qed.


Lemma matches_seq_inv r1 r2 st st2 :
  matches (Seq r1 r2) st st2 -> exists st1, matches r1 st st1 /\ matches r2 st1 st2.
Proof. inversion 1; subst; eauto. Qed.

Lemma matches_alt_inv r1 r2 st st' :
  matches (Alt r1 r2) st st' -> matches r1 st st' \/ matches r2 st st'.
Proof. inversion 1; subst; eauto. Qed.

Section Trailer.
Import DynamicPricing.







End Trailer.

Section TrailerKept.
Import DynamicPricing.


End TrailerKept.

Section TrailerAbsent.
Import DynamicPricing.


Lemma re_search_bounds r s m :
  re_search r s = Some m -> (fst m <= snd m <= length s)%nat.
Proof.
  destruct m as [i j]. intros H.
  apply re_search_spec in H as (pre & w & post & -> & -> & -> & _). simpl.
  rewrite !length_app. lia.
Qed.






End TrailerAbsent.




(** ** Replacing the pricing section *)

Lemma first_occurrence sub : forall s,
  contains sub s = true -> exists a b, s = a ++ sub ++ b /\ first_at sub a b.
Proof.
  induction s as [|c s IH]; simpl; intros H.
  - rewrite orb_false_r in H. apply starts_with_spec in H as [r Hr].
    exists [], r. split; [exact Hr|]. intros [|? ?] ? ? E; discriminate.
  - destruct (starts_with sub (c :: s)) eqn:Hs.
    + apply starts_with_spec in Hs as [r Hr]. exists [], r. split; [exact Hr|].
      intros [|? ?] ? ? E; discriminate.
    + simpl in H. destruct (IH H) as (a & b & -> & Hf).
      exists (c :: a), b. split; [reflexivity|].
      intros [|x a1] c' a2 E; simpl in E; injection E as <- ->.
      * exact Hs.
      * eapply Hf. reflexivity.
Qed.

Lemma replace_go_skip old new : forall k s,
  (k <= length s)%nat -> replace_go old new k s = replace_go old new 0 (drop k s).
Proof.
  induction k as [|k IH]; intros s Hk.
  - rewrite drop_0. reflexivity.
  - destruct s as [|c s]; simpl in *; [lia|]. apply IH. lia.
Qed.

(** [str.replace] at the first occurrence: the text before it is kept, the
    occurrence is replaced, and the replacement goes on after it. *)
Lemma str_replace_first old new a b :
  old <> [] -> first_at old a b ->
  str_replace old new (a ++ old ++ b) = a ++ new ++ str_replace old new b.
Proof.
  intros Hne. destruct old as [|o old']; [congruence|]. clear Hne.
  set (old := o :: old'). unfold str_replace. fold old.
  induction a as [|c a IH]; intros Hf.
  - simpl. rewrite chr_eqb_refl. simpl.
    pose proof (starts_with_app old' b) as ->. f_equal.
    rewrite Nat.sub_0_r, replace_go_skip by (rewrite length_app; lia).
    rewrite drop_app_length. reflexivity.
  - change ((c :: a) ++ old ++ b) with (c :: (a ++ old ++ b)).
    cbn [replace_go]. rewrite (Hf [] c a eq_refl). simpl. f_equal.
    apply IH. intros a1 c' a2 E. apply (Hf (c :: a1) c' a2). simpl. rewrite E. reflexivity.
Qed.

Lemma replace_go_absent old new : forall s,
  contains old s = false -> replace_go old new 0 s = s.
Proof.
  induction s as [|c s IH]; simpl; intros H; [reflexivity|].
  apply orb_false_iff in H as [H1 H2]. rewrite H1. f_equal. apply IH. exact H2.
Qed.

Lemma str_replace_absent old new s :
  old <> [] -> contains old s = false -> str_replace old new s = s.
Proof.
  intros Hne H. destruct old; [congruence|]. apply replace_go_absent. exact H.
Qed.

(** C4, as stated, fails: the matched span occurs twice in [pricing_twice];
    the splice replaces both occurrences, where a replacement of the first
    occurrence only would leave the second one in place. *)
Lemma pricing_splice_replaces_later_occurrence :
  re_search DynamicPricing.pricing_block_re pricing_twice = Some (O, 43%nat)
  /\ DynamicPricing.replace_pricing_section_in_md pricing_twice (txt "NEW")
     = (true, txt "NEW" ++ [nl; nl] ++ txt "NEW")
  /\ replace_first (group0 pricing_twice (O, 43%nat)) (txt "NEW") pricing_twice
     = txt "NEW" ++ [nl; nl] ++ txt "Member Type: A | SILVER SNEAKERS: available"
  /\ snd (DynamicPricing.replace_pricing_section_in_md pricing_twice (txt "NEW"))
     <> replace_first (group0 pricing_twice (O, 43%nat)) (txt "NEW") pricing_twice.
Proof.
  repeat split; try (vm_compute; reflexivity). vm_compute. discriminate.
Qed.

(** C4, amended. For every document in which the pricing-block pattern
    matches, the splice replaces every non-overlapping occurrence of the
    matched span, left to right: the text before the first occurrence is
    kept, that occurrence becomes the new content, and the text after it is
    treated in the same way; when the span does not occur again there,
    exactly the first occurrence is replaced. *)
Theorem replace_pricing_section_all_occurrences (content new_content : text) (m : nat * nat) :
  re_search DynamicPricing.pricing_block_re content = Some m ->
  let span := group0 content m in
  exists a b,
    content = a ++ span ++ b /\ first_at span a b /\ span <> []
    /\ DynamicPricing.replace_pricing_section_in_md content new_content
       = (true, a ++ new_content ++ str_replace span new_content b)
    /\ (contains span b = false ->
        DynamicPricing.replace_pricing_section_in_md content new_content
        = (true, a ++ new_content ++ b)).
Proof.
  intros Hm span. unfold DynamicPricing.replace_pricing_section_in_md. rewrite Hm.
  fold span.
  destruct (re_search_group _ _ _ Hm) as (pre & post & Ec & _ & _ & Hma). fold span in Ec, Hma.
  assert (Hne : span <> []).
  { intros E. pose proof (first_class_consumes _ _ _ Hma _ eq_refl) as Hl.
    rewrite E in Hl. simpl in Hl. lia. }
  destruct (first_occurrence span content) as (a & b & Ea & Hf).
  { apply contains_spec. eauto. }
  exists a, b. repeat split; try assumption.
  - rewrite Ea at 1. rewrite str_replace_first by assumption. reflexivity.
  - intros Hb. rewrite Ea at 1. rewrite str_replace_first by assumption.
    rewrite (str_replace_absent span new_content b Hne Hb). reflexivity.
Qed.

Lemma replace_pricing_section_all_occurrences_witness :
  exists a b,
    pricing_twice = a ++ group0 pricing_twice (O, 43%nat) ++ b
    /\ first_at (group0 pricing_twice (O, 43%nat)) a b
    /\ group0 pricing_twice (O, 43%nat) <> []
    /\ DynamicPricing.replace_pricing_section_in_md pricing_twice (txt "NEW")
       = (true, a ++ txt "NEW" ++ str_replace (group0 pricing_twice (O, 43%nat)) (txt "NEW") b)
    /\ (contains (group0 pricing_twice (O, 43%nat)) b = false ->
        DynamicPricing.replace_pricing_section_in_md pricing_twice (txt "NEW")
        = (true, a ++ txt "NEW" ++ b)).
Proof.
  apply (replace_pricing_section_all_occurrences pricing_twice (txt "NEW") (O, 43%nat)).
  vm_compute. reflexivity.
Defined.

(** ** The pricing block of a club text file *)

Lemma matches_look_inv r st st' :
  matches (Look r) st st' -> st = st' /\ exists s, matches r st s.
Proof. inversion 1; subst; eauto. Qed.

Lemma matches_cls_inv p st st' :
  matches (Cls p) st st' ->
  exists c tl, snd st = c :: tl /\ p c = true /\ st' = (c :: fst st, tl).
Proof. inversion 1; subst; simpl; eauto. Qed.

Lemma matches_eol_inv ml st st' :
  matches (Eol ml) st st' -> st = st' /\ at_eol ml st = true.
Proof. inversion 1; subst; eauto. Qed.

Lemma matches_endz_inv st st' :
  matches EndZ st st' -> st = st' /\ at_end st = true.
Proof. inversion 1; subst; eauto. Qed.

Lemma matches_star_inv p st st' :
  matches (Star p) st st' ->
  exists w, snd st = w ++ snd st' /\ Forall (fun c => p c = true) w.
Proof.
  intros H. remember (Star p) as r eqn:Hr. revert Hr.
  induction H; intros Hr; try discriminate.
  - exists []. split; [reflexivity|constructor].
  - injection Hr as ->. destruct (IHmatches eq_refl) as (w & E & Hw). simpl in *.
    exists (c :: w). split; [rewrite E; reflexivity|constructor; assumption].
Qed.

Lemma lstrip_spaces ws y :
  Forall (fun c => is_space c = true) ws -> lstrip (ws ++ y) = lstrip y.
Proof.
  induction 1 as [|c ws Hc _ IH]; simpl; [reflexivity|]. rewrite Hc. exact IH.
Qed.

Lemma rstrip_spaces x ws :
  Forall (fun c => is_space c = true) ws -> rstrip (x ++ ws) = rstrip x.
Proof.
  intros H. unfold rstrip. rewrite rev_app_distr, lstrip_spaces; [reflexivity|].
  apply Forall_rev. exact H.
Qed.

Lemma lstrip_app x ws :
  lstrip (x ++ ws) = lstrip x ++ ws \/ (lstrip x = [] /\ lstrip (x ++ ws) = lstrip ws).
Proof.
  induction x as [|c x IH]; simpl.
  - right. split; reflexivity.
  - destruct (is_space c); [exact IH|]. left. reflexivity.
Qed.

Lemma lstrip_all_spaces ws :
  Forall (fun c => is_space c = true) ws -> lstrip ws = [].
Proof. intros H. rewrite <- (app_nil_r ws), lstrip_spaces by assumption. reflexivity. Qed.

(** Whitespace at the end of a text does not change what [strip] gives. *)
Lemma strip_spaces x ws :
  Forall (fun c => is_space c = true) ws -> strip (x ++ ws) = strip x.
Proof.
  intros H. unfold strip. destruct (lstrip_app x ws) as [->|[E ->]].
  - apply rstrip_spaces. exact H.
  - rewrite E, lstrip_all_spaces by assumption. reflexivity.
Qed.

Section MemberBlock.
Import DynamicPricing.

(** The pattern matches wherever "Member Type:" stands, up to the end of
    the text at the latest. *)
Lemma member_block_at bef b :
  matches member_block_re (bef, member_type ++ b)
    (rev b ++ rev member_type ++ bef, []).
Proof.
  unfold member_block_re. cbn [seqs].
  econstructor; [apply (lit_t_matches member_type)|].
  econstructor.
  - pose proof (lazy_any_skip b (rev member_type ++ bef) []) as H.
    rewrite app_nil_r in H. exact H.
  - eapply M_Look. apply M_AltR. constructor. reflexivity.
Qed.

(** Where the pattern matches, "Member Type:" stands, and only
    whitespace follows the match. *)
Lemma member_block_inv bef w post :
  matches member_block_re (bef, w ++ post) (rev w ++ bef, post) ->
  (exists rest, w ++ post = member_type ++ rest)
  /\ Forall (fun c => is_space c = true) post.
Proof.
  unfold member_block_re. cbn [seqs]. intros H.
  apply matches_seq_inv in H as (st1 & H1 & H).
  apply matches_seq_inv in H as (st2 & H2 & H3).
  apply matches_lit_t in H1 as [E1 _].
  split; [exists (snd st1); exact E1|]. clear E1.
  apply matches_look_inv in H3 as [-> [s HL]].
  apply matches_alt_inv in HL as [HL|HL].
  - cbn [seqs] in HL. apply matches_seq_inv in HL as (s1 & Ha & HL).
    apply matches_seq_inv in HL as (s2 & Hb & Hc).
    apply matches_cls_inv in Ha as (c & tl & Ep & Hnl & ->). simpl in Ep. subst post.
    apply chr_eqb_eq in Hnl. subst c.
    apply matches_star_inv in Hb as (ws & Ews & Hws). simpl in Ews.
    apply matches_eol_inv in Hc as [_ Heol].
    constructor; [reflexivity|]. rewrite Ews. apply Forall_app. split; [exact Hws|].
    unfold at_eol in Heol. destruct (snd s2) as [|c [|? ?]]; simpl in Heol.
    + constructor.
    + rewrite andb_true_r in Heol. apply chr_eqb_eq in Heol. subst.
      constructor; [reflexivity|constructor].
    + rewrite andb_false_r in Heol. discriminate.
  - apply matches_endz_inv in HL as [_ Hend].
    unfold at_end in Hend. simpl in Hend. destruct post; [constructor|discriminate].
Qed.

End MemberBlock.

(** C8, as stated, fails: in [club_text_sample] a blank line follows the
    pricing lines, and the extractor returns the text beyond it, up to the
    end of the file. *)
Lemma read_pricing_content_runs_past_blank_line :
  DynamicPricing.read_pricing_content_from_txt club_text_sample
  = Some (txt "Member Type: One Club: M1" ++ [nl; nl] ++ txt "Network Name: NetA")
  /\ member_block_to_blank_line club_text_sample
     = Some (txt "Member Type: One Club: M1")
  /\ DynamicPricing.read_pricing_content_from_txt club_text_sample
     <> member_block_to_blank_line club_text_sample.
Proof.
  repeat split; try (vm_compute; reflexivity). vm_compute. discriminate.
Qed.

(** C8, amended. Applied to any text containing the literal "Member
    Type:", the extractor returns the text from the first "Member Type:"
    occurrence to the end of the text, stripped of the whitespace at its
    end; a blank line does not end the block. *)
Theorem read_pricing_content_from_txt_block (content : text) :
  contains member_type content = true ->
  exists a b,
    content = a ++ member_type ++ b /\ first_at member_type a b
    /\ DynamicPricing.read_pricing_content_from_txt content
       = Some (strip (member_type ++ b)).
Proof.
  intros Hc. destruct (first_occurrence _ _ Hc) as (a & b & Ec & Hf).
  exists a, b. split; [exact Ec|]. split; [exact Hf|].
  unfold DynamicPricing.read_pricing_content_from_txt.
  pose proof (member_block_at (rev a) b) as Hat.
  destruct (re_search DynamicPricing.member_block_re content) as [[i j]|] eqn:Hs.
  2:{ apply re_search_found in Hat. rewrite <- Ec, Hs in Hat. destruct Hat; discriminate. }
  destruct (re_search_spec _ _ _ _ Hs) as (pre & w & post & Ew & -> & -> & Hm & Hmin).
  rewrite Ew at 1. rewrite group0_spec.
  destruct (member_block_inv _ _ _ Hm) as [[rest Er] Hsp].
  assert (Hpre : pre = a).
  { assert (Eall : pre ++ member_type ++ rest = a ++ member_type ++ b).
    { rewrite <- Er, <- Ew. exact Ec. }
    destruct (Nat.lt_trichotomy (length pre) (length a)) as [Hlt|[Heq|Hgt]].
    - exfalso.
      assert (exists c a2, a = pre ++ c :: a2) as (c & a2 & Ea).
      { rewrite <- (take_drop (length pre) a).
        assert (take (length pre) a = pre) as ->.
        { apply (f_equal (take (length pre))) in Eall.
          rewrite take_app_length, take_app_le in Eall by lia. symmetry. exact Eall. }
        destruct (drop (length pre) a) as [|c a2] eqn:Hd; [|eauto].
        apply (f_equal (@length ascii)) in Hd. rewrite length_drop in Hd. simpl in Hd. lia. }
      pose proof (Hf pre c a2 Ea) as Hno.
      rewrite Ea, <- app_assoc in Eall. apply app_inv_head in Eall.
      assert (Hyes : starts_with member_type (c :: a2 ++ member_type ++ b) = true).
      { apply starts_with_spec. exists rest. symmetry. exact Eall. }
      rewrite Hyes in Hno. discriminate.
    - rewrite <- (take_app_length pre (member_type ++ rest)), Eall, Heq.
      apply take_app_length.
    - exfalso.
      assert (exists c p2, pre = a ++ c :: p2) as (c & p2 & Ep).
      { rewrite <- (take_drop (length a) pre).
        assert (take (length a) pre = a) as ->.
        { apply (f_equal (take (length a))) in Eall.
          rewrite take_app_length, take_app_le in Eall by lia. exact Eall. }
        destruct (drop (length a) pre) as [|c p2] eqn:Hd; [|eauto].
        apply (f_equal (@length ascii)) in Hd. rewrite length_drop in Hd. simpl in Hd. lia. }
      eapply (Hmin a c p2); [exact Ep|].
      assert (E2 : c :: p2 ++ w ++ post = member_type ++ b).
      { rewrite Ep, <- app_assoc in Ew. rewrite Ec in Ew. apply app_inv_head in Ew.
        symmetry. exact Ew. }
      rewrite E2. exact Hat. }
  subst pre. rewrite Ec in Ew. apply app_inv_head in Ew.
  rewrite Ew. rewrite strip_spaces by exact Hsp. reflexivity.
Qed.

Lemma read_pricing_content_from_txt_block_witness :
  exists a b,
    club_text_sample = a ++ member_type ++ b /\ first_at member_type a b
    /\ DynamicPricing.read_pricing_content_from_txt club_text_sample
       = Some (strip (member_type ++ b)).
Proof.
  apply (read_pricing_content_from_txt_block club_text_sample).
  vm_compute. reflexivity.
Defined.

(** ** Normalising a club name *)

(** The patterns the program substitutes never match the empty text, so
    a substitution never meets an empty match. *)
Lemma substituted_patterns_consume :
  Forall (fun r => is_Some (first_class r))
    [DynamicPricing.prefix_re; DynamicPricing.state_zip_re "california";
     DynamicPricing.state_zip_re "ca"; DynamicPricing.spaces_re;
     DynamicPricing.txt_prefix_re; DynamicPricing.md_prefix_re;
     DynamicPricing.md_suffix_re; DynamicPricing.md_state_zip_re "california";
     DynamicPricing.md_state_zip_re "ca"].
Proof. repeat constructor; eexists; reflexivity. Qed.

Lemma re_sub_none r repl s : re_search r s = None -> re_sub r repl s = s.
Proof. unfold re_sub, re_search. simpl. intros ->. reflexivity. Qed.

(** [re.sub] only writes characters of the text and of the replacement. *)
Lemma sub_from_Forall (P : ascii -> Prop) r repl : forall fuel bef rest,
  Forall P repl -> Forall P rest -> Forall P (sub_from fuel r repl bef rest).
Proof.
  induction fuel as [|fuel IH]; intros bef rest Hr Hs; simpl; [exact Hs|].
  destruct (search_from r bef rest) as [[s e]|]; [|exact Hs].
  destruct (e - s)%nat; [exact Hs|].
  apply Forall_app. split; [apply Forall_take; exact Hs|].
  apply Forall_app. split; [exact Hr|].
  apply IH; [exact Hr|]. apply Forall_drop. exact Hs.
Qed.

Lemma re_sub_Forall (P : ascii -> Prop) r repl s :
  Forall P repl -> Forall P s -> Forall P (re_sub r repl s).
Proof. apply sub_from_Forall. Qed.

Lemma lstrip_suffix s : exists ws, s = ws ++ lstrip s /\ Forall (fun c => is_space c = true) ws.
Proof.
  induction s as [|c s (ws & E & H)]; simpl.
  - exists []. split; [reflexivity|constructor].
  - destruct (is_space c) eqn:Hc.
    + exists (c :: ws). split; [simpl; rewrite <- E; reflexivity|constructor; assumption].
    + exists []. split; [reflexivity|constructor].
Qed.

Lemma rstrip_prefix s : exists ws, s = rstrip s ++ ws /\ Forall (fun c => is_space c = true) ws.
Proof.
  unfold rstrip. destruct (lstrip_suffix (rev s)) as (ws & E & H).
  exists (rev ws). split; [|apply Forall_rev; exact H].
  rewrite <- rev_app_distr, <- E, rev_involutive. reflexivity.
Qed.

Lemma lstrip_Forall (P : ascii -> Prop) s : Forall P s -> Forall P (lstrip s).
Proof.
  intros H. destruct (lstrip_suffix s) as (ws & E & _). rewrite E in H.
  apply Forall_app in H. tauto.
Qed.

Lemma rstrip_Forall (P : ascii -> Prop) s : Forall P s -> Forall P (rstrip s).
Proof.
  intros H. destruct (rstrip_prefix s) as (ws & E & _). rewrite E in H.
  apply Forall_app in H. tauto.
Qed.

Lemma strip_Forall (P : ascii -> Prop) s : Forall P s -> Forall P (strip s).
Proof. intros H. apply rstrip_Forall, lstrip_Forall, H. Qed.

(** Replacing one character by another is a map over the text. *)
Lemma replace_char_map a b s :
  str_replace [a] [b] s = map (fun c => if chr_eqb a c then b else c) s.
Proof.
  unfold str_replace. induction s as [|c s IH]; simpl; [reflexivity|].
  rewrite andb_true_r. destruct (chr_eqb a c); simpl; rewrite IH; reflexivity.
Qed.

Lemma contains_char_false a s :
  Forall (fun c => c <> a) s -> contains [a] s = false.
Proof.
  induction 1 as [|c s Hc _ IH]; simpl; [reflexivity|].
  rewrite IH, orb_false_r, andb_true_r. destruct (chr_eqb a c) eqn:E; [|reflexivity].
  apply chr_eqb_eq in E. congruence.
Qed.

Lemma lower_char_idem c : lower_char (lower_char c) = lower_char c.
Proof. destruct c as [[] [] [] [] [] [] [] []]; vm_compute; reflexivity. Qed.

Lemma lower_fixed s : Forall (fun c => lower_char c = c) s -> lower s = s.
Proof.
  induction 1 as [|c s Hc _ IH]; simpl; [reflexivity|]. rewrite Hc. f_equal. exact IH.
Qed.

(** *** Collapsing whitespace *)

Lemma star_greedy_spaces : forall rest bef,
  star_greedy is_space bef rest Some
  = Some (rev (take (count_spaces rest) rest) ++ bef, skip_spaces rest).
Proof.
  induction rest as [|c rest IH]; intros bef; simpl; [reflexivity|].
  destruct (is_space c); [|reflexivity].
  rewrite IH. simpl. rewrite <- app_assoc. reflexivity.
Qed.

Lemma collapse_in_run s : collapse_ws true s = collapse_ws false (skip_spaces s).
Proof.
  induction s as [|c s IH]; simpl; [reflexivity|].
  destruct (is_space c) eqn:Hc; [exact IH|]. simpl. rewrite Hc. reflexivity.
Qed.

Lemma skip_spaces_drop s : skip_spaces s = drop (count_spaces s) s.
Proof.
  induction s as [|c s IH]; simpl; [reflexivity|].
  destruct (is_space c); [exact IH|reflexivity].
Qed.

Lemma count_spaces_le s : (count_spaces s <= length s)%nat.
Proof.
  induction s as [|c s IH]; simpl; [lia|]. destruct (is_space c); simpl; lia.
Qed.

(** The search for "\s+": the first whitespace run, as long as it goes. *)
Lemma search_spaces : forall rest bef,
  search_from DynamicPricing.spaces_re bef rest =
  let n := count_nonspaces rest in
  let k := count_spaces (drop n rest) in
  match k with
  | O => None
  | S _ => Some ((length bef + n)%nat, (length bef + n + k)%nat)
  end.
Proof.
  induction rest as [|c rest IH]; intros bef; [reflexivity|].
  cbn [search_from]. unfold DynamicPricing.spaces_re, Plus. cbn [rmatch fst snd].
  cbn [count_nonspaces]. destruct (is_space c) eqn:Hc.
  - rewrite star_greedy_spaces. cbn zeta. cbn [drop count_spaces]. rewrite Hc.
    unfold mpos. cbn [fst].
    rewrite length_app, length_rev, length_take, Nat.min_l by apply count_spaces_le.
    cbn [length]. f_equal. f_equal; lia.
  - fold (Plus is_space). fold DynamicPricing.spaces_re. rewrite IH. cbn zeta.
    cbn [drop length]. destruct (count_spaces _); [reflexivity|]. f_equal. f_equal; lia.
Qed.

Lemma collapse_no_spaces : forall rest,
  count_spaces (drop (count_nonspaces rest) rest) = O -> collapse_ws false rest = rest.
Proof.
  induction rest as [|c rest IH]; simpl; [reflexivity|].
  destruct (is_space c) eqn:Hc; simpl.
  - rewrite Hc. discriminate.
  - intros H. f_equal. apply IH. exact H.
Qed.

Lemma collapse_first_run : forall rest,
  let n := count_nonspaces rest in
  let k := count_spaces (drop n rest) in
  k <> O ->
  collapse_ws false rest
  = take n rest ++ [" "%char] ++ collapse_ws false (drop (n + k) rest).
Proof.
  induction rest as [|c rest IH]; cbn zeta; simpl; [congruence|].
  destruct (is_space c) eqn:Hc; simpl.
  - rewrite Hc. intros _. f_equal. rewrite collapse_in_run, skip_spaces_drop. reflexivity.
  - intros H. f_equal. apply IH. exact H.
Qed.

(** The substitution of "\s+" by one space is that scan. *)
Lemma sub_spaces : forall fuel rest bef,
  (length rest < fuel)%nat ->
  sub_from fuel DynamicPricing.spaces_re [" "%char] bef rest = collapse_ws false rest.
Proof.
  induction fuel as [|fuel IH]; intros rest bef Hf; [lia|].
  cbn [sub_from]. rewrite search_spaces. cbn zeta.
  destruct (count_spaces (drop (count_nonspaces rest) rest)) as [|k] eqn:Hk.
  - symmetry. apply collapse_no_spaces. exact Hk.
  - replace (length bef + count_nonspaces rest - length bef)%nat
      with (count_nonspaces rest) by lia.
    replace (length bef + count_nonspaces rest + S k - (length bef + count_nonspaces rest))%nat
      with (S k) by lia.
    rewrite IH.
    + pose proof (collapse_first_run rest) as Hc. cbn zeta in Hc. rewrite Hk in Hc.
      symmetry. apply Hc. discriminate.
    + rewrite length_drop. destruct rest; [discriminate Hk|]. simpl in *. lia.
Qed.

Lemma re_sub_spaces s :
  re_sub DynamicPricing.spaces_re [" "%char] s = collapse_ws false s.
Proof. apply sub_spaces. lia. Qed.

Lemma collapse_in_run_head s :
  match collapse_ws true s with [] => True | d :: _ => is_space d = false end.
Proof.
  induction s as [|c s IH]; simpl; [exact I|].
  destruct (is_space c) eqn:Hc; [exact IH|exact Hc].
Qed.

Lemma collapse_single_spaced : forall s b, single_spaced (collapse_ws b s) = true.
Proof.
  induction s as [|c s IH]; intros b; simpl; [reflexivity|].
  destruct (is_space c) eqn:Hc.
  - destruct b; [apply IH|]. simpl. rewrite IH, andb_true_r.
    pose proof (collapse_in_run_head s) as Hh.
    destruct (collapse_ws true s); [reflexivity|]. rewrite Hh. reflexivity.
  - simpl. rewrite Hc, IH. reflexivity.
Qed.

Lemma single_spaced_fixed : forall s,
  single_spaced s = true -> collapse_ws false s = s.
Proof.
  induction s as [|c s IH]; simpl; [reflexivity|]. intros H.
  apply andb_true_iff in H as [Hc Hs]. specialize (IH Hs).
  destruct (is_space c) eqn:Hsp.
  - apply andb_true_iff in Hc as [Hc Hn]. apply chr_eqb_eq in Hc. subst c. f_equal.
    rewrite <- IH at 2. destruct s as [|d s]; [reflexivity|].
    simpl. apply negb_true_iff in Hn. rewrite Hn. reflexivity.
  - f_equal. exact IH.
Qed.

Lemma single_spaced_suffix ws : forall t,
  single_spaced (ws ++ t) = true -> single_spaced t = true.
Proof.
  induction ws as [|c ws IH]; intros t H; [exact H|].
  simpl in H. apply andb_true_iff in H as [_ H]. apply IH. exact H.
Qed.

Lemma single_spaced_prefix : forall t ws,
  single_spaced (t ++ ws) = true -> single_spaced t = true.
Proof.
  induction t as [|c t IH]; intros ws H; [reflexivity|].
  simpl in H. apply andb_true_iff in H as [Hc H]. simpl.
  rewrite (IH ws H), andb_true_r.
  destruct (is_space c); [|reflexivity].
  apply andb_true_iff in Hc as [-> Hn]. simpl.
  destruct t as [|d t]; [reflexivity|exact Hn].
Qed.

Lemma strip_single_spaced s : single_spaced s = true -> single_spaced (strip s) = true.
Proof.
  intros H. unfold strip.
  destruct (lstrip_suffix s) as (ws & E & _). rewrite E in H.
  apply single_spaced_suffix in H.
  destruct (rstrip_prefix (lstrip s)) as (ws' & E' & _). rewrite E' in H.
  apply single_spaced_prefix in H. exact H.
Qed.

Lemma lstrip_head s :
  match lstrip s with [] => True | d :: _ => is_space d = false end.
Proof.
  induction s as [|c s IH]; simpl; [exact I|].
  destruct (is_space c) eqn:Hc; [exact IH|exact Hc].
Qed.

Lemma lstrip_nonspace_head s :
  match s with [] => True | d :: _ => is_space d = false end -> lstrip s = s.
Proof. destruct s as [|d s]; simpl; [reflexivity|]. intros ->. reflexivity. Qed.

Lemma lstrip_idem s : lstrip (lstrip s) = lstrip s.
Proof. apply lstrip_nonspace_head, lstrip_head. Qed.

Lemma rstrip_idem s : rstrip (rstrip s) = rstrip s.
Proof. unfold rstrip. rewrite rev_involutive, lstrip_idem. reflexivity. Qed.

Lemma strip_idem s : strip (strip s) = strip s.
Proof.
  unfold strip. set (t := lstrip s).
  assert (Hl : lstrip (rstrip t) = rstrip t).
  { apply lstrip_nonspace_head.
    destruct (rstrip_prefix t) as (ws & E & _).
    pose proof (lstrip_head s) as Hh. fold t in Hh.
    destruct (rstrip t) as [|d r]; [exact I|].
    rewrite E in Hh. exact Hh. }
  rewrite Hl. apply rstrip_idem.
Qed.

Section Normalize.
Import DynamicPricing.

Lemma lower_replaced_clean s :
  Forall clean_char (str_replace ["-"%char] [" "%char]
                       (str_replace ["_"%char] [" "%char] (lower s))).
Proof.
  rewrite !replace_char_map. unfold lower.
  induction s as [|c s IH]; cbn [map]; [constructor|].
  constructor; [|exact IH]. unfold clean_char.
  destruct (chr_eqb "_" (lower_char c)) eqn:E1.
  - vm_compute. repeat split; try reflexivity; discriminate.
  - destruct (chr_eqb "-" (lower_char c)) eqn:E2.
    + vm_compute. repeat split; try reflexivity; discriminate.
    + repeat split.
      * apply lower_char_idem.
      * intros E. rewrite E in E1. discriminate.
      * intros E. rewrite E in E2. discriminate.
Qed.

Lemma normalize_clean name : Forall clean_char (normalize_club_name name).
Proof.
  unfold normalize_club_name. apply strip_Forall.
  apply re_sub_Forall.
  { constructor; [|constructor]. vm_compute. repeat split; try reflexivity; discriminate. }
  apply re_sub_Forall; [constructor|]. apply re_sub_Forall; [constructor|].
  apply lower_replaced_clean.
Qed.

Lemma normalize_tidy name :
  single_spaced (normalize_club_name name) = true
  /\ strip (normalize_club_name name) = normalize_club_name name.
Proof.
  unfold normalize_club_name. rewrite re_sub_spaces. split.
  - apply strip_single_spaced, collapse_single_spaced.
  - apply strip_idem.
Qed.

End Normalize.

(** *** A second pass changes a name that still holds a pattern *)

Section NormalizeConverse.
Import DynamicPricing.

Lemma sub_from_length r : forall fuel bef rest,
  (length (sub_from fuel r [] bef rest) <= length rest)%nat.
Proof.
  induction fuel as [|fuel IH]; intros bef rest; simpl; [lia|].
  destruct (search_from r bef rest) as [[s e]|]; [|lia].
  destruct (e - s)%nat as [|n]; [lia|].
  rewrite length_app, length_take.
  specialize (IH (rev (take (s - length bef + S n) rest) ++ bef)
                 (drop (s - length bef + S n) rest)).
  rewrite length_drop in IH. lia.
Qed.

Lemma re_sub_length r s : (length (re_sub r [] s) <= length s)%nat.
Proof. apply sub_from_length. Qed.

(** Removing a match that is not empty shortens the text. *)
Lemma re_sub_shorter r s :
  is_Some (first_class r) -> is_Some (re_search r s) ->
  (length (re_sub r [] s) < length s)%nat.
Proof.
  intros [p Hf] [[i j] Hm].
  pose proof (first_class_nonempty _ _ _ _ _ Hf Hm) as Hlt.
  pose proof (re_search_bounds _ _ _ Hm) as Hb. simpl in Hb.
  unfold re_sub. cbn [sub_from]. unfold re_search in Hm. rewrite Hm. cbn [length].
  rewrite Nat.sub_0_r. destruct (j - i)%nat as [|n] eqn:Hn; [lia|].
  rewrite length_app, length_take. cbn [app].
  pose proof (sub_from_length r (length s) (rev (take (i + S n) s) ++ [])
                (drop (i + S n) s)) as Hl.
  rewrite length_drop in Hl. lia.
Qed.

Lemma collapse_ws_length : forall s b, (length (collapse_ws b s) <= length s)%nat.
Proof.
  induction s as [|c s IH]; intros b; simpl; [lia|].
  pose proof (IH true). pose proof (IH false).
  destruct (is_space c); [destruct b|]; simpl; lia.
Qed.

Lemma strip_length s : (length (strip s) <= length s)%nat.
Proof.
  unfold strip. destruct (lstrip_suffix s) as (ws & E & _).
  destruct (rstrip_prefix (lstrip s)) as (ws' & E' & _).
  apply (f_equal (@length ascii)) in E, E'. rewrite length_app in E, E'. lia.
Qed.

Lemma tidy_length z :
  (length (strip (re_sub spaces_re [" "%char] z)) <= length z)%nat.
Proof.
  rewrite re_sub_spaces. pose proof (strip_length (collapse_ws false z)).
  pose proof (collapse_ws_length z false). lia.
Qed.

End NormalizeConverse.

(** C5, as stated, fails: a name that carries the source prefix twice
    keeps one prefix after the first pass and loses it in the second; a
    state and zip code uncovered by the removal of another one is likewise
    removed only by a second pass. *)
Lemma normalize_club_name_not_idempotent :
  DynamicPricing.normalize_club_name (txt "CFF: CFF: x") = txt "cff: x"
  /\ DynamicPricing.normalize_club_name (txt "cff: x") = txt "x"
  /\ DynamicPricing.normalize_club_name
       (DynamicPricing.normalize_club_name (txt "CFF: CFF: x"))
     <> DynamicPricing.normalize_club_name (txt "CFF: CFF: x")
  /\ DynamicPricing.normalize_club_name (txt "x california ca 1 1") = txt "x california 1"
  /\ DynamicPricing.normalize_club_name (txt "x california 1") = txt "x".
Proof.
  repeat split; try (vm_compute; reflexivity). vm_compute. discriminate.
Qed.

(** C5, amended. For every string x, normalize(normalize(x)) ==
    normalize(x) exactly when none of the three removal patterns (the
    source prefix at the start, the state name with zip code, the state
    abbreviation with zip code) matches in normalize(x). *)
Theorem normalize_club_name_idempotent (name : text) :
  let normalized := DynamicPricing.normalize_club_name name in
  DynamicPricing.normalize_club_name normalized = normalized
  <-> re_search DynamicPricing.prefix_re normalized = None
      /\ re_search (DynamicPricing.state_zip_re "california") normalized = None
      /\ re_search (DynamicPricing.state_zip_re "ca") normalized = None.
Proof.
  intros y.
  pose proof (normalize_clean name) as Hc. destruct (normalize_tidy name) as [Hs Ht].
  fold y in Hc, Hs, Ht. clearbody y.
  assert (El : lower y = y).
  { apply lower_fixed. eapply Forall_impl; [exact Hc|]. intros c Hcc. apply Hcc. }
  assert (E1 : str_replace (txt "_") (txt " ") y = y).
  { apply str_replace_absent; [discriminate|]. apply contains_char_false.
    eapply Forall_impl; [exact Hc|]. intros c Hcc. apply Hcc. }
  assert (E2 : str_replace (txt "-") (txt " ") y = y).
  { apply str_replace_absent; [discriminate|]. apply contains_char_false.
    eapply Forall_impl; [exact Hc|]. intros c Hcc. apply Hcc. }
  assert (Hshort : forall z, (length z < length y)%nat ->
            (length (strip (re_sub DynamicPricing.spaces_re [" "%char] z)) <= length z)%nat ->
            strip (re_sub DynamicPricing.spaces_re [" "%char] z) <> y).
  { intros z Hz Hl E. rewrite E in Hl. lia. }
  unfold DynamicPricing.normalize_club_name. change (txt " ") with [" "%char] in *.
  change (txt "_") with ["_"%char] in *. change (txt "-") with ["-"%char] in *.
  split.
  - intros Hfix.
    destruct (re_search DynamicPricing.prefix_re y) as [m|] eqn:H1.
    { exfalso. revert Hfix. apply Hshort; [|apply tidy_length].
      eapply Nat.le_lt_trans; [apply re_sub_length|].
      eapply Nat.le_lt_trans; [apply re_sub_length|].
      rewrite !replace_char_map. unfold lower. rewrite !length_map.
      apply re_sub_shorter; [eexists; reflexivity|rewrite H1; eauto]. }
    rewrite (re_sub_none _ _ _ H1), El, E1, E2 in Hfix.
    destruct (re_search (DynamicPricing.state_zip_re "california") y) as [m|] eqn:H2.
    { exfalso. revert Hfix. apply Hshort; [|apply tidy_length].
      eapply Nat.le_lt_trans; [apply re_sub_length|].
      apply re_sub_shorter; [eexists; reflexivity|rewrite H2; eauto]. }
    rewrite (re_sub_none _ _ _ H2) in Hfix.
    destruct (re_search (DynamicPricing.state_zip_re "ca") y) as [m|] eqn:H3.
    { exfalso. revert Hfix. apply Hshort; [|apply tidy_length].
      apply re_sub_shorter; [eexists; reflexivity|rewrite H3; eauto]. }
    auto.
  - intros (H1 & H2 & H3).
    rewrite (re_sub_none _ _ _ H1), El, E1, E2.
    rewrite (re_sub_none _ _ _ H2), (re_sub_none _ _ _ H3).
    rewrite re_sub_spaces, (single_spaced_fixed _ Hs). exact Ht.
Qed.

Lemma normalize_club_name_idempotent_witness :
  DynamicPricing.normalize_club_name
    (DynamicPricing.normalize_club_name
       (txt "In-Shape: Modesto_McHenry-North California 95355"))
  = DynamicPricing.normalize_club_name
      (txt "In-Shape: Modesto_McHenry-North California 95355").
Proof.
  apply (normalize_club_name_idempotent
           (txt "In-Shape: Modesto_McHenry-North California 95355")).
  repeat split; vm_compute; reflexivity.
Defined.

(** ** Pricing content from the CSV *)

Section CsvPricing.
Import DynamicPricing.

Lemma index_where_none {A : Type} (p : A -> bool) : forall l i,
  index_where p l i = None <-> forall x, x ∈ l -> p x = false.
Proof.
  induction l as [|y l IH]; intros i; simpl.
  - split; [intros _ x Hx; inversion Hx|reflexivity].
  - destruct (p y) eqn:Hy.
    + split; [discriminate|]. intros H. rewrite (H y) in Hy; [discriminate|left].
    + rewrite IH. split.
      * intros H x Hx. inversion Hx; subst; [exact Hy|apply H; assumption].
      * intros H x Hx. apply H. right. exact Hx.
Qed.

Lemma club_rows_nil rows club_name :
  club_rows_of rows club_name = []
  <-> forall r, r ∈ rows -> is_club_row (normalize_club_name club_name) r = false.
Proof.
  unfold club_rows_of. induction rows as [|r rows IH].
  - split; [intros _ x Hx; inversion Hx|reflexivity].
  - rewrite filter_cons. destruct (is_club_row _ r) eqn:Hr.
    + rewrite decide_True by reflexivity. split; [discriminate|].
      intros H. rewrite (H r) in Hr; [discriminate|left].
    + rewrite decide_False by discriminate. rewrite IH. split.
      * intros H x Hx. inversion Hx; subst; [exact Hr|apply H; assumption].
      * intros H x Hx. apply H. right. exact Hx.
Qed.

(** An additional column whose value is blank, a dash or a dollar-dash
    adds nothing to the line. *)
Lemma additional_part_dash fee_row col v :
  fee_row !! fst col = Some v -> is_dash_value (strip v) = true ->
  additional_part fee_row col = None.
Proof.
  intros Hv Hd. unfold additional_part. rewrite Hv, Hd, andb_false_r. reflexivity.
Qed.

(** A core tier cell that is blank is written as the sentinel. *)
Lemma core_cell_blank value :
  strip value = [] -> or_not_available (strip value) = not_available.
Proof. intros ->. reflexivity. Qed.

End CsvPricing.

(** C3: the code departs from the claim. In the first row of the club in
    [csv_sample] the three core tier cells are a dash, a dollar-dash and a
    blank: the line shows the dash and the dollar-dash as they are, and
    only the blank as "Not available"; of the two additional columns the
    one holding a dash is left out. *)
Lemma core_tier_dash_written_verbatim :
  DynamicPricing.read_pricing_content_from_csv csv_sample (txt "Rocklin East")
  = Some (txt "Main Dues MTM: Local Network: - | Fitness Plus Local Network: $- | Lifestyle Network Plus: Not available | Family: $30"
            ++ [nl]
            ++ txt "Add Adult: Local Network: $10 | Fitness Plus Local Network: $15 | Lifestyle Network Plus: $20",
          [txt "Premier - NFC"; txt "Family"]).
Proof. vm_compute. reflexivity. Qed.

(** C6. For a CSV with a header row, the builder returns nothing exactly
    when no header cell contains "Lifestyle Local Network" or "Lifestyle
    Network Plus", or when no data row has a second cell whose normalised
    value equals the normalised club name; with the column present and a
    row of the club it returns a pricing result. *)
Theorem read_pricing_content_from_csv_failures
    (header : list text) (rows : list (list text)) (club_name : text) :
  (DynamicPricing.read_pricing_content_from_csv (header :: rows) club_name = None
   <-> (forall col, col ∈ header -> DynamicPricing.is_lifestyle_column col = false)
       \/ (forall r, r ∈ rows ->
             DynamicPricing.is_club_row
               (DynamicPricing.normalize_club_name club_name) r = false))
  /\ ((exists col, col ∈ header /\ DynamicPricing.is_lifestyle_column col = true) ->
      (exists r, r ∈ rows /\
                 DynamicPricing.is_club_row
                   (DynamicPricing.normalize_club_name club_name) r = true) ->
      exists result,
        DynamicPricing.read_pricing_content_from_csv (header :: rows) club_name
        = Some result).
Proof.
  assert (Hiff :
    DynamicPricing.read_pricing_content_from_csv (header :: rows) club_name = None
    <-> (forall col, col ∈ header -> DynamicPricing.is_lifestyle_column col = false)
        \/ (forall r, r ∈ rows ->
              DynamicPricing.is_club_row
                (DynamicPricing.normalize_club_name club_name) r = false)).
  { rewrite <- index_where_none with (i := O), <- club_rows_nil.
    unfold DynamicPricing.read_pricing_content_from_csv.
    destruct (DynamicPricing.index_where _ header 0) as [idx|].
    - destruct (DynamicPricing.club_rows_of rows club_name) as [|r rs].
      + split; [right; reflexivity|reflexivity].
      + split; [discriminate|]. intros [H|H]; discriminate.
    - split; [left; reflexivity|reflexivity]. }
  split; [exact Hiff|].
  intros (col & Hcol & Hl) (r & Hr & Hc).
  destruct (DynamicPricing.read_pricing_content_from_csv (header :: rows) club_name)
    as [result|] eqn:E; [eauto|].
  destruct (proj1 Hiff eq_refl) as [H|H].
  - rewrite (H col Hcol) in Hl. discriminate.
  - rewrite (H r Hr) in Hc. discriminate.
Qed.

Lemma read_pricing_content_from_csv_failures_witness :
  exists result,
    DynamicPricing.read_pricing_content_from_csv csv_sample (txt "Rocklin East")
    = Some result.
Proof.
  apply (read_pricing_content_from_csv_failures csv_header (tl csv_sample)
           (txt "Rocklin East")).
  - exists (txt "Lifestyle Local Network"). split; [|vm_compute; reflexivity].
    unfold csv_header. cbn [map]. set_solver.
  - exists (csv_row "CFF: rocklin_east" "Add Adult" "$10" "$15" "$20" "$-" "").
    split; [|vm_compute; reflexivity]. cbn [tl csv_sample]. set_solver.
Defined.

(** ** Matching text files to documents *)

Section Matcher.
Import DynamicPricing.

Variable md_name_map : gmap text text.

(** A turn of the loop for another file leaves the entry of a file alone. *)
Lemma match_txt_file_other acc f k :
  f <> k -> fst (match_txt_file md_name_map acc f) !! k = fst acc !! k.
Proof.
  intros Hne. destruct acc as [mapping warnings]. unfold match_txt_file.
  destruct (multi_mappings !! _) as [targets|].
  - destruct (resolve_targets md_name_map f targets) as [[|md l] missing]; simpl;
      [reflexivity|apply lookup_insert_ne; exact Hne].
  - destruct (md_name_map !! _) as [md|]; simpl; [apply lookup_insert_ne; exact Hne|].
    destruct (special_mappings !! _) as [sp|]; [|reflexivity].
    destruct (md_name_map !! sp); simpl; [apply lookup_insert_ne; exact Hne|reflexivity].
Qed.

Lemma match_txt_file_warnings acc f w :
  w ∈ snd acc -> w ∈ snd (match_txt_file md_name_map acc f).
Proof.
  intros Hw. destruct acc as [mapping warnings]. unfold match_txt_file. simpl in Hw.
  destruct (multi_mappings !! _) as [targets|].
  - destruct (resolve_targets md_name_map f targets) as [l missing]; simpl. set_solver.
  - destruct (md_name_map !! _) as [md|]; simpl; [exact Hw|].
    destruct (special_mappings !! _) as [sp|]; [|simpl; set_solver].
    destruct (md_name_map !! sp); simpl; [exact Hw|set_solver].
Qed.

Lemma foldl_warnings l : forall acc w,
  w ∈ snd acc -> w ∈ snd (foldl (match_txt_file md_name_map) acc l).
Proof.
  induction l as [|f l IH]; intros acc w Hw; simpl; [exact Hw|].
  apply IH, match_txt_file_warnings, Hw.
Qed.

Variable txt_file : text.
Variable targets : list text.
Hypothesis Hmulti :
  multi_mappings !! normalize_club_name (extract_club_name_from_txt txt_file)
  = Some targets.

Lemma match_txt_file_multi acc :
  fst acc !! txt_file = None \/ fst acc !! txt_file = multi_entry md_name_map targets ->
  fst (match_txt_file md_name_map acc txt_file) !! txt_file = multi_entry md_name_map targets.
Proof using Hmulti.
  intros Hacc. destruct acc as [mapping warnings]. unfold match_txt_file.
  rewrite Hmulti. unfold resolve_targets, multi_entry in *. simpl in Hacc.
  destruct (omap _ targets) as [|md l]; simpl.
  - destruct Hacc as [H|H]; exact H.
  - apply lookup_insert_eq.
Qed.

Lemma match_txt_file_missing acc target_name :
  target_name ∈ targets -> md_name_map !! target_name = None ->
  MultiTargetNotFound target_name txt_file
    ∈ snd (match_txt_file md_name_map acc txt_file).
Proof using Hmulti.
  intros Ht Hn. destruct acc as [mapping warnings]. unfold match_txt_file.
  rewrite Hmulti. unfold resolve_targets. simpl.
  apply elem_of_app. right. apply list_elem_of_omap. exists target_name.
  split; [exact Ht|]. rewrite Hn. reflexivity.
Qed.

Lemma foldl_keeps_entry l : forall acc,
  fst acc !! txt_file = multi_entry md_name_map targets ->
  fst (foldl (match_txt_file md_name_map) acc l) !! txt_file = multi_entry md_name_map targets.
Proof using Hmulti.
  induction l as [|f l IH]; intros acc Hacc; simpl; [exact Hacc|].
  apply IH. destruct (decide (f = txt_file)) as [->|Hne].
  - apply match_txt_file_multi. right. exact Hacc.
  - rewrite match_txt_file_other by exact Hne. exact Hacc.
Qed.

Lemma foldl_multi l : forall acc,
  txt_file ∈ l ->
  fst acc !! txt_file = None \/ fst acc !! txt_file = multi_entry md_name_map targets ->
  fst (foldl (match_txt_file md_name_map) acc l) !! txt_file = multi_entry md_name_map targets
  /\ forall target_name,
       target_name ∈ targets -> md_name_map !! target_name = None ->
       MultiTargetNotFound target_name txt_file
         ∈ snd (foldl (match_txt_file md_name_map) acc l).
Proof using Hmulti.
  induction l as [|f l IH]; intros acc Hin Hacc; [inversion Hin|]. simpl.
  destruct (decide (f = txt_file)) as [->|Hne].
  - split.
    + apply foldl_keeps_entry, match_txt_file_multi, Hacc.
    + intros t Ht Hn. apply foldl_warnings, match_txt_file_missing; assumption.
  - apply IH.
    + inversion Hin; subst; [congruence|assumption].
    + rewrite match_txt_file_other by exact Hne. exact Hacc.
Qed.

End Matcher.

(** C7. For every text file whose normalised identity is a key of the
    one-to-many table, the matcher looks each target name up in the
    document-name map, leaves out the targets without a document with a
    warning for each, and maps the text file to the documents found when
    there is at least one (and to nothing when there is none); so
    "midtown", with targets midtown and downtown and only a downtown
    document present, is mapped to that one document, with a warning. *)
Theorem build_club_mapping_multi
    (txt_files md_files : list text) (txt_file : text) (targets : list text) :
  txt_file ∈ txt_files ->
  DynamicPricing.multi_mappings
    !! DynamicPricing.normalize_club_name
         (DynamicPricing.extract_club_name_from_txt txt_file)
  = Some targets ->
  let md_name_map := DynamicPricing.md_name_map_of md_files in
  let found := omap (fun target_name => md_name_map !! target_name) targets in
  fst (DynamicPricing.build_club_mapping txt_files md_files) !! txt_file
  = match found with [] => None | _ => Some found end
  /\ (forall target_name,
        target_name ∈ targets -> md_name_map !! target_name = None ->
        DynamicPricing.MultiTargetNotFound target_name txt_file
          ∈ snd (DynamicPricing.build_club_mapping txt_files md_files))
  /\ DynamicPricing.build_club_mapping
       [txt "CFF__Midtown"] [txt "www.inshape.com_gyms_downtown_clean"]
     = ({[ txt "CFF__Midtown" := [txt "www.inshape.com_gyms_downtown_clean"] ]},
        [DynamicPricing.MultiTargetNotFound (txt "midtown") (txt "CFF__Midtown")]).
Proof.
  intros Hin Hmulti md_name_map found.
  destruct (foldl_multi md_name_map txt_file targets Hmulti txt_files (∅, []) Hin)
    as [Hentry Hwarn].
  { left. apply lookup_empty. }
  split.
  { unfold multi_entry in Hentry. subst found md_name_map.
    destruct (omap _ targets); exact Hentry. }
  split; [exact Hwarn|].
  vm_compute. reflexivity.
Qed.

Lemma build_club_mapping_multi_witness :
  fst (DynamicPricing.build_club_mapping
         [txt "In-Shape__Other"; txt "CFF__Midtown"]
         [txt "www.inshape.com_gyms_downtown_clean"])
    !! txt "CFF__Midtown"
  = Some [txt "www.inshape.com_gyms_downtown_clean"].
Proof.
  refine (proj1 (build_club_mapping_multi
           [txt "In-Shape__Other"; txt "CFF__Midtown"]
           [txt "www.inshape.com_gyms_downtown_clean"]
           (txt "CFF__Midtown") [txt "midtown"; txt "downtown"] _ _)).
  - set_solver.
  - vm_compute. reflexivity.
Defined.

(** ** Splitting the formatted file *)

Lemma split_go_line l : forall cur rest,
  no_nl l -> split_go cur (l ++ rest) = split_go (rev l ++ cur) rest.
Proof.
  induction l as [|c l IH]; intros cur rest H; [reflexivity|].
  inversion H as [|? ? Hc Hl]; subst. simpl. rewrite Hc, IH by exact Hl.
  rewrite <- app_assoc. reflexivity.
Qed.

(** Joining lines with line ends and splitting again gives the lines. *)
Lemma split_join l ls :
  Forall no_nl (l :: ls) -> split_nl (join [nl] (l :: ls)) = l :: ls.
Proof.
  revert l. induction ls as [|l2 ls IH]; intros l H; unfold split_nl in *.
  - simpl. pose proof (split_go_line l [] []) as E. rewrite app_nil_r in E.
    rewrite E by (inversion H; assumption).
    simpl. rewrite app_nil_r, rev_involutive. reflexivity.
  - inversion H as [|? ? Hl Hls]; subst.
    change (join [nl] (l :: l2 :: ls)) with (l ++ [nl] ++ join [nl] (l2 :: ls)).
    rewrite split_go_line by exact Hl. cbn [app split_go].
    change (chr_eqb nl nl) with true. cbn iota.
    rewrite app_nil_r, rev_involutive. f_equal. apply IH. exact Hls.
Qed.

Section Splitter.
Import Splitter.

Lemma lines_go_no_nl s : forall cur,
  no_nl cur -> Forall no_nl (lines_go cur s).
Proof.
  induction s as [|c s IH]; intros cur Hcur; simpl.
  - destruct cur; constructor; [|constructor]. apply Forall_rev. exact Hcur.
  - destruct (chr_eqb c nl) eqn:Hc.
    + constructor; [apply Forall_rev; exact Hcur|]. apply IH. constructor.
    + apply IH. constructor; assumption.
Qed.

Lemma readlines_no_nl s : Forall no_nl (readlines s).
Proof. apply lines_go_no_nl. constructor. Qed.

Lemma close_section_ok club lines_ secs :
  Forall section_ok secs -> current_ok club lines_ ->
  Forall section_ok (close_section club lines_ secs).
Proof.
  intros Hs Hc. unfold close_section. destruct club as [c|]; [|exact Hs].
  destruct (is_nonempty c && is_nonempty lines_); [|exact Hs].
  apply Forall_app. split; [exact Hs|]. constructor; [|constructor].
  destruct Hc as (body & -> & Hp & Hb & Hn). exists body. simpl. auto.
Qed.

Lemma split_lines_ok lines_ : forall secs club cur,
  Forall no_nl lines_ -> Forall section_ok secs -> current_ok club cur ->
  Forall section_ok (split_lines lines_ secs club cur).
Proof.
  induction lines_ as [|line lines_ IH]; intros secs club cur Hl Hs Hc;
    cbn [split_lines].
  - apply close_section_ok; assumption.
  - inversion Hl as [|? ? Hline Hrest]; subst.
    destruct (starts_with club_name_prefix line) eqn:Hp.
    + apply IH; [exact Hrest|apply close_section_ok; assumption|].
      exists []. repeat split; [exact Hp|constructor|constructor; [exact Hline|constructor]].
    + destruct club as [c|]; [|apply IH; assumption].
      destruct (is_nonempty c); [|apply IH; assumption].
      destruct (text_eqb line separator) eqn:Hsep; [apply IH; assumption|].
      apply IH; [exact Hrest|exact Hs|].
      destruct Hc as (body & -> & Hpc & Hb & Hn).
      exists (body ++ [line]). repeat split; [exact Hpc| |].
      * apply Forall_app. split; [exact Hb|]. constructor; [|constructor].
        intros E. apply text_eqb_eq in E. congruence.
      * inversion Hn as [|? ? Hc0 Hb0]; subst. constructor; [exact Hc0|].
        apply Forall_app. split; [exact Hb0|]. constructor; [exact Hline|constructor].
Qed.

(** Lines before the first header line open no section. *)
Lemma split_lines_preamble pre : forall rest,
  Forall (fun l => starts_with club_name_prefix l = false) pre ->
  split_lines (pre ++ rest) [] None [] = split_lines rest [] None [].
Proof.
  induction pre as [|l pre IH]; intros rest H; [reflexivity|].
  inversion H as [|? ? Hl Hpre]; subst. cbn [app split_lines]. rewrite Hl.
  apply IH. exact Hpre.
Qed.

End Splitter.

(** C10. For every input text, each section the splitter returns has a
    content whose first line is its own "Club Name: <name>" header line
    and none of whose lines is the 80-character separator; and the lines
    before the first "Club Name: " line have no effect on the result. *)
Theorem split_club_sections_invariants (file_text : text) :
  Forall (fun sec =>
            starts_with Splitter.club_name_prefix (Splitter.name sec) = true
            /\ head (split_nl (Splitter.content sec)) = Some (Splitter.name sec)
            /\ Splitter.separator ∉ split_nl (Splitter.content sec))
         (Splitter.split_club_sections file_text)
  /\ (forall pre rest,
        Splitter.readlines file_text = pre ++ rest ->
        Forall (fun l => starts_with Splitter.club_name_prefix l = false) pre ->
        Splitter.split_club_sections file_text
        = Splitter.split_lines rest [] None []).
Proof.
  split.
  - assert (H : Forall section_ok (Splitter.split_club_sections file_text)).
    { apply split_lines_ok; [apply readlines_no_nl|constructor|exact I]. }
    eapply Forall_impl; [exact H|]. intros sec (body & Ec & Hp & Hb & Hn).
    rewrite Ec, split_join by exact Hn. repeat split; [exact Hp|].
    intros Hin. apply elem_of_cons in Hin as [E|Hin].
    + rewrite <- E in Hp. vm_compute in Hp. discriminate.
    + rewrite Forall_forall in Hb. exact (Hb _ Hin eq_refl).
  - intros pre rest E Hpre. unfold Splitter.split_club_sections. rewrite E.
    apply split_lines_preamble. exact Hpre.
Qed.

Lemma split_club_sections_invariants_witness :
  Splitter.split_club_sections splitter_sample
  = Splitter.split_lines
      [txt "Club Name: Alpha"; txt "Member Type: One Club: M1";
       Splitter.separator; []; txt "Club Name: Zeta"; txt "Elevate"]
      [] None [].
Proof.
  apply (proj2 (split_club_sections_invariants splitter_sample)
           [txt "Formatted on Monday"; []]).
  - vm_compute. reflexivity.
  - repeat constructor.
Defined.

(** ** The order of the club sections *)

Lemma code_inj a b : code a = code b -> a = b.
Proof.
  unfold code. intros H. rewrite <- (ascii_N_embedding a), <- (ascii_N_embedding b), H.
  reflexivity.
Qed.

Lemma text_leb_total a : forall b, text_leb a b = true \/ text_leb b a = true.
Proof.
  induction a as [|x a IH]; intros [|y b]; simpl; auto.
  destruct (N.ltb_spec (code x) (code y)); [auto|].
  destruct (N.ltb_spec (code y) (code x)); [auto|]. apply IH.
Qed.

Lemma text_leb_trans a : forall b c,
  text_leb a b = true -> text_leb b c = true -> text_leb a c = true.
Proof.
  induction a as [|x a IH]; intros [|y b] [|z c]; simpl; auto; try discriminate.
  destruct (N.ltb_spec (code x) (code y)), (N.ltb_spec (code y) (code z)),
    (N.ltb_spec (code x) (code z)); auto; try lia;
    destruct (N.ltb_spec (code y) (code x)), (N.ltb_spec (code z) (code y)),
      (N.ltb_spec (code z) (code x)); auto; try discriminate; try lia.
  apply IH.
Qed.

Lemma text_leb_antisym a : forall b,
  text_leb a b = true -> text_leb b a = true -> a = b.
Proof.
  induction a as [|x a IH]; intros [|y b]; simpl; auto; try discriminate.
  destruct (N.ltb_spec (code x) (code y)), (N.ltb_spec (code y) (code x));
    try lia; try discriminate.
  intros H1 H2. f_equal; [apply code_inj; lia|apply IH; assumption].
Qed.

#[local] Instance text_le_total : Total text_le.
Proof. intros a b. apply text_leb_total. Qed.

#[local] Instance text_le_trans : Transitive text_le.
Proof. intros a b c. apply text_leb_trans. Qed.

#[local] Instance text_le_antisym : AntiSymm (=) text_le.
Proof. intros a b. apply text_leb_antisym. Qed.

Lemma sorted_strict (l : list text) :
  StronglySorted text_le l -> NoDup l -> StronglySorted text_lt l.
Proof.
  induction 1 as [|x l Hs IH Hx]; intros Hnd; constructor.
  - apply IH. apply NoDup_cons in Hnd. tauto.
  - apply NoDup_cons in Hnd as [Hnot _].
    rewrite Forall_forall in *. intros y Hy. split; [apply Hx, Hy|].
    intros ->. contradiction.
Qed.

Lemma sorted_spec (names : list text) :
  NoDup names ->
  StronglySorted text_lt (sorted names) /\ sorted names ≡ₚ names.
Proof.
  intros Hnd. unfold sorted. split; [|apply merge_sort_Permutation].
  apply sorted_strict; [apply StronglySorted_merge_sort; apply _|].
  rewrite merge_sort_Permutation. exact Hnd.
Qed.

(** Two lists of distinct names with the same members sort alike. *)
Lemma sorted_same_members (l1 l2 : list text) :
  NoDup l1 -> NoDup l2 -> (forall n, n ∈ l1 <-> n ∈ l2) -> sorted l1 = sorted l2.
Proof.
  intros H1 H2 Hm. unfold sorted.
  apply (StronglySorted_unique text_le);
    try (apply StronglySorted_merge_sort; apply _).
  rewrite !merge_sort_Permutation. apply NoDup_Permutation; assumption.
Qed.

Section FormatterSections.
Import Formatter.

Lemma read_rows_by_name rows : forall acc,
  snd (foldl read_row acc rows) = foldl add_row (snd acc) rows.
Proof.
  induction rows as [|r rows IH]; intros acc; simpl; [reflexivity|].
  rewrite IH. f_equal. unfold read_row, add_row. destruct (is_data_row r); reflexivity.
Qed.

Lemma assoc_append_keys {V : Type} k (x : V) d n :
  n ∈ map fst (assoc_append k x d) <-> n = k \/ n ∈ map fst d.
Proof.
  induction d as [|[k' xs] d IH]; simpl.
  - rewrite list_elem_of_singleton. split; [auto|]. intros [H|H]; [exact H|inversion H].
  - destruct (text_eqb k k') eqn:E; simpl.
    + apply text_eqb_eq in E. subst. rewrite elem_of_cons. tauto.
    + rewrite !elem_of_cons, IH. tauto.
Qed.

Lemma assoc_append_NoDup {V : Type} k (x : V) d :
  NoDup (map fst d) -> NoDup (map fst (assoc_append k x d)).
Proof.
  induction d as [|[k' xs] d IH]; simpl; intros H.
  - apply NoDup_singleton.
  - destruct (text_eqb k k') eqn:E; simpl; [exact H|].
    apply NoDup_cons in H as [Hn Hd]. apply NoDup_cons. split; [|apply IH, Hd].
    rewrite assoc_append_keys. intros [->|Hin]; [|contradiction].
    rewrite text_eqb_refl in E. discriminate.
Qed.

Lemma assoc_append_filled {V : Type} k (x : V) d :
  Forall (fun kv => snd kv <> []) d ->
  Forall (fun kv => snd kv <> []) (assoc_append k x d).
Proof.
  induction d as [|[k' xs] d IH]; simpl; intros H.
  - constructor; [discriminate|constructor].
  - inversion H as [|? ? Hx Hd]; subst. destruct (text_eqb k k'); constructor; auto.
    simpl. destruct xs; discriminate.
Qed.

Lemma add_rows_spec rows : forall d,
  NoDup (map fst d) -> Forall (fun kv => snd kv <> []) d ->
  NoDup (map fst (foldl add_row d rows))
  /\ Forall (fun kv => snd kv <> []) (foldl add_row d rows)
  /\ forall n, n ∈ map fst (foldl add_row d rows)
       <-> n ∈ map fst d \/ exists r, r ∈ rows /\ is_data_row r = true /\ cell r 1 = n.
Proof.
  induction rows as [|r rows IH]; intros d Hnd Hf; simpl.
  - repeat split; auto. intros [H|(r & Hr & _)]; [exact H|inversion Hr].
  - assert (Hnd' : NoDup (map fst (add_row d r))).
    { unfold add_row. destruct (is_data_row r); [apply assoc_append_NoDup|]; exact Hnd. }
    assert (Hf' : Forall (fun kv => snd kv <> []) (add_row d r)).
    { unfold add_row. destruct (is_data_row r); [apply assoc_append_filled|]; exact Hf. }
    destruct (IH _ Hnd' Hf') as (H1 & H2 & H3). repeat split; [exact H1|exact H2| |].
    + intros Hn. apply H3 in Hn as [Hn|(r' & Hr' & Hd & Hc)].
      * unfold add_row in Hn. destruct (is_data_row r) eqn:Hd; [|auto].
        apply assoc_append_keys in Hn as [->|Hn]; [|auto].
        right. exists r. split; [left|auto].
      * right. exists r'. split; [right; exact Hr'|auto].
    + intros [Hn|(r' & Hr' & Hd & Hc)]; apply H3.
      * left. unfold add_row. destruct (is_data_row r); [|exact Hn].
        apply assoc_append_keys. auto.
      * apply elem_of_cons in Hr' as [->|Hr'].
        -- left. unfold add_row. rewrite Hd. apply assoc_append_keys. auto.
        -- right. exists r'. auto.
Qed.

(** The names that get a section: distinct, each the stripped club name
    of a data row, each with rows. *)
Lemma club_names_spec rows :
  NoDup (map fst (snd (read_rows rows)))
  /\ Forall (fun kv => snd kv <> []) (snd (read_rows rows))
  /\ forall n, n ∈ map fst (snd (read_rows rows))
       <-> exists r, r ∈ rows /\ is_data_row r = true /\ cell r 1 = n.
Proof.
  unfold read_rows. rewrite read_rows_by_name. simpl.
  destruct (add_rows_spec rows []) as (H1 & H2 & H3); [constructor|constructor|].
  repeat split; [exact H1|exact H2| |].
  - intros Hn. apply H3 in Hn as [Hn|Hn]; [inversion Hn|exact Hn].
  - intros Hn. apply H3. right. exact Hn.
Qed.

Lemma assoc_get_filled {V : Type} (d : list (text * list V)) n :
  Forall (fun kv => snd kv <> []) d -> n ∈ map fst d ->
  exists x xs, assoc_get n d = Some (x :: xs).
Proof.
  induction 1 as [|[k v] d Hk _ IH]; simpl; intros Hn; [inversion Hn|].
  destruct (text_eqb n k) eqn:E.
  - destruct v as [|x xs]; [simpl in Hk; congruence|eauto].
  - apply elem_of_cons in Hn as [->|Hn]; [|apply IH, Hn].
    simpl in E. rewrite text_eqb_refl in E. discriminate.
Qed.

End FormatterSections.

(** C9. For every input CSV, the formatted text is the club sections, each
    opening with its "Club Name: <name>" line, in strictly ascending order
    of the club names as strings; the names are the stripped club names of
    the data rows, and the order of the rows has no effect on the order of
    the sections. *)
Theorem process_csv_file_sections_sorted (headers : list text) (rows : list (list text)) :
  let names := Formatter.section_names rows in
  StronglySorted text_lt names
  /\ (forall n, n ∈ names
        <-> exists r, r ∈ rows /\ Formatter.is_data_row r = true /\ Formatter.cell r 1 = n)
  /\ (exists sections,
        Forall2 (fun n sec => exists rest, sec = (txt "Club Name: " ++ n) :: rest)
                names sections
        /\ Formatter.process_csv_file (headers :: rows) = join [nl] (concat sections))
  /\ (forall rows', rows' ≡ₚ rows ->
        Formatter.section_names rows' = Formatter.section_names rows).
Proof.
  intros names. subst names. unfold Formatter.section_names.
  destruct (club_names_spec rows) as (Hnd & Hf & Hm).
  destruct (sorted_spec _ Hnd) as [Hs Hp].
  split; [exact Hs|]. split.
  { intros n. rewrite Hp. apply Hm. }
  split.
  - unfold Formatter.process_csv_file.
    destruct (Formatter.read_rows rows) as [all_clubs by_name] eqn:Er. simpl in *.
    exists (map (fun club_name =>
                   Formatter.club_section all_clubs
                     (Formatter.detect_availability_columns headers) club_name
                     (Formatter.rows_of by_name club_name))
                (sorted (map fst by_name))).
    split; [|rewrite flat_map_concat_map; reflexivity].
    apply Forall2_fmap_r, Forall_Forall2_diag, Forall_forall. intros n Hn.
    rewrite Hp in Hn.
    destruct (assoc_get_filled by_name n Hf Hn) as (x & xs & Hg).
    unfold compose, Formatter.rows_of. cbv beta. rewrite Hg. unfold Formatter.club_section.
    eexists. reflexivity.
  - intros rows' Hperm. destruct (club_names_spec rows') as (Hnd' & _ & Hm').
    apply sorted_same_members; [exact Hnd'|exact Hnd|].
    intros n. rewrite Hm, Hm'. split; intros (r & Hr & H); exists r;
      (split; [|exact H]); [rewrite <- Hperm|rewrite Hperm]; exact Hr.
Qed.

Lemma process_csv_file_sections_sorted_witness :
  Formatter.section_names (rev formatter_rows) = Formatter.section_names formatter_rows.
Proof.
  apply (process_csv_file_sections_sorted [] formatter_rows).
  symmetry. apply Permutation_rev.
Defined.

(** * Further properties of the code *)

(** ** The formatter: prices, programs and columns *)

Section FormatterValues.
Import Formatter.

Lemma strip_not_available : strip not_available = not_available.
Proof. vm_compute. reflexivity. Qed.

(** What [clean_price] gives, by the stripped value. *)
Lemma clean_price_cases value :
  (clean_price value = not_available
   /\ (strip value = [] \/ strip value = txt "-" \/ strip value = txt "$-"
       \/ strip value = txt "$"))
  \/ (clean_price value = strip value
      /\ strip value <> [] /\ strip value <> txt "-" /\ strip value <> txt "$-"
      /\ strip value <> txt "$").
Proof.
  unfold clean_price. destruct value as [|c v].
  - left. split; [reflexivity|]. left. reflexivity.
  - cbn [is_nonempty negb orb].
    destruct (text_eqb (strip (c :: v)) []) eqn:E1.
    { apply text_eqb_eq in E1. left. auto. }
    destruct (text_eqb (strip (c :: v)) (txt "-")) eqn:E2.
    { apply text_eqb_eq in E2. left. auto. }
    cbn [orb].
    destruct (text_eqb (strip (c :: v)) (txt "$-")) eqn:E3.
    { apply text_eqb_eq in E3. left. auto. }
    destruct (text_eqb (strip (c :: v)) (txt "$")) eqn:E4.
    { apply text_eqb_eq in E4. left. auto 6. }
    right. split; [reflexivity|].
    repeat split; intros E; rewrite E in *; discriminate.
Qed.

End FormatterValues.

(** X1. [clean_price] never returns a placeholder and is idempotent: its
    result is never the empty string, "-", "$-" or "$"; it is the stripped
    value or "Not available"; cleaning a cleaned price changes nothing. *)
Theorem clean_price_idempotent (value : text) :
  let price := Formatter.clean_price value in
  (price = Formatter.not_available \/ price = strip value)
  /\ price <> [] /\ price <> txt "-" /\ price <> txt "$-" /\ price <> txt "$"
  /\ Formatter.clean_price price = price.
Proof.
  intros price. subst price.
  destruct (clean_price_cases value) as [[-> _]|(-> & H1 & H2 & H3 & H4)].
  - split; [left; reflexivity|]. repeat split; try discriminate.
  - split; [right; reflexivity|]. repeat split; try assumption.
    destruct (clean_price_cases (strip value)) as [[_ H]|[H _]].
    + rewrite strip_idem in H. tauto.
    + rewrite H. apply strip_idem.
Qed.

Section FormatterPrograms.
Import Formatter.

Lemma contains_nil_r sub : contains sub [] = true -> sub = [].
Proof. destruct sub; [reflexivity|]. simpl. discriminate. Qed.

(** The test of a cell comes down to: not empty and not the dash. *)
Lemma shows_availability_spec value :
  shows_availability value = true <-> value <> [] /\ value <> txt "-".
Proof.
  unfold shows_availability. split.
  - intros H. apply andb_true_iff in H as [H1 H2].
    split; [intros ->; discriminate|]. intros ->. vm_compute in H2. discriminate.
  - intros [H1 H2]. destruct value as [|c v]; [congruence|]. cbn [is_nonempty andb].
    apply orb_true_iff. right.
    destruct (text_eqb (c :: v) (txt "-")) eqn:E; [|reflexivity].
    apply text_eqb_eq in E. congruence.
Qed.

Lemma program_status_spec rows col_idx :
  (program_status rows col_idx = txt "available"
   <-> exists r v, r ∈ rows /\ r !! col_idx = Some v
                   /\ strip v <> [] /\ strip v <> txt "-")
  /\ (program_status rows col_idx = txt "available"
      \/ program_status rows col_idx = txt "not available").
Proof.
  unfold program_status.
  destruct (existsb _ rows) eqn:E.
  - split; [|left; reflexivity]. split; [intros _|reflexivity].
    apply existsb_exists in E as (r & Hr & H).
    destruct (r !! col_idx) as [v|] eqn:Hv; [|discriminate].
    apply shows_availability_spec in H. exists r, v.
    split; [apply list_elem_of_In; exact Hr|]. tauto.
  - split; [|right; reflexivity]. split; [discriminate|].
    intros (r & v & Hr & Hv & H1 & H2). exfalso.
    assert (existsb (fun r => match r !! col_idx with
                              | Some v => shows_availability (strip v)
                              | None => false
                              end) rows = true) as Hex; [|congruence].
    apply existsb_exists. exists r. split; [apply list_elem_of_In; exact Hr|].
    rewrite Hv. apply shows_availability_spec. tauto.
Qed.

Lemma assoc_get_snoc {V : Type} p k (v : V) d :
  assoc_get p (d ++ [(k, v)])
  = match assoc_get p d with
    | Some x => Some x
    | None => if text_eqb p k then Some v else None
    end.
Proof.
  induction d as [|[k' v'] d IH]; simpl; [reflexivity|].
  destruct (text_eqb p k'); [reflexivity|exact IH].
Qed.

Lemma assoc_get_absent {V : Type} p (d : list (text * V)) :
  p ∉ map fst d -> assoc_get p d = None.
Proof.
  induction d as [|[k v] d IH]; simpl; intros H; [reflexivity|].
  destruct (text_eqb p k) eqn:E.
  - apply text_eqb_eq in E. subst. exfalso. apply H. left.
  - apply IH. intros Hin. apply H. right. exact Hin.
Qed.

(** One header, through the table of programs: a program not detected
    before is detected at this header when the header names it. *)
Lemma detect_programs (idx : nat) (header_lower p : text) :
  forall (progs : list (text * list text)) (det : list (text * nat)),
  NoDup (map fst progs) ->
  assoc_get p
    (foldl (fun det pp =>
              if assoc_has (fst pp) det then det
              else if existsb (header_matches header_lower) (snd pp)
                   then det ++ [(fst pp, idx)]
                   else det) det progs)
  = match assoc_get p det with
    | Some i => Some i
    | None =>
        match assoc_get p progs with
        | Some patterns =>
            if existsb (header_matches header_lower) patterns then Some idx else None
        | None => None
        end
    end.
Proof.
  induction progs as [|[k pats] progs IH]; intros det Hnd; cbn [foldl].
  - simpl. destruct (assoc_get p det); reflexivity.
  - apply NoDup_cons in Hnd as [Hk Hnd]. rewrite IH by exact Hnd. clear IH.
    cbn [fst snd assoc_get]. unfold assoc_has.
    destruct (text_eqb p k) eqn:Epk.
    + apply text_eqb_eq in Epk. subst k.
      rewrite (assoc_get_absent p progs Hk).
      destruct (assoc_get p det) as [i|] eqn:Hd; [rewrite Hd; reflexivity|].
      destruct (existsb (header_matches header_lower) pats).
      * rewrite assoc_get_snoc, Hd, text_eqb_refl. reflexivity.
      * rewrite Hd. reflexivity.
    + destruct (assoc_get k det) as [j|] eqn:Hkd; [reflexivity|].
      destruct (existsb (header_matches header_lower) pats); [|reflexivity].
      rewrite assoc_get_snoc, Epk. destruct (assoc_get p det); reflexivity.
Qed.

Lemma program_names_distinct : NoDup (map fst program_exact_matches).
Proof.
  apply (bool_decide_unpack (NoDup (map fst program_exact_matches))).
  vm_compute. reflexivity.
Qed.

Lemma detect_headers (p : text) : forall (headers : list text) (i : nat) (det : list (text * nat)),
  assoc_get p
    (foldl (fun det ih => detect_in_header (fst ih) (snd ih) det) det
           (DynamicPricing.enumerate_from i headers))
  = match assoc_get p det with
    | Some j => Some j
    | None =>
        match assoc_get p program_exact_matches with
        | Some patterns => DynamicPricing.index_where (names_program patterns) headers i
        | None => None
        end
    end.
Proof.
  induction headers as [|h headers IH]; intros i det.
  - cbn [DynamicPricing.enumerate_from foldl]. destruct (assoc_get p det); [reflexivity|].
    destruct (assoc_get p program_exact_matches); reflexivity.
  - cbn [DynamicPricing.enumerate_from foldl fst snd]. rewrite IH. clear IH.
    unfold detect_in_header. rewrite detect_programs by apply program_names_distinct.
    destruct (assoc_get p det) as [j|]; [reflexivity|].
    destruct (assoc_get p program_exact_matches) as [pats|]; [|reflexivity].
    cbn [DynamicPricing.index_where]. unfold names_program at 2.
    destruct (existsb _ pats); reflexivity.
Qed.

End FormatterPrograms.

(** X2. A program counts as available for a club exactly when one of the
    club's rows has, in the program's column, a cell that is neither blank
    nor a dash; the status is one of "available" and "not available". The
    test for a dollar sign with a digit adds nothing, and a dollar-dash
    cell counts as available. *)
Theorem get_program_availability_spec (rows : list (list text))
    (available_programs : list (text * nat)) :
  Forall2 (fun pc ps =>
             fst ps = fst pc
             /\ (snd ps = txt "available"
                 <-> exists r v, r ∈ rows /\ r !! snd pc = Some v
                                 /\ strip v <> [] /\ strip v <> txt "-")
             /\ (snd ps = txt "available" \/ snd ps = txt "not available"))
          available_programs
          (Formatter.get_program_availability rows available_programs).
Proof.
  unfold Formatter.get_program_availability.
  apply Forall2_fmap_r, Forall_Forall2_diag, Forall_forall. intros [p i] _.
  cbn [fst snd]. split; [reflexivity|]. apply program_status_spec.
Qed.

(** X3. The column detected for a program is the first header that names
    it by one of its patterns; a program none of whose patterns is met has
    no column, and no name outside the table is detected. *)
Theorem detect_availability_columns_first_match (headers : list text) (program : text) :
  Formatter.assoc_get program (Formatter.detect_availability_columns headers)
  = match Formatter.assoc_get program Formatter.program_exact_matches with
    | Some patterns => DynamicPricing.index_where (names_program patterns) headers 0
    | None => None
    end.
Proof.
  unfold Formatter.detect_availability_columns. rewrite detect_headers. reflexivity.
Qed.

Section FormatterRows.
Import Formatter.

Lemma index_where_spec {A : Type} (p : A -> bool) : forall l i j,
  DynamicPricing.index_where p l i = Some j ->
  exists x, (i <= j)%nat /\ l !! (j - i)%nat = Some x /\ p x = true
            /\ Forall (fun y => p y = false) (take (j - i) l).
Proof.
  induction l as [|y l IH]; intros i j H; simpl in H; [discriminate|].
  destruct (p y) eqn:Hy.
  - injection H as <-. exists y. rewrite Nat.sub_diag. simpl.
    repeat split; [lia|exact Hy|constructor].
  - destruct (IH _ _ H) as (x & Hle & Hx & Hp & Hbefore).
    exists x. replace (j - i)%nat with (S (j - S i)) by lia. simpl.
    repeat split; [lia|exact Hx|exact Hp|]. constructor; assumption.
Qed.

(** Rows that are not data rows leave no trace. *)
Lemma read_rows_filter rows : forall acc,
  foldl read_row acc rows
  = foldl read_row acc (filter (fun r => is_data_row r = true) rows).
Proof.
  induction rows as [|r rows IH]; intros acc; [reflexivity|].
  cbn [foldl]. rewrite filter_cons. destruct (decide (is_data_row r = true)) as [Hd|Hd].
  - cbn [foldl]. apply IH.
  - unfold read_row at 2. destruct (is_data_row r); [congruence|]. apply IH.
Qed.

Lemma sorted_nil_iff (l : list text) : sorted l = [] <-> l = [].
Proof.
  unfold sorted. split; intros H.
  - apply Permutation_nil_r. rewrite <- H. symmetry. apply merge_sort_Permutation.
  - subst. reflexivity.
Qed.

End FormatterRows.

(** X4. The column taken for SILVER SNEAKERS is never one whose header
    speaks of soccer or of an academy: the header of the detected column
    meets the pattern "silver sneakers" (it is the pattern, starts with it
    and a space, or ends with a space and it) and contains neither word. *)
Theorem silver_sneakers_column_not_soccer (headers : list text) (idx : nat) :
  Formatter.assoc_get (txt "SILVER SNEAKERS")
    (Formatter.detect_availability_columns headers) = Some idx ->
  exists header,
    headers !! idx = Some header
    /\ contains (txt "soccer") (lower (strip header)) = false
    /\ contains (txt "academy") (lower (strip header)) = false
    /\ (lower (strip header) = txt "silver sneakers"
        \/ starts_with (txt "silver sneakers ") (lower (strip header)) = true
        \/ ends_with (txt " silver sneakers") (lower (strip header)) = true).
Proof.
  unfold Formatter.detect_availability_columns. rewrite detect_headers.
  change (Formatter.assoc_get (txt "SILVER SNEAKERS") [])
    with (@None nat).
  change (Formatter.assoc_get (txt "SILVER SNEAKERS") Formatter.program_exact_matches)
    with (Some [txt "silver sneakers"]).
  intros H. apply index_where_spec in H as (header & _ & Hh & Hp & _).
  rewrite Nat.sub_0_r in Hh. exists header. split; [exact Hh|].
  unfold names_program in Hp. cbn [existsb] in Hp. rewrite orb_false_r in Hp.
  unfold Formatter.header_matches in Hp.
  apply andb_true_iff in Hp as [Hm Hn].
  change (lower (txt "silver sneakers")) with (txt "silver sneakers") in *.
  change (contains (txt "silver sneakers") (txt "silver sneakers")) with true in Hn.
  cbn [andb] in Hn. apply negb_true_iff, orb_false_iff in Hn as [Hn1 Hn2].
  split; [exact Hn1|]. split; [exact Hn2|].
  repeat (apply orb_true_iff in Hm as [Hm|Hm]).
  - left. apply text_eqb_eq in Hm. symmetry. exact Hm.
  - left. apply text_eqb_eq in Hm. exact Hm.
  - right. left. apply starts_with_spec in Hm as [r Hr].
    apply starts_with_spec. exists (txt "-" ++ r). rewrite Hr.
    rewrite <- !app_assoc. reflexivity.
  - right. left. exact Hm.
  - right. right. unfold ends_with in *.
    apply starts_with_spec in Hm as [r Hr]. apply starts_with_spec.
    exists (rev (txt " -") ++ r). rewrite Hr.
    change (rev (txt " - " ++ txt "silver sneakers"))
      with (rev (txt " silver sneakers") ++ rev (txt " -")).
    rewrite <- app_assoc. reflexivity.
  - right. right. exact Hm.
Qed.

Lemma silver_sneakers_column_not_soccer_witness :
  exists header,
    [txt "Club"; txt "Total Soccer Academy Silver Sneakers"; txt " Silver Sneakers - NFC"]
      !! 2%nat = Some header
    /\ contains (txt "soccer") (lower (strip header)) = false
    /\ contains (txt "academy") (lower (strip header)) = false
    /\ (lower (strip header) = txt "silver sneakers"
        \/ starts_with (txt "silver sneakers ") (lower (strip header)) = true
        \/ ends_with (txt " silver sneakers") (lower (strip header)) = true).
Proof.
  apply (silver_sneakers_column_not_soccer
           [txt "Club"; txt "Total Soccer Academy Silver Sneakers";
            txt " Silver Sneakers - NFC"] 2).
  vm_compute. reflexivity.
Defined.

(** X5. The clubs of a network: none for a network name that is empty or
    "NA"; otherwise the names of the clubs registered with that network
    name, one for each club id, in ascending order. *)
Theorem get_network_clubs_spec (local_access local_name club_name : text)
    (all_clubs : list (text * Formatter.club_info)) :
  let clubs := Formatter.get_network_clubs local_access local_name club_name all_clubs in
  if decide (local_name = [] \/ local_name = txt "NA") then clubs = []
  else StronglySorted text_le clubs
       /\ clubs ≡ₚ map (fun kv => Formatter.name (snd kv))
                     (filter (fun kv => Formatter.local_name (snd kv) = local_name)
                             all_clubs).
Proof.
  intros clubs. subst clubs. unfold Formatter.get_network_clubs.
  destruct (decide (local_name = [] \/ local_name = txt "NA")) as [[->| ->]|Hn].
  - reflexivity.
  - reflexivity.
  - assert (E : negb (Formatter.is_nonempty local_name)
                || text_eqb local_name (txt "NA") = false).
    { apply orb_false_iff. split.
      - destruct local_name; [tauto|reflexivity].
      - destruct (text_eqb local_name (txt "NA")) eqn:E; [|reflexivity].
        apply text_eqb_eq in E. tauto. }
    rewrite E. unfold sorted. split; [apply StronglySorted_merge_sort; apply _|].
    rewrite merge_sort_Permutation.
    induction all_clubs as [|[k v] l IH]; [reflexivity|].
    cbn [omap list_omap snd]. rewrite filter_cons. cbn [snd].
    destruct (text_eqb (Formatter.local_name v) local_name) eqn:Ev.
    + apply text_eqb_eq in Ev. rewrite decide_True by exact Ev.
      cbn [map snd]. constructor. exact IH.
    + rewrite decide_False; [exact IH|]. intros Ev'. rewrite Ev', text_eqb_refl in Ev.
      discriminate.
Qed.

(** X6. Rows that are no data rows (fewer than 15 cells, a blank club
    name, or the club name of the header line) have no effect on the
    formatted text. *)
Theorem process_csv_file_skips_rows (headers : list text) (rows : list (list text)) :
  Formatter.process_csv_file (headers :: rows)
  = Formatter.process_csv_file
      (headers :: filter (fun r => Formatter.is_data_row r = true) rows).
Proof.
  unfold Formatter.process_csv_file, Formatter.read_rows.
  rewrite read_rows_filter. reflexivity.
Qed.

(** X7. The formatted text of a CSV with a header line is empty when no
    row is a data row, and opens with a "Club Name: " line otherwise; it
    never opens with "Error", which a file without a header line gives. *)
Theorem process_csv_file_opening (headers : list text) (rows : list (list text)) :
  let output := Formatter.process_csv_file (headers :: rows) in
  (output = [] <-> Forall (fun r => Formatter.is_data_row r = false) rows)
  /\ (output = [] \/ starts_with (txt "Club Name: ") output = true)
  /\ starts_with (txt "Error") output = false
  /\ starts_with (txt "Error") (Formatter.process_csv_file []) = true.
Proof.
  intros output. subst output. unfold Formatter.process_csv_file.
  destruct (club_names_spec rows) as (Hnd & Hf & Hm).
  destruct (Formatter.read_rows rows) as [all_clubs by_name] eqn:Er. cbn [snd] in *.
  destruct (sorted (map fst by_name)) as [|n ns] eqn:Es.
  - cbn [flat_map join]. split; [|split; [left; reflexivity|split; reflexivity]].
    split; [intros _|reflexivity].
    apply (proj1 (sorted_nil_iff _)) in Es. apply Forall_forall. intros r Hr.
    destruct (Formatter.is_data_row r) eqn:Hd; [|reflexivity].
    exfalso. assert (Hin : Formatter.cell r 1 ∈ map fst by_name) by (apply Hm; eauto).
    rewrite Es in Hin. inversion Hin.
  - assert (Hn : n ∈ map fst by_name).
    { assert (n ∈ sorted (map fst by_name)) as Hin by (rewrite Es; left).
      revert Hin. unfold sorted. rewrite (merge_sort_Permutation text_le). tauto. }
    destruct (assoc_get_filled by_name n Hf Hn) as (x & xs & Hg).
    cbn [flat_map].
    assert (exists rest,
              Formatter.club_section all_clubs
                (Formatter.detect_availability_columns headers) n
                (Formatter.rows_of by_name n)
              = (txt "Club Name: " ++ n) :: [] :: rest) as [rest Hs].
    { unfold Formatter.rows_of. rewrite Hg. unfold Formatter.club_section.
      eexists. reflexivity. }
    rewrite Hs. cbn [app join]. rewrite <- !app_assoc.
    split; [|split; [right; reflexivity|split; reflexivity]].
    split; [discriminate|]. intros HF. exfalso.
    apply Hm in Hn as (r & Hr & Hd & _). rewrite Forall_forall in HF.
    rewrite (HF r Hr) in Hd. discriminate.
Qed.

(** ** The splitter: sections, file names and files *)

Section SplitterNames.
Import Splitter.

Lemma prefix_nonempty line :
  starts_with club_name_prefix line = true -> line <> [].
Proof. intros H ->. vm_compute in H. discriminate. Qed.

(** The names of the sections: those closed, the one being read, and the
    header lines still to come. *)
Lemma split_lines_names lines : forall secs club cur,
  match club with Some c => c <> [] /\ cur <> [] | None => True end ->
  map name (split_lines lines secs club cur)
  = map name secs ++ match club with Some c => [c] | None => [] end
    ++ filter (fun l => starts_with club_name_prefix l = true) lines.
Proof.
  assert (Hclose : forall secs club cur,
            match club with Some c => c <> [] /\ cur <> [] | None => True end ->
            map name (close_section club cur secs)
            = map name secs ++ match club with Some c => [c] | None => [] end).
  { intros secs [c|] cur H; unfold close_section; [|rewrite app_nil_r; reflexivity].
    destruct H as [Hc Hcur]. destruct c; [congruence|]. destruct cur; [congruence|].
    cbn [is_nonempty andb]. rewrite map_app. reflexivity. }
  induction lines as [|line lines IH]; intros secs club cur H; cbn [split_lines].
  - rewrite Hclose by exact H. rewrite filter_nil, app_nil_r. reflexivity.
  - rewrite filter_cons. destruct (starts_with club_name_prefix line) eqn:Hp.
    + rewrite decide_True by reflexivity. rewrite IH.
      * rewrite Hclose by exact H. rewrite <- !app_assoc. reflexivity.
      * split; [apply prefix_nonempty; exact Hp|discriminate].
    + rewrite decide_False by discriminate.
      destruct club as [c|]; [|apply IH; exact I].
      destruct H as [Hc Hcur].
      destruct (is_nonempty c); [|apply IH; split; assumption].
      destruct (text_eqb line separator); apply IH; split; try assumption.
      destruct cur; discriminate.
Qed.

End SplitterNames.

(** X8. The splitter returns one section for each line that starts with
    "Club Name: ", in the order of these lines, each named by its line; a
    text without such a line gives no section. *)
Theorem split_club_sections_names (file_text : text) :
  map Splitter.name (Splitter.split_club_sections file_text)
  = filter (fun l => starts_with Splitter.club_name_prefix l = true)
           (Splitter.readlines file_text).
Proof.
  unfold Splitter.split_club_sections. rewrite split_lines_names by exact I.
  reflexivity.
Qed.

Section FileNames.
Import Splitter.

(** A search for one character class finds the first character of the
    class. *)
Lemma search_cls p : forall rest bef,
  (search_from (Cls p) bef rest = None /\ Forall (fun c => p c = false) rest)
  \/ (exists a c b,
        rest = a ++ c :: b /\ Forall (fun c => p c = false) a /\ p c = true
        /\ search_from (Cls p) bef rest
           = Some ((length bef + length a)%nat, S (length bef + length a))).
Proof.
  induction rest as [|c rest IH]; intros bef.
  - left. split; [reflexivity|constructor].
  - cbn [search_from rmatch fst snd]. destruct (p c) eqn:Hc.
    + right. exists [], c, rest. repeat split; [constructor|exact Hc|].
      unfold mpos. cbn [fst length]. rewrite Nat.add_0_r. reflexivity.
    + destruct (IH (c :: bef)) as [[Hn Hf]|(a & d & b & -> & Ha & Hd & Hs)].
      * left. split; [exact Hn|]. constructor; assumption.
      * right. exists (c :: a), d, b. repeat split; [constructor; assumption|exact Hd|].
        rewrite Hs. cbn [length]. f_equal. f_equal; lia.
Qed.

(** Substituting for a character class works character by character. *)
Lemma sub_cls p repl : forall fuel rest bef,
  (length rest < fuel)%nat ->
  sub_from fuel (Cls p) repl bef rest
  = flat_map (fun c => if p c then repl else [c]) rest.
Proof.
  assert (Hid : forall a, Forall (fun c => p c = false) a ->
                  flat_map (fun c => if p c then repl else [c]) a = a).
  { induction 1 as [|c a Hc _ IH]; [reflexivity|]. cbn [flat_map]. rewrite Hc, IH.
    reflexivity. }
  induction fuel as [|fuel IH]; intros rest bef Hl; [lia|].
  cbn [sub_from].
  destruct (search_cls p rest bef) as [[-> Hf]|(a & c & b & -> & Ha & Hc & ->)].
  - symmetry. apply Hid. exact Hf.
  - cbn [fst snd].
    replace (S (length bef + length a) - (length bef + length a))%nat with 1%nat by lia.
    replace (length bef + length a - length bef)%nat with (length a) by lia.
    assert (Hd : drop (length a + 1) (a ++ c :: b) = b).
    { replace (length a + 1)%nat with (length (a ++ [c]))
        by (rewrite length_app; reflexivity).
      rewrite (cons_middle c a b), app_assoc. apply drop_app_length. }
    rewrite take_app_length, Hd.
    rewrite IH by (rewrite length_app in Hl; simpl in Hl; lia).
    rewrite flat_map_app. cbn [flat_map]. rewrite Hc, (Hid a Ha). reflexivity.
Qed.

Lemma re_sub_cls p repl s :
  re_sub (Cls p) repl s = flat_map (fun c => if p c then repl else [c]) s.
Proof. unfold re_sub. apply sub_cls. lia. Qed.

Lemma lstrip_chars_suffix chars s :
  exists ws, s = ws ++ lstrip_chars chars s.
Proof.
  induction s as [|c s [ws E]]; simpl.
  - exists []. reflexivity.
  - destruct (existsb (chr_eqb c) chars).
    + exists (c :: ws). simpl. rewrite <- E. reflexivity.
    + exists []. reflexivity.
Qed.

Lemma lstrip_chars_head chars s :
  match lstrip_chars chars s with
  | [] => True
  | c :: _ => existsb (chr_eqb c) chars = false
  end.
Proof.
  induction s as [|c s IH]; simpl; [exact I|].
  destruct (existsb (chr_eqb c) chars) eqn:Hc; [exact IH|exact Hc].
Qed.

Lemma lstrip_chars_fixed chars s :
  match s with [] => True | c :: _ => existsb (chr_eqb c) chars = false end ->
  lstrip_chars chars s = s.
Proof. destruct s as [|c s]; simpl; [reflexivity|]. intros ->. reflexivity. Qed.

Lemma strip_chars_Forall (P : ascii -> Prop) chars s :
  Forall P s -> Forall P (strip_chars chars s).
Proof.
  intros H. unfold strip_chars, rstrip_chars. apply Forall_rev.
  destruct (lstrip_chars_suffix chars (rev (lstrip_chars chars s))) as [ws E].
  assert (H2 : Forall P (rev (lstrip_chars chars s))).
  { apply Forall_rev. destruct (lstrip_chars_suffix chars s) as [ws' E'].
    rewrite E' in H. apply Forall_app in H. tauto. }
  rewrite E in H2. apply Forall_app in H2. tauto.
Qed.

(** Neither end of a stripped text is one of the characters stripped. *)
Lemma strip_chars_ends chars s :
  match strip_chars chars s with
  | [] => True
  | c :: _ => existsb (chr_eqb c) chars = false
  end
  /\ match rev (strip_chars chars s) with
     | [] => True
     | c :: _ => existsb (chr_eqb c) chars = false
     end.
Proof.
  unfold strip_chars, rstrip_chars. set (t := lstrip_chars chars s).
  split.
  - pose proof (lstrip_chars_head chars s) as Hh. fold t in Hh.
    destruct (lstrip_chars_suffix chars (rev t)) as [ws E].
    apply (f_equal (@rev ascii)) in E. rewrite rev_involutive, rev_app_distr in E.
    destruct (rev (lstrip_chars chars (rev t))) as [|d r]; [exact I|].
    rewrite E in Hh. exact Hh.
  - rewrite rev_involutive. apply lstrip_chars_head.
Qed.

Lemma last_rev_head {A : Type} (l : list A) : last l = head (rev l).
Proof.
  induction l as [|x l _] using rev_ind; [reflexivity|].
  rewrite last_snoc, rev_app_distr. reflexivity.
Qed.

(** A text that lacks a character of [sub] does not contain [sub]. *)
Lemma contains_lacking sub s c :
  c ∈ sub -> c ∉ s -> contains sub s = false.
Proof.
  intros Hc Hs. destruct (contains sub s) eqn:E; [|reflexivity]. exfalso.
  apply contains_spec in E as (a & b & ->). apply Hs.
  rewrite !elem_of_app. auto.
Qed.

Lemma clean_filename_chars club_name :
  Forall (fun c => invalid_filename_char c = false /\ c <> " "%char)
         (clean_filename club_name).
Proof.
  unfold clean_filename. apply strip_chars_Forall.
  change (txt " ") with [" "%char]. change (txt "_") with ["_"%char].
  rewrite replace_char_map, re_sub_cls.
  apply Forall_forall. intros c Hc. apply list_elem_of_fmap in Hc as (d & -> & Hd).
  apply list_elem_of_In, in_flat_map in Hd as (e & _ & He).
  destruct (invalid_filename_char e) eqn:Hi.
  - apply list_elem_of_In, list_elem_of_singleton in He. subst d.
    split; [reflexivity|discriminate].
  - apply list_elem_of_In, list_elem_of_singleton in He. subst d.
    destruct (chr_eqb " " e) eqn:Hs; [split; [reflexivity|discriminate]|].
    split; [exact Hi|]. intros ->. discriminate.
Qed.

End FileNames.

(** X9. A cleaned file name holds none of the characters <, >, colon,
    double quote, slash, backslash, bar, question mark, star, and no
    space; it neither starts nor ends with a dot; cleaning it again
    changes nothing. *)
Theorem clean_filename_valid (club_name : text) :
  let filename := Splitter.clean_filename club_name in
  Forall (fun c => Splitter.invalid_filename_char c = false /\ c <> " "%char) filename
  /\ head filename <> Some "."%char
  /\ last filename <> Some "."%char
  /\ Splitter.clean_filename filename = filename.
Proof.
  intros filename. pose proof (clean_filename_chars club_name) as Hc. fold filename in Hc.
  split; [exact Hc|].
  destruct (strip_chars_ends (txt ". ")
              (str_replace (txt " ") (txt "_")
                 (re_sub (Cls Splitter.invalid_filename_char) (txt "_")
                    (str_replace Splitter.club_name_prefix [] club_name))))
    as [H1 H2].
  change (strip_chars _ _) with filename in H1, H2. clearbody filename.
  split; [|split].
  - destruct filename as [|c r]; simpl; [congruence|]. intros E. injection E as ->.
    vm_compute in H1. discriminate.
  - rewrite last_rev_head.
    destruct (rev filename) as [|c r]; simpl; [congruence|]. intros E. injection E as ->.
    vm_compute in H2. discriminate.
  - assert (Hsp : " "%char ∉ filename).
    { intros Hin. rewrite Forall_forall in Hc. destruct (Hc _ Hin) as [_ Hne]. congruence. }
    unfold Splitter.clean_filename at 1.
    rewrite (str_replace_absent Splitter.club_name_prefix [] filename).
    2:{ discriminate. }
    2:{ apply (contains_lacking _ _ " "%char); [|exact Hsp].
        vm_compute. repeat (first [left; reflexivity | right]). }
    rewrite re_sub_cls.
    assert (Hid : flat_map (fun c => if Splitter.invalid_filename_char c then txt "_" else [c])
                    filename = filename).
    { clear -Hc. induction Hc as [|c l [Hi _] _ IH]; [reflexivity|].
      cbn [flat_map]. rewrite Hi, IH. reflexivity. }
    rewrite Hid. rewrite str_replace_absent.
    2:{ discriminate. }
    2:{ apply (contains_lacking _ _ " "%char); [left|exact Hsp]. }
    unfold strip_chars, rstrip_chars.
    rewrite (lstrip_chars_fixed _ filename H1), (lstrip_chars_fixed _ (rev filename) H2).
    apply rev_involutive.
Qed.

Section ClubFiles.
Import Splitter.

Lemma attempts_snoc write club_sections club :
  attempts write (club_sections ++ [club])
  = attempts write club_sections ++ [(club, write (length club_sections))].
Proof.
  unfold attempts. rewrite imap_app. cbn [imap]. rewrite Nat.add_0_r. reflexivity.
Qed.

Lemma save_club_files_snoc write club_sections club directory :
  save_club_files write (club_sections ++ [club]) directory
  = save_club_file club (write (length club_sections))
      (save_club_files write club_sections directory).
Proof. unfold save_club_files. rewrite attempts_snoc, foldl_app. reflexivity. Qed.

Lemma save_club_files_count write club_sections directory :
  fst (save_club_files write club_sections directory)
  = length (filter (fun a => is_written (snd a) = true) (attempts write club_sections)).
Proof.
  induction club_sections as [|club l IH] using rev_ind; [reflexivity|].
  rewrite save_club_files_snoc, attempts_snoc, filter_app, length_app, <- IH.
  rewrite filter_cons, filter_nil. cbn [snd]. unfold save_club_file.
  destruct (write (length l)); cbn [is_written fst];
    [rewrite decide_True by reflexivity|rewrite decide_False by discriminate..];
    cbn [length]; lia.
Qed.

Lemma written_le (tries : list (club_section * write_outcome)) :
  (length (filter (fun a => is_written (snd a) = true) tries) <= length tries)%nat.
Proof.
  induction tries as [|a l IH]; [reflexivity|].
  rewrite filter_cons. destruct (decide _); simpl; lia.
Qed.

Lemma attempts_length write club_sections :
  length (attempts write club_sections) = length club_sections.
Proof. unfold attempts. apply length_imap. Qed.

Lemma all_written club_sections :
  filter (fun a => is_written (snd a) = true) (attempts (fun _ => Written) club_sections)
  = attempts (fun _ => Written) club_sections.
Proof.
  induction club_sections as [|club l IH] using rev_ind; [reflexivity|].
  rewrite attempts_snoc, filter_app, IH. reflexivity.
Qed.

End ClubFiles.

(** X10. Saving the club files counts the sections whose file was written
    without an exception: all of them when every write succeeds, fewer
    when one is refused. A file holds what the last attempt on its name
    left: the content of the last section whose name cleans to the file's
    name when that write succeeded, so that of two sections with the same
    cleaned name the later overwrites the earlier; an attempt that could
    not open the file leaves no trace; the other files of the directory
    stay as they are. *)
Theorem save_club_files_last_wins (write : nat -> Splitter.write_outcome)
    (club_sections : list Splitter.club_section)
    (output_directory : gmap text text) (filename : text) :
  let saved := Splitter.save_club_files write club_sections output_directory in
  let tries := Splitter.attempts write club_sections in
  fst saved
  = length (filter (fun a => Splitter.is_written (snd a) = true) tries)
  /\ (fst saved <= length club_sections)%nat
  /\ fst (Splitter.save_club_files (fun _ => Splitter.Written) club_sections
            output_directory)
     = length club_sections
  /\ snd saved !! filename
     = match last (omap (fun a =>
                           if decide (Splitter.clean_filename (Splitter.name (fst a))
                                      = filename)
                           then Splitter.file_left (Splitter.content (fst a)) (snd a)
                           else None)
                        tries) with
       | Some left_text => Some left_text
       | None => output_directory !! filename
       end.
Proof.
  cbn zeta. split; [apply save_club_files_count|].
  split.
  { rewrite save_club_files_count, <- (attempts_length write club_sections).
    apply written_le. }
  split.
  { rewrite save_club_files_count, all_written. apply attempts_length. }
  induction club_sections as [|club l IH] using rev_ind; [reflexivity|].
  rewrite save_club_files_snoc, attempts_snoc, omap_app.
  unfold Splitter.save_club_file.
  change (omap ?f [(club, write (length l))])
    with (match (if decide (Splitter.clean_filename (Splitter.name club) = filename)
                 then Splitter.file_left (Splitter.content club) (write (length l))
                 else None) with
          | Some y => [y]
          | None => []
          end).
  destruct (decide (Splitter.clean_filename (Splitter.name club) = filename)) as [E|E].
  - destruct (write (length l)) as [| |written]; cbn [Splitter.file_left snd].
    + rewrite last_snoc, E, lookup_insert_eq. reflexivity.
    + rewrite app_nil_r. exact IH.
    + rewrite last_snoc, E, lookup_insert_eq. reflexivity.
  - rewrite app_nil_r.
    destruct (write (length l)) as [| |written]; cbn [snd];
      [rewrite lookup_insert_ne by exact E| |rewrite lookup_insert_ne by exact E];
      exact IH.
Qed.

(** ** From the formatter to the splitter *)

Section SplitSections.
Import Splitter.

Lemma lines_go_line l : forall cur rest,
  no_nl l -> lines_go cur (l ++ nl :: rest) = (rev cur ++ l) :: lines_go [] rest.
Proof.
  induction l as [|c l IH]; intros cur rest H.
  - cbn [app lines_go]. change (chr_eqb nl nl) with true. cbn iota.
    rewrite app_nil_r. reflexivity.
  - inversion H as [|? ? Hc Hl]; subst. cbn [app lines_go]. rewrite Hc.
    rewrite IH by exact Hl. cbn [rev]. rewrite <- app_assoc. reflexivity.
Qed.

Lemma join_cons sep (l : text) ls :
  ls <> [] -> join sep (l :: ls) = l ++ sep ++ join sep ls.
Proof. destruct ls; [congruence|reflexivity]. Qed.

Lemma join_snoc sep ls (x : text) :
  ls <> [] -> join sep (ls ++ [x]) = join sep ls ++ sep ++ x.
Proof.
  induction ls as [|l ls IH]; intros H; [congruence|].
  destruct ls as [|l2 ls]; [reflexivity|].
  change ((l :: l2 :: ls) ++ [x]) with (l :: ((l2 :: ls) ++ [x])).
  rewrite join_cons by (cbn; discriminate).
  rewrite IH by discriminate. rewrite (join_cons sep l (l2 :: ls)) by discriminate.
  rewrite <- !app_assoc. reflexivity.
Qed.

(** Reading back the lines written with a line end after each. *)
Lemma readlines_join ls :
  Forall no_nl ls -> readlines (join [nl] (ls ++ [[]])) = ls.
Proof.
  induction 1 as [|l ls Hl _ IH]; [reflexivity|].
  change ((l :: ls) ++ [[]]) with (l :: (ls ++ [[]])).
  rewrite join_cons by (destruct ls; cbn; discriminate).
  unfold readlines in *. cbn [app]. rewrite lines_go_line by exact Hl.
  rewrite IH. reflexivity.
Qed.

(** The lines of a section after its header line: those that are not the
    separator are kept. *)
Lemma split_body b : forall rest acc h cur,
  h <> [] -> Forall (fun l => starts_with club_name_prefix l = false) b ->
  split_lines (b ++ rest) acc (Some h) cur
  = split_lines rest acc (Some h) (cur ++ filter (fun l => l <> separator) b).
Proof.
  induction b as [|l b IH]; intros rest acc h cur Hh Hb.
  - rewrite filter_nil, app_nil_r. reflexivity.
  - inversion Hb as [|? ? Hl Hb']; subst. cbn [app split_lines]. rewrite Hl.
    destruct h as [|c h]; [congruence|]. cbn [is_nonempty].
    rewrite filter_cons. destruct (text_eqb l separator) eqn:E.
    + apply text_eqb_eq in E. rewrite decide_False by (intros Hne; congruence).
      apply IH; assumption.
    + rewrite decide_True.
      2:{ intros ->. rewrite text_eqb_refl in E. discriminate. }
      rewrite IH by assumption. rewrite <- app_assoc. reflexivity.
Qed.

(** A text made of sections, each a header line and its lines, gives
    these sections. *)
Lemma split_sections secs : forall acc club cur,
  Forall (fun hb : text * list text =>
            starts_with club_name_prefix (fst hb) = true
            /\ Forall (fun l => starts_with club_name_prefix l = false) (snd hb)) secs ->
  split_lines (flat_map (fun hb => fst hb :: snd hb) secs) acc club cur
  = close_section club cur acc
    ++ map (fun hb => {| name := fst hb;
                         content := join [nl] (fst hb :: filter (fun l => l <> separator) (snd hb)) |})
           secs.
Proof.
  induction secs as [|[h b] secs IH]; intros acc club cur H.
  - cbn [flat_map split_lines map]. rewrite app_nil_r. reflexivity.
  - inversion H as [|? ? [Hh Hb] Hrest]; subst. cbn [fst snd] in *.
    cbn [flat_map fst snd]. cbn [app split_lines]. rewrite Hh.
    assert (Hne : h <> []) by (apply prefix_nonempty; exact Hh).
    rewrite split_body by assumption. rewrite IH by exact Hrest.
    cbn [map fst snd]. unfold close_section at 1.
    destruct h as [|c h]; [congruence|]. cbn [is_nonempty andb app].
    rewrite <- app_assoc. reflexivity.
Qed.

Lemma as_read_lines secs :
  secs <> [] ->
  flat_map (fun hb => fst hb :: snd hb ++ [separator; []]) secs
  = flat_map (fun hb => fst hb :: snd hb) (as_read secs) ++ [[]].
Proof.
  induction secs as [|[h b] secs IH]; intros H; [congruence|].
  destruct secs as [|hb2 secs].
  - cbn [flat_map as_read fst snd app]. rewrite !app_nil_r.
    rewrite <- app_assoc. reflexivity.
  - set (f := fun hb : text * list text => fst hb :: snd hb ++ [separator; []]) in *.
    set (g := fun hb : text * list text => fst hb :: snd hb) in *.
    change (f (h, b) ++ flat_map f (hb2 :: secs)
            = (g (h, b ++ [separator; []]) ++ flat_map g (as_read (hb2 :: secs))) ++ [[]]).
    rewrite IH by discriminate. unfold f, g. cbn [fst snd].
    rewrite <- !app_assoc. reflexivity.
Qed.

Lemma filter_plain b tail :
  Forall (fun l => l <> separator) b ->
  filter (fun l => l <> separator) (b ++ separator :: tail)
  = b ++ filter (fun l => l <> separator) tail.
Proof.
  intros H. rewrite filter_app, filter_cons, decide_False by tauto.
  f_equal. induction H as [|l b Hl _ IH]; [reflexivity|].
  rewrite filter_cons, decide_True by exact Hl. f_equal. exact IH.
Qed.

End SplitSections.

Section FormattedLines.
Import Formatter.

Lemma no_nl_check t : forallb (fun c => negb (chr_eqb c nl)) t = true -> no_nl t.
Proof.
  intros H. apply Forall_forall. intros c Hc.
  rewrite forallb_forall in H. apply negb_true_iff, H, list_elem_of_In, Hc.
Qed.

Lemma one_line_no_nl t : one_line t = true -> no_nl t.
Proof.
  intros H. apply Forall_forall. intros c Hc. unfold one_line in H.
  rewrite forallb_forall in H. specialize (H c (proj1 (list_elem_of_In _ _) Hc)).
  apply andb_true_iff in H as [H _]. apply negb_true_iff in H. exact H.
Qed.

Lemma no_nl_app a b : no_nl a -> no_nl b -> no_nl (a ++ b).
Proof. intros Ha Hb. apply Forall_app. split; assumption. Qed.

Lemma no_nl_join sep parts :
  no_nl sep -> Forall no_nl parts -> no_nl (join sep parts).
Proof.
  intros Hs. induction 1 as [|p ps Hp Hps IH]; [constructor|].
  destruct ps as [|q ps]; [exact Hp|].
  change (join sep (p :: q :: ps)) with (p ++ sep ++ join sep (q :: ps)).
  repeat apply no_nl_app; assumption.
Qed.

Lemma no_nl_cell r i : Forall no_nl r -> no_nl (cell r i).
Proof.
  intros H. unfold cell. destruct (r !! i) as [v|] eqn:E; [|constructor].
  apply strip_Forall. exact (Forall_lookup_1 _ _ _ _ H E).
Qed.

Lemma no_nl_clean_price v : no_nl v -> no_nl (clean_price v).
Proof.
  intros H. destruct (clean_price_cases v) as [[-> _]|[-> _]].
  - apply no_nl_check. reflexivity.
  - apply strip_Forall. exact H.
Qed.

Lemma plain_cell_no_nl (r : list text) i :
  Forall no_nl r ->
  no_nl match r !! i with
        | Some v => if is_nonempty (strip v) then strip v else not_available
        | None => not_available
        end.
Proof.
  intros H. assert (Hna : no_nl not_available) by (apply no_nl_check; reflexivity).
  destruct (r !! i) as [v|] eqn:E; [|exact Hna].
  destruct (is_nonempty (strip v)); [|exact Hna].
  apply strip_Forall. exact (Forall_lookup_1 _ _ _ _ H E).
Qed.

Lemma price_cell_no_nl (r : list text) i :
  Forall no_nl r ->
  no_nl match r !! i with
        | Some v => clean_price v
        | None => not_available
        end.
Proof.
  intros H. destruct (r !! i) as [v|] eqn:E; [|apply no_nl_check; reflexivity].
  apply no_nl_clean_price. exact (Forall_lookup_1 _ _ _ _ H E).
Qed.

Lemma prices_no_nl r : Forall no_nl r -> prices_one_line (prices_of r).
Proof.
  intros H. unfold prices_of, prices_one_line.
  destruct (text_eqb (cell r 6) (txt "Member Type")); cbn [fst snd];
    repeat split; first [apply plain_cell_no_nl | apply price_cell_no_nl]; exact H.
Qed.

Lemma fee_data_no_nl rs : forall fd : gmap text (text * text * text),
  (forall ft d, fd !! ft = Some d -> prices_one_line d) ->
  Forall (Forall no_nl) rs ->
  forall ft d,
    foldl (fun fd r => if (length r <? 15)%nat then fd
                       else <[cell r 6 := prices_of r]> fd) fd rs !! ft = Some d ->
    prices_one_line d.
Proof.
  induction rs as [|r rs IH]; intros fd Hfd Hrs; [exact Hfd|].
  inversion Hrs as [|? ? Hr Hrs']; subst. cbn [foldl]. apply IH; [|exact Hrs'].
  destruct (length r <? 15)%nat; [exact Hfd|].
  intros ft d. destruct (decide (cell r 6 = ft)) as [<-|Hne].
  - rewrite lookup_insert_eq. intros [= <-]. apply prices_no_nl. exact Hr.
  - rewrite lookup_insert_ne by exact Hne. apply Hfd.
Qed.

Lemma plain_not_header l :
  plain_line l -> starts_with Splitter.club_name_prefix l = false.
Proof.
  intros (_ & H & _). destruct (starts_with Splitter.club_name_prefix l) eqn:E; [|reflexivity].
  apply starts_with_spec in E as [r ->].
  change (Splitter.club_name_prefix ++ r) with (txt "Cl" ++ (txt "ub Name: " ++ r)) in H.
  rewrite starts_with_app in H. discriminate.
Qed.

Lemma plain_not_separator l : plain_line l -> l <> Splitter.separator.
Proof. intros (_ & _ & H) ->. vm_compute in H. discriminate. Qed.

Lemma plain_empty : plain_line [].
Proof. repeat split. constructor. Qed.

Lemma plain_word_line w rest : plain_word w -> no_nl rest -> plain_line (w ++ rest).
Proof.
  intros [Hw H] Hr. destruct (H rest) as [H1 H2].
  split; [apply no_nl_app; assumption|]. split; assumption.
Qed.

Lemma fee_types_plain : Forall plain_word fee_types.
Proof.
  unfold fee_types. cbn [map].
  repeat (apply Forall_cons_2;
          [split; [apply no_nl_check; reflexivity|intros rest; split; reflexivity]|]).
  apply Forall_nil_2.
Qed.

Lemma program_order_plain : Forall plain_word program_order.
Proof.
  unfold program_order. cbn [map].
  repeat (apply Forall_cons_2;
          [split; [apply no_nl_check; reflexivity|intros rest; split; reflexivity]|]).
  apply Forall_nil_2.
Qed.

Lemma fee_line_plain ft d :
  ft ∈ fee_types -> prices_one_line d -> plain_line (fee_line ft d).
Proof.
  intros Hft (H1 & H2 & H3). unfold fee_line.
  apply plain_word_line.
  - pose proof fee_types_plain as H. rewrite Forall_forall in H. apply H, Hft.
  - repeat apply no_nl_app; try assumption; apply no_nl_check; reflexivity.
Qed.

Lemma status_one_line rows program (programs : list (text * nat)) :
  no_nl match assoc_get program (get_program_availability rows programs) with
        | Some status => status
        | None => txt "not available"
        end.
Proof.
  unfold get_program_availability.
  induction programs as [|[p i] programs IH]; cbn [map assoc_get fst snd].
  - apply no_nl_check. reflexivity.
  - destruct (text_eqb program p); [|exact IH].
    destruct (proj2 (program_status_spec rows i)) as [-> | ->];
      apply no_nl_check; reflexivity.
Qed.

Lemma join_head sep (p : text) ps : exists rest, join sep (p :: ps) = p ++ rest.
Proof.
  destruct ps as [|q ps].
  - exists []. simpl. rewrite app_nil_r. reflexivity.
  - eexists. reflexivity.
Qed.

Lemma availability_lines_plain rows programs :
  Forall plain_line (availability_lines rows programs).
Proof.
  unfold availability_lines. destruct programs as [|pc programs]; [constructor|].
  set (progs := pc :: programs).
  set (parts := omap _ program_order).
  assert (Hparts : Forall (fun part => exists program rest,
                             program ∈ program_order /\ no_nl rest
                             /\ part = program ++ rest) parts).
  { apply Forall_forall. intros part Hp. subst parts.
    apply list_elem_of_omap in Hp as (program & Hin & Hp).
    destruct (assoc_has program progs); [|discriminate].
    exists program,
      (txt ": " ++ match assoc_get program (get_program_availability rows progs) with
                   | Some status => status
                   | None => txt "not available"
                   end).
    split; [exact Hin|]. split; [|congruence].
    apply no_nl_app; [apply no_nl_check; reflexivity|]. apply status_one_line. }
  destruct parts as [|part parts]; [constructor|].
  constructor; [|constructor; [|constructor]].
  - apply (plain_word_line (txt "Availability:") []); [|constructor].
    split; [apply no_nl_check; reflexivity|intros rest; split; reflexivity].
  - pose proof program_order_plain as Hplain. rewrite Forall_forall in Hplain.
    assert (Hnl : Forall no_nl (part :: parts)).
    { eapply Forall_impl; [exact Hparts|]. intros p (program & rest & Hin & Hr & ->).
      apply no_nl_app; [|exact Hr]. exact (proj1 (Hplain _ Hin)). }
    split; [apply no_nl_join; [apply no_nl_check; reflexivity|exact Hnl]|].
    inversion Hparts as [|? ? (program & rest & Hin & Hr & ->) _]; subst.
    destruct (join_head (txt " | ") (program ++ rest) parts) as [rest' ->].
    rewrite <- app_assoc. exact (proj2 (Hplain _ Hin) (rest ++ rest')).
Qed.

Lemma network_clubs_one_line local_access local_name club_name
    (all_clubs : list (text * club_info)) :
  Forall (fun kv => no_nl (name (snd kv))) all_clubs ->
  Forall no_nl (get_network_clubs local_access local_name club_name all_clubs).
Proof.
  intros H. unfold get_network_clubs. destruct (_ || _); [constructor|].
  unfold sorted. rewrite merge_sort_Permutation.
  apply Forall_forall. intros x Hx.
  apply list_elem_of_omap in Hx as (kv & Hin & Hx).
  destruct (text_eqb _ _); [|discriminate]. injection Hx as <-.
  rewrite Forall_forall in H. apply H, Hin.
Qed.

(** The lines of a club section: the header line, plain lines, the
    separator and an empty line. *)
Lemma club_section_shape all_clubs programs club_name first_row rows :
  no_nl club_name ->
  Forall (Forall no_nl) (first_row :: rows) ->
  Forall (fun kv => no_nl (name (snd kv))) all_clubs ->
  exists body,
    club_section all_clubs programs club_name (first_row :: rows)
    = (txt "Club Name: " ++ club_name) :: body ++ [Splitter.separator; []]
    /\ Forall plain_line body.
Proof.
  intros Hn Hrows Hclubs. unfold club_section.
  set (fees := omap _ fee_types). set (avail := availability_lines _ _).
  set (has_network := is_nonempty (cell first_row 3)
                      && negb (text_eqb (cell first_row 3) (txt "NA"))).
  set (has_elevate := is_nonempty (cell first_row 5) && negb _).
  match goal with
  | |- context [ [?n] ++ [?e] ++ [[]] ++ avail ++ _ ] =>
      exists ([[]; txt "Pricing Details:"] ++ fees ++ [[]; n; e; []] ++ avail)
  end.
  split.
  { change separator with Splitter.separator. cbn [app].
    rewrite <- !app_assoc. reflexivity. }
  assert (Hfirst : Forall no_nl first_row) by (inversion Hrows; assumption).
  assert (Hword : forall w, no_nl w ->
            (forall rest, starts_with (txt "Cl") (w ++ rest) = false
                          /\ starts_with (txt "=") (w ++ rest) = false) ->
            plain_word w) by (intros w H1 H2; split; assumption).
  apply Forall_cons_2; [apply plain_empty|]. apply Forall_cons_2.
  { apply (plain_word_line (txt "Pricing Details:") []); [|constructor].
    apply Hword; [apply no_nl_check; reflexivity|intros rest; split; reflexivity]. }
  apply Forall_app. split.
  { apply Forall_forall. intros line Hl. subst fees.
    apply list_elem_of_omap in Hl as (ft & Hft & Hl).
    destruct (fee_data_of (first_row :: rows) !! ft) as [d|] eqn:Hd; [|discriminate].
    injection Hl as <-. apply fee_line_plain; [exact Hft|].
    unfold fee_data_of in Hd. eapply fee_data_no_nl; [|exact Hrows|exact Hd].
    intros ? ? E. rewrite lookup_empty in E. discriminate. }
  apply Forall_cons_2; [apply plain_empty|]. apply Forall_cons_2.
  { destruct has_network.
    + apply (plain_word_line (txt "Network Name: ")).
      * apply Hword; [apply no_nl_check; reflexivity|intros rest; split; reflexivity].
      * repeat apply no_nl_app; try (apply no_nl_check; reflexivity).
        -- apply no_nl_cell. exact Hfirst.
        -- apply no_nl_join; [apply no_nl_check; reflexivity|].
           apply network_clubs_one_line. exact Hclubs.
    + apply (plain_word_line (txt "Network Name: Not available (Other Clubs: )") []);
        [|constructor].
      apply Hword; [apply no_nl_check; reflexivity|intros rest; split; reflexivity]. }
  apply Forall_cons_2.
  { destruct has_elevate.
    + apply (plain_word_line (txt "Elevate Offering: ")).
      * apply Hword; [apply no_nl_check; reflexivity|intros rest; split; reflexivity].
      * apply strip_Forall, no_nl_cell. exact Hfirst.
    + apply (plain_word_line (txt "Elevate Offering: Not available") []); [|constructor].
      apply Hword; [apply no_nl_check; reflexivity|intros rest; split; reflexivity]. }
  apply Forall_cons_2; [apply plain_empty|]. apply availability_lines_plain.
Qed.

End FormattedLines.

Section FormatterToSplitter.
Import Formatter.

Lemma assoc_append_cells {V : Type} (P : V -> Prop) k x d :
  Forall (fun kv => Forall P (snd kv)) d -> P x ->
  Forall (fun kv => Forall P (snd kv)) (assoc_append k x d).
Proof.
  intros Hd Hx. induction Hd as [|[k' xs] d Hk Hd IH]; simpl.
  - repeat constructor. exact Hx.
  - destruct (text_eqb k k'); constructor; try assumption.
    simpl in *. apply Forall_app. split; [exact Hk|]. constructor; [exact Hx|constructor].
Qed.

(** The rows kept for a club are rows of the input. *)
Lemma add_rows_cells (P : list text -> Prop) rows : forall d,
  Forall (fun kv => Forall P (snd kv)) d -> Forall P rows ->
  Forall (fun kv => Forall P (snd kv)) (foldl add_row d rows).
Proof.
  induction rows as [|r rows IH]; intros d Hd Hrows; [exact Hd|].
  inversion Hrows as [|? ? Hr Hrows']; subst. cbn [foldl]. apply IH; [|exact Hrows'].
  unfold add_row. destruct (is_data_row r); [|exact Hd].
  apply assoc_append_cells; assumption.
Qed.

Lemma assoc_get_Forall {V : Type} (P : V -> Prop) n (d : list (text * V)) v :
  Forall (fun kv => P (snd kv)) d -> assoc_get n d = Some v -> P v.
Proof.
  induction 1 as [|[k x] d Hk _ IH]; simpl; [discriminate|].
  destruct (text_eqb n k); [|exact IH]. intros [= <-]. exact Hk.
Qed.

(** The clubs registered are clubs of the input. *)
Lemma read_rows_clubs rows : forall acc,
  Forall (fun kv => no_nl (name (snd kv))) (fst acc) ->
  Forall (Forall no_nl) rows ->
  Forall (fun kv => no_nl (name (snd kv))) (fst (foldl read_row acc rows)).
Proof.
  induction rows as [|r rows IH]; intros acc Hacc Hrows; [exact Hacc|].
  inversion Hrows as [|? ? Hr Hrows']; subst. cbn [foldl]. apply IH; [|exact Hrows'].
  unfold read_row. destruct (is_data_row r); [|exact Hacc]. cbn [fst].
  destruct (assoc_has (cell r 0) (fst acc)); [exact Hacc|].
  apply Forall_app. split; [exact Hacc|]. constructor; [|constructor].
  cbn [snd info_of name]. apply no_nl_cell. exact Hr.
Qed.

Lemma Forall_exists_Forall2 {A B : Type} (P : A -> B -> Prop) l :
  Forall (fun a => exists b, P a b) l -> exists bs, Forall2 P l bs.
Proof.
  induction 1 as [|a l [b Hb] _ [bs IH]].
  - exists []. constructor.
  - exists (b :: bs). constructor; assumption.
Qed.

Lemma as_read_spec secs :
  Forall2 (fun hb hb' : text * list text =>
             fst hb' = fst hb
             /\ (snd hb' = snd hb ++ [Splitter.separator]
                 \/ snd hb' = snd hb ++ [Splitter.separator; []]))
          secs (as_read secs).
Proof.
  induction secs as [|[h b] secs IH]; [constructor|].
  destruct secs as [|hb2 secs].
  - constructor; [|constructor]. split; [reflexivity|left; reflexivity].
  - change (as_read ((h, b) :: hb2 :: secs))
      with ((h, b ++ [Splitter.separator; []]) :: as_read (hb2 :: secs)).
    constructor; [|exact IH]. split; [reflexivity|right; reflexivity].
Qed.

End FormatterToSplitter.

(** X11. Splitting the text the formatter writes gives one section for
    each club, in the order of the formatter's sections: the section of a
    club is named by its "Club Name: " line, and its content is the club's
    formatted lines up to the separator line. The cells of the CSV are
    taken to stand on one line each, so that the text read back is the
    text written. *)
Theorem split_formatted_sections (headers : list text) (rows : list (list text)) :
  Forall (Forall (fun cell => one_line cell = true)) rows ->
  let all_clubs := fst (Formatter.read_rows rows) in
  let club_data_by_name := snd (Formatter.read_rows rows) in
  let programs := Formatter.detect_availability_columns headers in
  Forall2 (fun club_name sec =>
             Splitter.name sec = txt "Club Name: " ++ club_name
             /\ let formatted :=
                  join [nl] (Formatter.club_section all_clubs programs club_name
                               (Formatter.rows_of club_data_by_name club_name)) in
                formatted = Splitter.content sec ++ Splitter.separator ++ [nl]
                \/ formatted = Splitter.content sec ++ [nl] ++ Splitter.separator ++ [nl])
          (Formatter.section_names rows)
          (Splitter.split_club_sections (Formatter.process_csv_file (headers :: rows))).
Proof.
  intros Hcells all_clubs by_name programs.
  assert (Hrows : Forall (Forall no_nl) rows).
  { eapply Forall_impl; [exact Hcells|]. intros r Hr.
    eapply Forall_impl; [exact Hr|]. intros c. apply one_line_no_nl. }
  clear Hcells.
  destruct (club_names_spec rows) as (Hnd & Hf & Hm). fold by_name in Hnd, Hf, Hm.
  assert (Hclubs : Forall (fun kv => no_nl (Formatter.name (snd kv))) all_clubs).
  { apply read_rows_clubs; [constructor|exact Hrows]. }
  assert (Hkept : Forall (fun kv => Forall (Forall no_nl) (snd kv)) by_name).
  { subst by_name. unfold Formatter.read_rows. rewrite read_rows_by_name.
    apply add_rows_cells; [constructor|exact Hrows]. }
  unfold Formatter.section_names, Formatter.process_csv_file.
  fold by_name. 
  assert (Er : Formatter.read_rows rows = (all_clubs, by_name)).
  { subst all_clubs by_name. destruct (Formatter.read_rows rows). reflexivity. }
  rewrite Er. fold programs.
  set (names := sorted (map fst by_name)).
  set (S := fun club_name =>
              Formatter.club_section all_clubs programs club_name
                (Formatter.rows_of by_name club_name)).
  assert (Hshape : Forall (fun n => exists hb : text * list text,
                             fst hb = txt "Club Name: " ++ n
                             /\ S n = fst hb :: snd hb ++ [Splitter.separator; []]
                             /\ Forall plain_line (snd hb)
                             /\ no_nl (fst hb)) names).
  { apply Forall_forall. intros n Hn. unfold names, sorted in Hn.
    rewrite (merge_sort_Permutation text_le) in Hn.
    destruct (assoc_get_filled by_name n Hf Hn) as (x & xs & Hg).
    assert (Hnl : no_nl n).
    { apply Hm in Hn as (r & Hr & _ & <-). apply no_nl_cell.
      rewrite Forall_forall in Hrows. apply Hrows, Hr. }
    destruct (club_section_shape all_clubs programs n x xs Hnl) as (body & Eb & Hb).
    - exact (assoc_get_Forall _ _ _ _ Hkept Hg).
    - exact Hclubs.
    - exists (txt "Club Name: " ++ n, body). cbn [fst snd]. split; [reflexivity|].
      split; [|split; [exact Hb|]].
      + unfold S, Formatter.rows_of. rewrite Hg. exact Eb.
      + apply no_nl_app; [apply no_nl_check; reflexivity|exact Hnl]. }
  apply Forall_exists_Forall2 in Hshape as [secs Hsecs].
  assert (Hlines : flat_map S names
                   = flat_map (fun hb => fst hb :: snd hb ++ [Splitter.separator; []]) secs).
  { clear -Hsecs. induction Hsecs as [|n hb names secs (_ & E & _) _ IH]; [reflexivity|].
    change (flat_map S (n :: names)) with (S n ++ flat_map S names).
    rewrite E, IH. reflexivity. }
  rewrite Hlines. clear Hlines.
  destruct secs as [|hb0 secs0] eqn:Esecs.
  { inversion Hsecs. constructor. }
  rewrite <- Esecs in *. assert (Hne : secs <> []) by (rewrite Esecs; discriminate).
  clear Esecs hb0 secs0.
  rewrite as_read_lines by exact Hne.
  pose proof (as_read_spec secs) as Hread.
  assert (Hsep : plain_line [] /\ starts_with Splitter.club_name_prefix Splitter.separator = false
                 /\ no_nl Splitter.separator).
  { split; [apply plain_empty|]. split; [reflexivity|apply no_nl_check; reflexivity]. }
  destruct Hsep as (Hempty & Hsep1 & Hsep2).
  assert (Hgood : Forall (fun hb : text * list text =>
                            (starts_with Splitter.club_name_prefix (fst hb) = true
                             /\ Forall (fun l => starts_with Splitter.club_name_prefix l = false)
                                       (snd hb))
                            /\ Forall no_nl (fst hb :: snd hb)) (as_read secs)).
  { clear -Hsecs Hread Hempty Hsep1 Hsep2. revert Hread. generalize (as_read secs).
    induction Hsecs as [|n hb names secs (En & _ & Hb & Hh) _ IH]; intros rd Hread.
    - inversion Hread. constructor.
    - inversion Hread as [|? hb' ? rd' [Ef Es] Hread']; subst. constructor; [|apply IH, Hread'].
      rewrite Ef. split; [split|].
      + rewrite En. apply starts_with_app.
      + destruct Es as [-> | ->]; apply Forall_app; split;
          try (eapply Forall_impl; [exact Hb|apply plain_not_header]);
          repeat constructor; try exact Hsep1.
      + constructor; [exact Hh|].
        destruct Es as [-> | ->]; apply Forall_app; split;
          try (eapply Forall_impl; [exact Hb|intros l Hl; exact (proj1 Hl)]);
          repeat constructor; try exact Hsep2. }
  unfold Splitter.split_club_sections. rewrite readlines_join.
  2:{ clear -Hgood. induction Hgood as [|hb l [_ H] _ IH]; [constructor|].
      cbn [flat_map]. apply Forall_app. split; assumption. }
  rewrite split_sections.
  2:{ eapply Forall_impl; [exact Hgood|]. intros hb [H _]. exact H. }
  cbn [Splitter.close_section app]. apply Forall2_fmap_r.
  clear Hgood Hne. revert Hread. generalize (as_read secs). subst S. cbv beta in Hsecs.
  induction Hsecs as [|n hb names' secs (En & ES & Hb & Hh) _ IH]; intros rd Hread.
  - inversion Hread. constructor.
  - inversion Hread as [|? hb' ? rd' [Ef Es] Hread']; subst.
    constructor; [|apply IH, Hread']. unfold compose.
    cbn [Splitter.name Splitter.content].
    split; [rewrite Ef; exact En|]. cbv zeta. rewrite ES, Ef.
    assert (Hplain : Forall (fun l => l <> Splitter.separator) (snd hb)).
    { eapply Forall_impl; [exact Hb|apply plain_not_separator]. }
    assert (E2 : fst hb :: snd hb ++ [Splitter.separator; []]
                 = ((fst hb :: snd hb) ++ [Splitter.separator]) ++ [[]]).
    { cbn [app]. rewrite <- app_assoc. reflexivity. }
    rewrite E2, !join_snoc by (try discriminate; cbn; discriminate).
    destruct Es as [-> | ->]; rewrite filter_plain by exact Hplain.
    + right. rewrite filter_nil, (app_nil_r (snd hb)), <- !app_assoc. reflexivity.
    + left. rewrite filter_cons, decide_True by discriminate. rewrite filter_nil.
      rewrite app_comm_cons, join_snoc by discriminate.
      rewrite <- !app_assoc. reflexivity.
Qed.

Lemma split_formatted_sections_witness :
  Forall2 (fun club_name sec =>
             Splitter.name sec = txt "Club Name: " ++ club_name
             /\ let formatted :=
                  join [nl] (Formatter.club_section (fst (Formatter.read_rows formatter_rows))
                               (Formatter.detect_availability_columns [])
                               club_name
                               (Formatter.rows_of (snd (Formatter.read_rows formatter_rows))
                                  club_name)) in
                formatted = Splitter.content sec ++ Splitter.separator ++ [nl]
                \/ formatted = Splitter.content sec ++ [nl] ++ Splitter.separator ++ [nl])
          (Formatter.section_names formatter_rows)
          (Splitter.split_club_sections (Formatter.process_csv_file ([] :: formatter_rows))).
Proof.
  apply (split_formatted_sections [] formatter_rows).
  repeat constructor.
Defined.

(** ** Club names and pricing blocks *)

Section Prefixes.
Import DynamicPricing.

(** The matcher on a literal: the literal stands at the position, or the
    match fails. *)
Lemma rmatch_lit_t t : forall bef rest k,
  t <> [] ->
  rmatch (lit_t t) (bef, rest) k
  = if starts_with t rest then k (rev t ++ bef, drop (length t) rest) else None.
Proof.
  unfold lit_t. induction t as [|c t IH]; intros bef rest k H; [congruence|].
  destruct t as [|c2 t].
  - cbn [lit_of rmatch snd fst starts_with]. destruct rest as [|x rest]; [reflexivity|].
    unfold chr. destruct (chr_eqb c x) eqn:E; [|reflexivity].
    apply chr_eqb_eq in E. subst x. cbn [andb length drop rev app]. reflexivity.
  - change (lit_of chr (c :: c2 :: t)) with (Seq (Cls (chr c)) (lit_of chr (c2 :: t))).
    cbn [rmatch snd fst]. destruct rest as [|x rest]; [reflexivity|].
    change (starts_with (c :: c2 :: t) (x :: rest))
      with (chr_eqb c x && starts_with (c2 :: t) rest).
    unfold chr at 1. destruct (chr_eqb c x) eqn:E; [|reflexivity].
    apply chr_eqb_eq in E. subst x. rewrite IH by discriminate. cbn [andb].
    destruct (starts_with (c2 :: t) rest); [|reflexivity].
    cbn [length drop]. change (rev (c :: c2 :: t)) with (rev (c2 :: t) ++ [c]).
    rewrite <- !app_assoc. reflexivity.
Qed.

(** A pattern anchored at the start of the text matches nowhere else. *)
Lemma search_bol r : forall rest bef,
  bef <> [] -> search_from (Seq (Bol false) r) bef rest = None.
Proof.
  induction rest as [|c rest IH]; intros bef H; destruct bef as [|b bef]; try congruence.
  - reflexivity.
  - cbn [search_from rmatch at_bol fst andb]. apply IH. discriminate.
Qed.

Lemma sub_from_bol r repl fuel bef rest :
  bef <> [] -> sub_from fuel (Seq (Bol false) r) repl bef rest = rest.
Proof.
  intros H. destruct fuel; [reflexivity|]. cbn [sub_from].
  rewrite search_bol by exact H. reflexivity.
Qed.

(** Removing an anchored prefix: the pattern is tried at the start of the
    text, once. *)
Lemma re_sub_bol r s :
  re_sub (Seq (Bol false) r) [] s
  = match rmatch r ([], s) Some with
    | Some st' => match mpos st' with
                  | O => s
                  | S n => drop (S n) s
                  end
    | None => s
    end.
Proof.
  unfold re_sub. cbn [sub_from].
  destruct s as [|c s].
  - cbn [search_from rmatch at_bol fst]. destruct (rmatch r ([], []) Some) as [st'|]; [|reflexivity].
    cbn [length Nat.sub]. destruct (mpos st'); reflexivity.
  - cbn [search_from rmatch at_bol fst].
    destruct (rmatch r ([], c :: s) Some) as [st'|].
    + cbn [length Nat.sub]. rewrite Nat.sub_0_r. destruct (mpos st') as [|n]; [reflexivity|].
      cbn [take app Nat.add]. apply sub_from_bol.
      cbn [take rev]. intros E. apply (f_equal (@length ascii)) in E.
      rewrite !length_app in E. simpl in E. lia.
    + rewrite search_bol by discriminate. reflexivity.
Qed.

End Prefixes.

(** The club name of a text file, by its stem. *)
Lemma txt_club_name (stem : text) :
  DynamicPricing.extract_club_name_from_txt stem
  = str_replace (txt "_") (txt " ")
      (if starts_with (txt "CFF__") stem then drop 5 stem
       else if starts_with (txt "In-Shape__") stem then drop 10 stem
       else stem)
  /\ Forall (fun c => c <> "_"%char) (DynamicPricing.extract_club_name_from_txt stem).
Proof.
  split.
  - unfold DynamicPricing.extract_club_name_from_txt, DynamicPricing.txt_prefix_re.
    cbn [seqs]. rewrite re_sub_bol. cbn [rmatch]. unfold lit.
    rewrite !rmatch_lit_t by discriminate.
    destruct (starts_with (txt "CFF__") stem); [reflexivity|].
    destruct (starts_with (txt "In-Shape__") stem); reflexivity.
  - unfold DynamicPricing.extract_club_name_from_txt.
    change (txt "_") with ["_"%char]. change (txt " ") with [" "%char].
    rewrite replace_char_map. apply Forall_forall. intros c Hc.
    apply list_elem_of_fmap in Hc as (d & -> & _).
    destruct (chr_eqb "_" d) eqn:E; [discriminate|].
    intros ->. discriminate.
Qed.

(** X12. The club name of a text file is its stem without a leading
    "CFF__" or "In-Shape__" and with every underscore turned into a space;
    the prefix is removed once, at the start only, and the name holds no
    underscore. *)
Theorem extract_club_name_from_txt_spec (stem : text) :
  DynamicPricing.extract_club_name_from_txt stem
  = str_replace (txt "_") (txt " ")
      (if starts_with (txt "CFF__") stem then drop 5 stem
       else if starts_with (txt "In-Shape__") stem then drop 10 stem
       else stem)
  /\ Forall (fun c => c <> "_"%char) (DynamicPricing.extract_club_name_from_txt stem).
Proof. apply txt_club_name. Qed.

(** X13. A normalised club name is in lower case, holds no underscore and
    no hyphen, has no whitespace at either end, and its only whitespace
    is single spaces between words. *)
Theorem normalize_club_name_shape (name : text) :
  let normalized := DynamicPricing.normalize_club_name name in
  Forall (fun c => lower_char c = c /\ c <> "_"%char /\ c <> "-"%char) normalized
  /\ single_spaced normalized = true
  /\ strip normalized = normalized
  /\ lower normalized = normalized.
Proof.
  intros normalized. subst normalized.
  pose proof (normalize_clean name) as Hc. destruct (normalize_tidy name) as [Hs Ht].
  split; [exact Hc|]. split; [exact Hs|]. split; [exact Ht|].
  apply lower_fixed. eapply Forall_impl; [exact Hc|]. intros c H. exact (proj1 H).
Qed.

Section CaseInsensitive.
Import DynamicPricing.

Lemma chr_eqb_sym a b : chr_eqb a b = chr_eqb b a.
Proof.
  destruct (chr_eqb a b) eqn:E1, (chr_eqb b a) eqn:E2; try reflexivity.
  - apply chr_eqb_eq in E1. subst. rewrite chr_eqb_refl in E2. discriminate.
  - apply chr_eqb_eq in E2. subst. rewrite chr_eqb_refl in E1. discriminate.
Qed.

(** The matcher on a literal under [re.IGNORECASE]. *)
Lemma rmatch_lit_i t : forall bef rest k,
  t <> [] ->
  rmatch (lit_of chr_i t) (bef, rest) k
  = if starts_with (lower t) (lower rest)
    then k (rev (take (length t) rest) ++ bef, drop (length t) rest)
    else None.
Proof.
  induction t as [|c t IH]; intros bef rest k H; [congruence|].
  destruct t as [|c2 t].
  - cbn [lit_of rmatch snd fst]. destruct rest as [|x rest]; [reflexivity|].
    cbn [lower map starts_with]. unfold chr_i. rewrite (chr_eqb_sym (lower_char c)).
    destruct (chr_eqb (lower_char x) (lower_char c)); reflexivity.
  - change (lit_of chr_i (c :: c2 :: t)) with (Seq (Cls (chr_i c)) (lit_of chr_i (c2 :: t))).
    cbn [rmatch snd fst]. destruct rest as [|x rest]; [reflexivity|].
    change (starts_with (lower (c :: c2 :: t)) (lower (x :: rest)))
      with (chr_eqb (lower_char c) (lower_char x)
            && starts_with (lower (c2 :: t)) (lower rest)).
    unfold chr_i at 1. rewrite (chr_eqb_sym (lower_char c)).
    destruct (chr_eqb (lower_char x) (lower_char c)); [|reflexivity].
    rewrite IH by discriminate. cbn [andb].
    destruct (starts_with (lower (c2 :: t)) (lower rest)); [|reflexivity].
    cbn [length drop take]. change (rev (x :: take (S (length t)) rest))
      with (rev (take (S (length t)) rest) ++ [x]).
    rewrite <- !app_assoc. reflexivity.
Qed.

(** What is left of a text once an anchored prefix is removed. *)
Lemma re_sub_bol_rest r s :
  re_sub (Seq (Bol false) r) [] s
  = match rmatch r ([], s) Some with
    | Some st' => snd st'
    | None => s
    end.
Proof.
  rewrite re_sub_bol. destruct (rmatch r ([], s) Some) as [st'|] eqn:E; [|reflexivity].
  apply rmatch_sound in E as (st2 & Hm & [= ->]).
  apply matches_extends in Hm as (w & Hs & Hf). cbn [fst snd] in *.
  unfold mpos. rewrite Hf, app_nil_r, length_rev. subst s.
  destruct w as [|c w]; [reflexivity|]. cbn [length].
  change (S (length w)) with (length (c :: w)). apply drop_app_length.
Qed.

Lemma re_sub_prefix s : re_sub prefix_re [] s = without_prefix s.
Proof.
  unfold prefix_re. cbn [seqs]. rewrite re_sub_bol_rest. cbn [rmatch]. unfold lit_i, lit.
  rewrite !rmatch_lit_i by discriminate. cbn [fst snd].
  rewrite !rmatch_lit_t by discriminate. cbn [fst snd].
  rewrite !star_greedy_spaces. unfold without_prefix.
  change (lower (txt "CFF")) with (txt "cff").
  change (lower (txt "In-Shape")) with (txt "in-shape").
  change (length (txt "CFF")) with 3%nat. change (length (txt "In-Shape")) with 8%nat.
  change (length (txt ":")) with 1%nat. rewrite !drop_drop.
  destruct (starts_with (txt "cff") (lower s)); cbn [andb].
  - destruct (starts_with (txt ":") (drop 3 s)); [reflexivity|].
    destruct (starts_with (txt "in-shape") (lower s)); cbn [andb]; [|reflexivity].
    destruct (starts_with (txt ":") (drop 8 s)); reflexivity.
  - destruct (starts_with (txt "in-shape") (lower s)); cbn [andb]; [|reflexivity].
    destruct (starts_with (txt ":") (drop 8 s)); reflexivity.
Qed.

Lemma is_space_lower c : is_space (lower_char c) = is_space c.
Proof. destruct c as [[] [] [] [] [] [] [] []]; vm_compute; reflexivity. Qed.

Lemma colon_lower c : chr_eqb ":" (lower_char c) = chr_eqb ":" c.
Proof. destruct c as [[] [] [] [] [] [] [] []]; vm_compute; reflexivity. Qed.

Lemma lower_idem s : lower (lower s) = lower s.
Proof.
  unfold lower. rewrite map_map. apply map_ext. intros c. apply lower_char_idem.
Qed.

Lemma lower_drop n s : drop n (lower s) = lower (drop n s).
Proof. unfold lower. symmetry. apply fmap_drop. Qed.

Lemma skip_spaces_lower s : skip_spaces (lower s) = lower (skip_spaces s).
Proof.
  induction s as [|c s IH]; [reflexivity|]. cbn [lower map skip_spaces].
  rewrite is_space_lower. destruct (is_space c); [exact IH|reflexivity].
Qed.

Lemma colon_starts_lower s : starts_with (txt ":") (lower s) = starts_with (txt ":") s.
Proof.
  destruct s as [|c s]; [reflexivity|]. cbn [lower map]. 
  change (starts_with (txt ":") (lower_char c :: map lower_char s))
    with (chr_eqb ":" (lower_char c) && true).
  change (starts_with (txt ":") (c :: s)) with (chr_eqb ":" c && true).
  rewrite colon_lower. reflexivity.
Qed.

Lemma without_prefix_lower s : without_prefix (lower s) = lower (without_prefix s).
Proof.
  unfold without_prefix. rewrite lower_idem, !lower_drop, !colon_starts_lower.
  destruct (_ && _); [apply skip_spaces_lower|].
  destruct (_ && _); [apply skip_spaces_lower|reflexivity].
Qed.

End CaseInsensitive.

(** X14. On names of characters with code points below 256, which are the
    texts of this development, normalising does not depend on the case of
    the letters: a name and its lower-case form have the same normal form,
    the prefix "CFF:" or "In-Shape:" being removed in whatever case it is
    written. Beyond these characters lowering can change the length of a
    text, and the property is not claimed. *)
Theorem normalize_club_name_ignores_case (name : text) :
  DynamicPricing.normalize_club_name (lower name)
  = DynamicPricing.normalize_club_name name.
Proof.
  unfold DynamicPricing.normalize_club_name.
  rewrite !re_sub_prefix, without_prefix_lower, lower_idem. reflexivity.
Qed.

(** ** Finding the pricing block *)

Section PricingBlocks.
Import DynamicPricing.

Lemma lstrip_length s : (length (lstrip s) <= length s)%nat.
Proof.
  induction s as [|c s IH]; simpl; [lia|]. destruct (is_space c); simpl; lia.
Qed.

(** Whitespace is stripped at the end only, when the text opens and its
    opening closes with characters that are no whitespace. *)
Lemma strip_keeps x y :
  lstrip x = x -> lstrip (rev x) = rev x -> x <> [] ->
  exists y', strip (x ++ y) = x ++ y'.
Proof.
  intros Hl Hr Hne. unfold strip.
  assert (E1 : lstrip (x ++ y) = x ++ y).
  { destruct x as [|c x]; [congruence|]. cbn [app lstrip] in *.
    destruct (is_space c); [|reflexivity].
    exfalso. pose proof (lstrip_length x) as Hle.
    apply (f_equal (@length ascii)) in Hl. simpl in Hl. lia. }
  rewrite E1. unfold rstrip. rewrite rev_app_distr.
  destruct (lstrip_app (rev y) (rev x)) as [E|[_ E]].
  - rewrite E, rev_app_distr, rev_involutive. eauto.
  - rewrite E. destruct (rev x) as [|c r] eqn:Ex.
    { apply (f_equal (@rev ascii)) in Ex. rewrite rev_involutive in Ex. simpl in Ex. congruence. }
    cbn [lstrip] in Hr |- *. destruct (is_space c).
    + exfalso. pose proof (lstrip_length r) as Hle.
      apply (f_equal (@length ascii)) in Hr. simpl in Hr. lia.
    + rewrite <- Ex, rev_involutive. exists []. rewrite app_nil_r. reflexivity.
Qed.

End PricingBlocks.

(** What the fallback extractor gives, by the text. *)
Lemma member_block_found (content : text) :
  match DynamicPricing.read_pricing_content_from_txt content with
  | Some block =>
      contains member_type content = true
      /\ starts_with member_type block = true
      /\ strip block = block
  | None => contains member_type content = false
  end.
Proof.
  unfold DynamicPricing.read_pricing_content_from_txt.
  destruct (re_search DynamicPricing.member_block_re content) as [[i j]|] eqn:Hs.
  - destruct (re_search_spec _ _ _ _ Hs) as (pre & w & post & Ew & -> & -> & Hm & _).
    rewrite Ew at 2. rewrite group0_spec.
    unfold DynamicPricing.member_block_re in Hm. cbn [seqs] in Hm.
    apply matches_seq_inv in Hm as (st1 & H1 & Hm).
    apply matches_seq_inv in Hm as (st2 & H2 & H3).
    apply matches_lit_t in H1 as [E1 F1]. cbn [fst snd] in E1, F1.
    apply matches_extends in H2 as (w2 & E2 & F2).
    apply matches_look_inv in H3 as [-> _]. cbn [fst snd] in E2, F2.
    assert (Ew2 : w = member_type ++ w2).
    { apply (app_inv_tail post). rewrite <- app_assoc, <- E2. exact E1. }
    split; [|split].
    + apply contains_spec. exists pre, (w2 ++ post). rewrite Ew, Ew2, <- !app_assoc.
      reflexivity.
    + rewrite Ew2. destruct (strip_keeps member_type w2) as [y' ->];
        [reflexivity|reflexivity|discriminate|]. apply starts_with_app.
    + apply strip_idem.
  - destruct (contains member_type content) eqn:Hc; [|reflexivity]. exfalso.
    apply contains_spec in Hc as (a & b & ->).
    pose proof (member_block_at (rev a) b) as Hat.
    apply re_search_found in Hat. rewrite Hs in Hat. destruct Hat; discriminate.
Qed.

(** X15. The fallback extractor finds a block exactly when the text holds
    "Member Type:": the block then starts with "Member Type:" and has no
    whitespace at its ends; a text without "Member Type:" gives none. *)
Theorem read_pricing_content_from_txt_found (content : text) :
  match DynamicPricing.read_pricing_content_from_txt content with
  | Some block =>
      contains member_type content = true
      /\ starts_with member_type block = true
      /\ strip block = block
  | None => contains member_type content = false
  end.
Proof. apply member_block_found. Qed.

(** X16. The pricing section of a document is found, and replaced, exactly
    when the document holds "Member Type:", after it "SILVER SNEAKERS:" or
    "Insurance Availability:", and after that the word "available"; any
    other document is left as it is, with a failure reported. *)
Theorem replace_pricing_section_found (content new_pricing_content : text) :
  (fst (DynamicPricing.replace_pricing_section_in_md content new_pricing_content) = true
   <-> exists a b c d anchor,
         (anchor = txt "SILVER SNEAKERS" \/ anchor = txt "Insurance Availability")
         /\ content = a ++ txt "Member Type:" ++ b ++ anchor ++ txt ":" ++ c
                        ++ txt "available" ++ d)
  /\ (fst (DynamicPricing.replace_pricing_section_in_md content new_pricing_content) = false
      -> snd (DynamicPricing.replace_pricing_section_in_md content new_pricing_content)
         = content).
Proof.
  unfold DynamicPricing.replace_pricing_section_in_md.
  destruct (re_search DynamicPricing.pricing_block_re content) as [[i j]|] eqn:Hs;
    cbn [fst snd].
  - split; [|discriminate]. split; [intros _|reflexivity].
    destruct (re_search_spec _ _ _ _ Hs) as (pre & w & post & Ew & _ & _ & Hm & _).
    unfold DynamicPricing.pricing_block_re in Hm. cbn [seqs] in Hm.
    apply matches_seq_inv in Hm as (s1 & H1 & Hm).
    apply matches_seq_inv in Hm as (s2 & H2 & Hm).
    apply matches_seq_inv in Hm as (s3 & H3 & Hm).
    apply matches_seq_inv in Hm as (s4 & H4 & Hm).
    apply matches_seq_inv in Hm as (s5 & H5 & Hm).
    apply matches_seq_inv in Hm as (s6 & H6 & _).
    apply matches_lit_t in H1 as [E1 _]. apply matches_extends in H2 as (b & E2 & _).
    apply matches_lit_t in H4 as [E4 _]. apply matches_extends in H5 as (c & E5 & _).
    cbn [fst snd] in *.
    assert (exists c', snd s5 = c' ++ txt "available" ++ snd s6) as [c' E6].
    { apply matches_alt_inv in H6 as [H6|H6]; apply matches_lit_t in H6 as [E6 _].
      - exists []. exact E6.
      - exists (txt "not "). rewrite E6. reflexivity. }
    assert (exists anchor,
              (anchor = txt "SILVER SNEAKERS" \/ anchor = txt "Insurance Availability")
              /\ snd s2 = anchor ++ snd s3) as (anchor & Ha & E3).
    { apply matches_alt_inv in H3 as [H3|H3]; apply matches_lit_t in H3 as [E3 _];
        eexists; (split; [|exact E3]); auto. }
    exists pre, b, (c ++ c'), (snd s6), anchor. split; [exact Ha|].
    rewrite Ew, E1, E2, E3, E4, E5, E6, <- !app_assoc. reflexivity.
  - split; [|reflexivity]. split; [discriminate|].
    intros (a & b & c & d & anchor & Ha & ->). exfalso.
    assert (Hm : matches DynamicPricing.pricing_block_re
                   (rev a, txt "Member Type:" ++ b ++ anchor ++ txt ":" ++ c
                             ++ txt "available" ++ d)
                   (rev d ++ rev (txt "available") ++ rev c ++ rev (txt ":") ++ rev anchor
                      ++ rev b ++ rev (txt "Member Type:") ++ rev a, [])).
    { unfold DynamicPricing.pricing_block_re. cbn [seqs].
      eapply M_Seq; [apply (lit_t_matches (txt "Member Type:"))|].
      eapply M_Seq; [apply lazy_any_skip|].
      eapply (M_Seq _ _ _ (rev anchor ++ rev b ++ rev (txt "Member Type:") ++ rev a,
                           txt ":" ++ c ++ txt "available" ++ d)).
      { destruct Ha as [-> | ->]; [apply M_AltL|apply M_AltR]; apply lit_t_matches. }
      eapply M_Seq; [apply (lit_t_matches (txt ":"))|].
      eapply M_Seq; [apply lazy_any_skip|].
      eapply M_Seq; [apply M_AltL; apply (lit_t_matches (txt "available"))|].
      eapply M_Seq.
      { pose proof (lazy_any_skip d
                      (rev (txt "available") ++ rev c ++ rev (txt ":") ++ rev anchor
                         ++ rev b ++ rev (txt "Member Type:") ++ rev a) []) as H.
        rewrite app_nil_r in H. exact H. }
      eapply M_Seq; [apply M_AltR; constructor|].
      eapply M_Look. cbn [alts]. apply M_AltR, M_AltR. constructor. reflexivity. }
    apply re_search_found in Hm. rewrite Hs in Hm. destruct Hm; discriminate.
Qed.

Lemma replace_pricing_section_found_witness :
  snd (DynamicPricing.replace_pricing_section_in_md (txt "Member Type: none") (txt "NEW"))
  = txt "Member Type: none".
Proof.
  apply (proj2 (replace_pricing_section_found (txt "Member Type: none") (txt "NEW"))).
  vm_compute. reflexivity.
Defined.

(** ** The outcome of the fee-text replacement *)

Section FeeOutcome.
Import DynamicPricing.

Lemma find_absent sub s : find sub s 0 = -1 <-> contains sub s = false.
Proof.
  unfold find. destruct (Z.of_nat (length s) <? 0) eqn:Hl; [apply Z.ltb_lt in Hl; lia|].
  change (Z.to_nat 0) with O. rewrite drop_0.
  destruct (find_from sub s 0) as [k|] eqn:Hk.
  - split; [lia|]. intros Hc. exfalso.
    apply find_from_spec in Hk as (a & b & -> & _).
    assert (contains sub (a ++ sub ++ b) = true) by (apply contains_spec; eauto).
    congruence.
  - split; [intros _|reflexivity].
    destruct (contains sub s) eqn:Hc; [|reflexivity].
    destruct (find_from_found sub s 0 Hc) as [k E]. congruence.
Qed.

(** The pattern that ends the legacy text matches in every text: the end
    of the text is one of its stops. *)
Lemma terms_pattern_matches remaining : is_Some (re_search terms_pattern remaining).
Proof.
  unfold terms_pattern.
  rewrite <- (app_nil_r remaining). apply (lazy_search_found _ _ _ (rev remaining, [])).
  unfold section_end. eapply M_Look. cbn [alts].
  apply M_AltR, M_AltR, M_AltR. constructor. reflexivity.
Qed.

Lemma legacy_end_found remaining search_start :
  is_Some (legacy_end remaining search_start).
Proof.
  unfold legacy_end. destruct (terms_pattern_matches remaining) as [m ->].
  destruct (has_card_fee _); [eauto|].
  destruct (re_search extended_re remaining); eauto.
Qed.

Lemma fee_plan_not_found content :
  fee_plan_of content = NotFound
  <-> already_updated content = false
      /\ (contains (txt "annual enhancement fee") (lower content) = false
          \/ (is_generic content (fee_anchor content) = false
              /\ has_old_amounts content (fee_anchor content) = false)).
Proof.
  unfold fee_plan_of. destruct (already_updated content).
  { split; [discriminate|]. intros [H _]. discriminate. }
  pose proof (find_absent (txt "annual enhancement fee") (lower content)) as Hfind.
  fold (fee_anchor content) in Hfind.
  destruct (fee_anchor content =? -1) eqn:Ha.
  { apply Z.eqb_eq in Ha. split; [intros _|reflexivity].
    split; [reflexivity|]. left. apply Hfind. exact Ha. }
  apply Z.eqb_neq in Ha.
  assert (Hc : contains (txt "annual enhancement fee") (lower content) = true).
  { apply not_false_iff_true. intros E. apply Ha, Hfind, E. }
  rewrite Hc. destruct (is_generic content (fee_anchor content)).
  { destruct (generic_plan_splice content (fee_anchor content)
                (Z.max 0 (fee_anchor content - 50))) as (s & e & p & ->).
    split; [discriminate|]. intros [_ [H|[H _]]]; discriminate. }
  unfold legacy_plan. destruct (has_old_amounts content (fee_anchor content)); cbn [negb].
  - destruct (legacy_end_found (slice_from content (fee_anchor content)) (fee_anchor content))
      as [[e p] ->].
    split; [discriminate|]. intros [_ [H|[_ H]]]; discriminate.
  - split; [intros _|reflexivity]. auto.
Qed.

End FeeOutcome.

(** X17. The fee-text replacement fails exactly when the document is not
    yet updated and either does not hold "annual enhancement fee" in any
    case, or holds it in a text that is not the generic sentence and has
    none of the old amounts near it. The end of the document always ends
    the legacy text, so the fallbacks for a text without an end are never
    taken. A failure leaves the document as it is. *)
Theorem replace_enhancement_fee_text_fails (content : text) :
  (fst (DynamicPricing.replace_enhancement_fee_text content) = false
   <-> DynamicPricing.already_updated content = false
       /\ (contains (txt "annual enhancement fee") (lower content) = false
           \/ (DynamicPricing.is_generic content (DynamicPricing.fee_anchor content) = false
               /\ DynamicPricing.has_old_amounts content (DynamicPricing.fee_anchor content)
                  = false)))
  /\ is_Some (re_search DynamicPricing.terms_pattern content)
  /\ (fst (DynamicPricing.replace_enhancement_fee_text content) = false
      -> snd (DynamicPricing.replace_enhancement_fee_text content) = content).
Proof.
  split; [|split; [apply terms_pattern_matches|]].
  - rewrite <- fee_plan_not_found. unfold DynamicPricing.replace_enhancement_fee_text.
    destruct (DynamicPricing.fee_plan_of content); cbn [fst]; split;
      try discriminate; reflexivity.
  - unfold DynamicPricing.replace_enhancement_fee_text.
    destruct (DynamicPricing.fee_plan_of content); cbn [fst snd];
      try discriminate; reflexivity.
Qed.

Lemma replace_enhancement_fee_text_fails_witness :
  snd (DynamicPricing.replace_enhancement_fee_text (txt "Annual Enhancement Fee: ask us."))
  = txt "Annual Enhancement Fee: ask us.".
Proof.
  apply (proj2 (proj2 (replace_enhancement_fee_text_fails
                         (txt "Annual Enhancement Fee: ask us.")))).
  vm_compute. reflexivity.
Defined.

(** X18. A success of the fee-text replacement leaves a document that
    holds both signature phrases of the new text, "$49.95 for the first
    member" and "$89.95 for all memberships", whatever the branch taken. *)
Theorem replace_enhancement_fee_text_success (content : text) :
  fst (DynamicPricing.replace_enhancement_fee_text content) = true ->
  contains DynamicPricing.signature_first
    (snd (DynamicPricing.replace_enhancement_fee_text content)) = true
  /\ contains DynamicPricing.signature_all
       (snd (DynamicPricing.replace_enhancement_fee_text content)) = true.
Proof.
  intros Hs. apply andb_true_iff. fold (DynamicPricing.already_updated
    (snd (DynamicPricing.replace_enhancement_fee_text content))).
  destruct (replace_cases content) as [H|[[Hu H]|(Hu & a & p & b & H)]];
    rewrite H in *; cbn [fst snd] in *.
  - discriminate.
  - exact Hu.
  - apply already_updated_app, new_text_signed.
Qed.

Lemma replace_enhancement_fee_text_success_witness :
  contains DynamicPricing.signature_first
    (snd (DynamicPricing.replace_enhancement_fee_text generic_doc)) = true
  /\ contains DynamicPricing.signature_all
       (snd (DynamicPricing.replace_enhancement_fee_text generic_doc)) = true.
Proof.
  apply (replace_enhancement_fee_text_success generic_doc).
  vm_compute. reflexivity.
Defined.

Section LegacySpan.
Import DynamicPricing.

Lemma len_nonneg t : 0 <= len t.
Proof. unfold len. lia. Qed.

Lemma slice_in_range s lo hi :
  0 <= lo -> lo <= hi -> hi <= len s ->
  slice s lo hi = take (Z.to_nat (hi - lo)) (drop (Z.to_nat lo) s).
Proof.
  intros H1 H2 H3. unfold slice, clamp, len in *.
  destruct (lo <? 0) eqn:E1; [apply Z.ltb_lt in E1; lia|].
  destruct (hi <? 0) eqn:E2; [apply Z.ltb_lt in E2; lia|].
  rewrite !Z.min_l by lia. reflexivity.
Qed.

Lemma slice_length s lo hi :
  0 <= lo -> lo <= len s -> len (slice s lo hi) <= len s - lo.
Proof.
  intros H1 H2. unfold slice, clamp, len in *.
  destruct (lo <? 0) eqn:E1; [apply Z.ltb_lt in E1; lia|].
  rewrite length_take, length_drop. destruct (hi <? 0); lia.
Qed.

Lemma slice_length_exact s lo hi :
  0 <= lo -> lo <= hi -> hi <= len s -> len (slice s lo hi) = hi - lo.
Proof.
  intros H1 H2 H3. rewrite slice_in_range by assumption. unfold len in *.
  rewrite length_take, length_drop. lia.
Qed.

Lemma slice_to_take s hi :
  0 <= hi -> hi <= len s -> slice_to s hi = take (Z.to_nat hi) s.
Proof.
  intros H1 H2. unfold slice_to. rewrite slice_in_range by lia.
  rewrite Z.sub_0_r. reflexivity.
Qed.

Lemma slice_from_drop s lo :
  0 <= lo -> lo <= len s -> slice_from s lo = drop (Z.to_nat lo) s.
Proof.
  intros H1 H2. unfold slice_from. fold (len s). rewrite slice_in_range by lia.
  apply take_ge. rewrite length_drop. unfold len in *. lia.
Qed.

Lemma rindex_bounds c : forall s i j,
  rindex c s i = Some j -> (i <= j < i + length s)%nat.
Proof.
  induction s as [|x s IH]; intros i j H; simpl in H; [discriminate|].
  destruct (rindex c s (S i)) as [k|] eqn:E.
  - injection H as <-. apply IH in E. simpl. lia.
  - destruct (chr_eqb x c); [|discriminate]. injection H as <-. simpl. lia.
Qed.

(** The start of the line of a position is at or before the position. *)
Lemma line_start_pos_bounds content pos :
  0 <= pos -> pos <= len content ->
  0 <= line_start_pos content pos <= pos.
Proof.
  intros H1 H2. unfold line_start_pos, rfind_char.
  destruct (rindex nl _ _) as [j|] eqn:E.
  - apply rindex_bounds in E.
    assert (Hl : len (slice content (Z.max 0 (pos - 200)) pos) = pos - Z.max 0 (pos - 200))
      by (apply slice_length_exact; lia).
    unfold len in Hl.
    assert (Hc : clamp (Z.of_nat (length content)) (Z.max 0 (pos - 200))
                 = Z.max 0 (pos - 200)).
    { unfold clamp, len in *. destruct (_ <? 0) eqn:E1; [apply Z.ltb_lt in E1; lia|]. lia. }
    rewrite Hc in E.
    destruct (Z.of_nat j =? -1) eqn:Ej; [apply Z.eqb_eq in Ej; lia|]. lia.
  - change (-1 =? -1) with true. cbn iota. lia.
Qed.

Lemma heading_start_bounds content pos m :
  0 <= pos -> pos <= len content ->
  re_search m (slice content (Z.max 0 (pos - 200)) pos) <> None ->
  forall r, re_search m (slice content (Z.max 0 (pos - 200)) pos) = Some r ->
  0 <= heading_start pos (slice content (Z.max 0 (pos - 200)) pos) r <= pos.
Proof.
  intros H1 H2 _ r Hr. apply re_search_bounds in Hr.
  assert (Hl : len (slice content (Z.max 0 (pos - 200)) pos) = pos - Z.max 0 (pos - 200))
    by (apply slice_length_exact; lia).
  unfold heading_start, mstart. unfold len in *. lia.
Qed.

Lemma legacy_start_bounds content fee_pos :
  0 <= fee_pos -> fee_pos <= len content ->
  0 <= legacy_start content fee_pos <= fee_pos.
Proof.
  intros H1 H2. unfold legacy_start.
  destruct (re_search note_re _) as [m|] eqn:E1.
  { eapply heading_start_bounds; try eassumption. congruence. }
  destruct (re_search additional_fees_re _) as [m|] eqn:E2.
  { eapply heading_start_bounds; try eassumption. congruence. }
  apply line_start_pos_bounds; assumption.
Qed.

Lemma group0_length s m : len (group0 s m) <= len s.
Proof.
  unfold group0, len. rewrite length_take, length_drop. lia.
Qed.

Lemma preserve_after_bounds remaining search_start n :
  0 <= n -> n <= len remaining ->
  search_start <= fst (preserve_after remaining search_start n)
  <= search_start + len remaining.
Proof.
  intros H1 H2. unfold preserve_after.
  destruct (re_search trailer_re _) as [m|] eqn:E; cbn [fst]; [|lia].
  apply re_search_bounds in E.
  pose proof (slice_length remaining n (n + 100) H1 H2) as Hl.
  unfold mend, len in *. lia.
Qed.

(** The legacy text ends at or after its start, inside the text. *)
Lemma legacy_end_bounds remaining search_start e p :
  legacy_end remaining search_start = Some (e, p) ->
  search_start <= e <= search_start + len remaining.
Proof.
  unfold legacy_end. destruct (terms_pattern_matches remaining) as [m ->].
  pose proof (group0_length remaining m) as Hg.
  pose proof (len_nonneg (group0 remaining m)) as Hn.
  destruct (has_card_fee _).
  { intros [= E]. pose proof (preserve_after_bounds remaining search_start _ Hn Hg) as Hb.
    rewrite E in Hb. exact Hb. }
  destruct (re_search extended_re remaining) as [m2|].
  { intros [= E].
    pose proof (preserve_after_bounds remaining search_start _
                  (len_nonneg (group0 remaining m2)) (group0_length remaining m2)) as Hb.
    rewrite E in Hb. exact Hb. }
  intros [= <- _]. lia.
Qed.

Lemma fee_anchor_bounds content :
  fee_anchor content = -1 \/ 0 <= fee_anchor content <= len content.
Proof.
  unfold fee_anchor, find.
  destruct (_ <? 0); [left; reflexivity|]. change (Z.to_nat 0) with O. rewrite drop_0.
  destruct (find_from _ _ _) as [k|] eqn:E; [|left; reflexivity]. right.
  apply find_from_spec in E as (a & b & Ea & ->).
  apply (f_equal (@length ascii)) in Ea. unfold lower in Ea.
  rewrite length_map, !length_app in Ea. unfold len. lia.
Qed.

End LegacySpan.

(** X19. When the fee text is replaced on the legacy path (the text is not
    the generic sentence), the replaced span lies inside the document and
    holds the place where "annual enhancement fee" starts: the result is
    the text before the span, the new text with the trailer kept, and the
    text after the span, nothing else of the document being dropped or
    written twice. *)
Theorem legacy_replacement_span (content : text) (start_pos end_pos : Z)
    (preserved_text : text) :
  DynamicPricing.is_generic content (DynamicPricing.fee_anchor content) = false ->
  DynamicPricing.fee_plan_of content
  = DynamicPricing.Splice start_pos end_pos preserved_text ->
  0 <= start_pos <= DynamicPricing.fee_anchor content
  /\ DynamicPricing.fee_anchor content <= end_pos <= Z.of_nat (length content)
  /\ DynamicPricing.replace_enhancement_fee_text content
     = (true,
        take (Z.to_nat start_pos) content
        ++ (DynamicPricing.new_enhancement_fee_text ++ preserved_text)
        ++ drop (Z.to_nat end_pos) content).
Proof.
  intros Hg Hp. pose proof Hp as Hp'. unfold DynamicPricing.fee_plan_of in Hp.
  destruct (DynamicPricing.already_updated content); [discriminate|].
  destruct (DynamicPricing.fee_anchor content =? -1) eqn:Ha; [discriminate|].
  apply Z.eqb_neq in Ha. rewrite Hg in Hp.
  destruct (fee_anchor_bounds content) as [E|Hb]; [contradiction|].
  unfold DynamicPricing.legacy_plan in Hp.
  destruct (negb _); [discriminate|].
  destruct (DynamicPricing.legacy_end _ _) as [[e p]|] eqn:He; [|discriminate].
  injection Hp as <- <- <-.
  apply legacy_end_bounds in He.
  pose proof (legacy_start_bounds content _ (proj1 Hb) (proj2 Hb)) as Hs.
  assert (Hl : DynamicPricing.len (slice_from content (DynamicPricing.fee_anchor content))
               = DynamicPricing.len content - DynamicPricing.fee_anchor content).
  { rewrite slice_from_drop by lia. unfold DynamicPricing.len in *.
    rewrite length_drop. lia. }
  rewrite Hl in He. unfold DynamicPricing.len in *.
  split; [exact Hs|]. split; [lia|].
  unfold DynamicPricing.replace_enhancement_fee_text. rewrite Hp'.
  rewrite slice_to_take, slice_from_drop by (unfold DynamicPricing.len; lia).
  reflexivity.
Qed.

Lemma legacy_replacement_span_witness :
  0 <= 8 <= DynamicPricing.fee_anchor legacy_doc
  /\ DynamicPricing.fee_anchor legacy_doc <= 179 <= Z.of_nat (length legacy_doc)
  /\ DynamicPricing.replace_enhancement_fee_text legacy_doc
     = (true,
        take (Z.to_nat 8) legacy_doc
        ++ (DynamicPricing.new_enhancement_fee_text
            ++ [nl; nl]
            ++ txt "Other terms and conditions apply. [Click here](https://x.com/terms)")
        ++ drop (Z.to_nat 179) legacy_doc).
Proof.
  apply (legacy_replacement_span legacy_doc 8 179
           ([nl; nl]
            ++ txt "Other terms and conditions apply. [Click here](https://x.com/terms)")).
  - vm_compute. reflexivity.
  - vm_compute. reflexivity.
Defined.

(** ** The mapping of text files to documents *)

Section Mapping.
Import DynamicPricing.

Variable md_files : list text.

Let md_name_map := md_name_map_of md_files.

(** The document of a name is one of the documents, and has that name. *)
Lemma md_name_map_values n d :
  md_name_map !! n = Some d ->
  d ∈ md_files /\ normalize_club_name (extract_club_name_from_md d) = n.
Proof.
  unfold md_name_map, md_name_map_of.
  assert (H : forall l (m : gmap text text),
            (forall n d, m !! n = Some d ->
               d ∈ md_files /\ normalize_club_name (extract_club_name_from_md d) = n) ->
            (forall d, d ∈ l -> d ∈ md_files) ->
            forall n d,
              foldl (fun m md_file =>
                       <[normalize_club_name (extract_club_name_from_md md_file) := md_file]> m)
                    m l !! n = Some d ->
              d ∈ md_files /\ normalize_club_name (extract_club_name_from_md d) = n).
  { induction l as [|x l IH]; intros m Hm Hl n' d'; [apply Hm|].
    cbn [foldl]. apply IH.
    - intros n2 d2. destruct (decide (normalize_club_name (extract_club_name_from_md x) = n2))
        as [<-|Hne].
      + rewrite lookup_insert_eq. intros [= <-]. split; [apply Hl; left|reflexivity].
      + rewrite lookup_insert_ne by exact Hne. apply Hm.
    - intros d2 Hd2. apply Hl. right. exact Hd2. }
  apply H; [|auto]. intros n' d' E. rewrite lookup_empty in E. discriminate.
Qed.

Lemma multi_targets n targets :
  multi_mappings !! n = Some targets -> targets = [txt "midtown"; txt "downtown"].
Proof.
  unfold multi_mappings. cbn [list_to_map foldr fst snd].
  intros H. apply lookup_insert_Some in H as [[_ <-]|[_ H]]; [reflexivity|].
  rewrite lookup_empty in H. discriminate.
Qed.

(** A turn of the loop for a file gives the file the entry it gets when
    matched alone, or leaves its entry when it gets none. *)
Lemma match_txt_file_self acc f :
  fst (match_txt_file md_name_map acc f) !! f
  = match fst (match_txt_file md_name_map (∅, []) f) !! f with
    | Some v => Some v
    | None => fst acc !! f
    end.
Proof.
  destruct acc as [mapping warnings]. unfold match_txt_file.
  destruct (multi_mappings !! _) as [targets|].
  - destruct (resolve_targets md_name_map f targets) as [[|md l] missing]; cbn [fst].
    + rewrite lookup_empty. reflexivity.
    + rewrite !lookup_insert_eq. reflexivity.
  - destruct (md_name_map !! _) as [md|]; cbn [fst].
    { rewrite !lookup_insert_eq. reflexivity. }
    destruct (special_mappings !! _) as [sp|]; cbn [fst];
      [|rewrite lookup_empty; reflexivity].
    destruct (md_name_map !! sp); cbn [fst];
      [rewrite !lookup_insert_eq|rewrite lookup_empty]; reflexivity.
Qed.

Lemma foldl_match_lookup f : forall l acc,
  fst (foldl (match_txt_file md_name_map) acc l) !! f
  = if decide (f ∈ l)
    then match fst (match_txt_file md_name_map (∅, []) f) !! f with
         | Some v => Some v
         | None => fst acc !! f
         end
    else fst acc !! f.
Proof.
  induction l as [|g l IH]; intros acc.
  - rewrite decide_False by (intros H; inversion H). reflexivity.
  - cbn [foldl]. rewrite IH. clear IH.
    destruct (decide (f = g)) as [<-|Hne].
    + rewrite (decide_True (P := f ∈ f :: l)) by left.
      rewrite (match_txt_file_self acc f).
      destruct (fst (match_txt_file md_name_map (∅, []) f) !! f);
        destruct (decide (f ∈ l)); reflexivity.
    + rewrite (match_txt_file_other md_name_map acc g f) by congruence.
      destruct (decide (f ∈ l)) as [Hin|Hout].
      * rewrite decide_True by (right; exact Hin). reflexivity.
      * rewrite decide_False; [reflexivity|].
        intros H. apply elem_of_cons in H as [H|H]; [congruence|contradiction].
Qed.

(** The entry a file gets when matched alone: documents of the
    directory, one or two of them. *)
Lemma match_alone_entry f l :
  fst (match_txt_file md_name_map (∅, []) f) !! f = Some l ->
  l <> [] /\ (forall d, d ∈ l -> d ∈ md_files) /\ (length l <= 2)%nat.
Proof.
  unfold match_txt_file.
  destruct (multi_mappings !! _) as [targets|] eqn:Hm.
  - apply multi_targets in Hm. unfold resolve_targets.
    destruct (omap _ targets) as [|md found] eqn:Ho; cbn [fst].
    { rewrite lookup_empty. discriminate. }
    rewrite lookup_insert_eq. intros [= <-]. split; [discriminate|]. split.
    + intros d Hd. rewrite <- Ho in Hd. apply list_elem_of_omap in Hd as (t & _ & Hd).
      apply md_name_map_values in Hd. tauto.
    + rewrite <- Ho. subst targets. cbn [omap list_omap].
      destruct (md_name_map !! txt "midtown"), (md_name_map !! txt "downtown");
        simpl; lia.
  - assert (Hone : forall d n, md_name_map !! n = Some d ->
              Some [d] = Some l ->
              l <> [] /\ (forall d, d ∈ l -> d ∈ md_files) /\ (length l <= 2)%nat).
    { intros d n Hd [= <-]. split; [discriminate|]. split; [|simpl; lia].
      intros d' Hd'. apply list_elem_of_singleton in Hd'. subst d'.
      apply md_name_map_values in Hd. tauto. }
    destruct (md_name_map !! _) as [md|] eqn:Hd; cbn [fst].
    { rewrite lookup_insert_eq. eapply Hone. exact Hd. }
    destruct (special_mappings !! _) as [sp|]; cbn [fst];
      [|rewrite lookup_empty; discriminate].
    destruct (md_name_map !! sp) as [md|] eqn:Hs; cbn [fst];
      [|rewrite lookup_empty; discriminate].
    rewrite lookup_insert_eq. eapply Hone. exact Hs.
Qed.

(** A turn of the loop gives its file an entry or a warning. *)
Lemma match_txt_file_accounted acc f :
  is_Some (fst (match_txt_file md_name_map acc f) !! f)
  \/ exists w, w ∈ snd (match_txt_file md_name_map acc f) /\ warning_file w = f.
Proof.
  destruct acc as [mapping warnings]. unfold match_txt_file.
  destruct (multi_mappings !! _) as [targets|] eqn:Hm.
  - apply multi_targets in Hm. subst targets. unfold resolve_targets. cbn [omap list_omap].
    destruct (md_name_map !! txt "midtown").
    { left. cbn [fst]. rewrite lookup_insert_eq. eauto. }
    destruct (md_name_map !! txt "downtown").
    { left. cbn [fst]. rewrite lookup_insert_eq. eauto. }
    right. eexists. split; [cbn [snd]; apply elem_of_app; right; left|reflexivity].
  - destruct (md_name_map !! _) as [md|].
    { left. cbn [fst]. rewrite lookup_insert_eq. eauto. }
    destruct (special_mappings !! _) as [sp|].
    + destruct (md_name_map !! sp).
      { left. cbn [fst]. rewrite lookup_insert_eq. eauto. }
      right. eexists. split; [cbn [snd]; apply elem_of_app; right; left|reflexivity].
    + right. eexists. split; [cbn [snd]; apply elem_of_app; right; left|reflexivity].
Qed.

Lemma match_txt_file_keeps acc f k :
  is_Some (fst acc !! k) -> is_Some (fst (match_txt_file md_name_map acc f) !! k).
Proof.
  intros H. destruct (decide (f = k)) as [->|Hne].
  - rewrite (match_txt_file_self acc k).
    destruct (fst (match_txt_file md_name_map (∅, []) k) !! k); [eauto|exact H].
  - rewrite match_txt_file_other by exact Hne. exact H.
Qed.

Lemma foldl_accounted l : forall acc f,
  f ∈ l ->
  is_Some (fst (foldl (match_txt_file md_name_map) acc l) !! f)
  \/ exists w, w ∈ snd (foldl (match_txt_file md_name_map) acc l) /\ warning_file w = f.
Proof.
  assert (Hkeep : forall l acc k,
            is_Some (fst acc !! k) ->
            is_Some (fst (foldl (match_txt_file md_name_map) acc l) !! k)).
  { clear l. induction l as [|g l IH]; intros acc k H; [exact H|].
    cbn [foldl]. apply IH, match_txt_file_keeps, H. }
  induction l as [|g l IH]; intros acc f Hin; [inversion Hin|].
  cbn [foldl]. destruct (decide (f ∈ l)) as [Hl|Hl]; [apply IH, Hl|].
  apply elem_of_cons in Hin as [->|Hin]; [|contradiction].
  destruct (match_txt_file_accounted acc g) as [H|(w & Hw & Hf)].
  - left. apply Hkeep, H.
  - right. exists w. split; [apply foldl_warnings, Hw|exact Hf].
Qed.

End Mapping.

(** X20. The entry of a text file depends on the file and on the documents
    only: it is the entry the file gets when it is matched alone, whatever
    the other text files and their order; a file that is not among the
    text files has no entry. *)
Theorem build_club_mapping_pointwise (txt_files md_files : list text) (txt_file : text) :
  fst (DynamicPricing.build_club_mapping txt_files md_files) !! txt_file
  = if decide (txt_file ∈ txt_files)
    then fst (DynamicPricing.build_club_mapping [txt_file] md_files) !! txt_file
    else None.
Proof.
  unfold DynamicPricing.build_club_mapping. rewrite foldl_match_lookup.
  cbn [foldl fst]. rewrite lookup_empty.
  destruct (decide (txt_file ∈ txt_files)); [|reflexivity].
  destruct (fst (DynamicPricing.match_txt_file _ _ _) !! txt_file); reflexivity.
Qed.

(** X21. Every entry of the mapping belongs to one of the text files and
    lists documents of the document directory: at least one, and at most
    two. *)
Theorem build_club_mapping_entries (txt_files md_files : list text)
    (txt_file : text) (md_file_list : list text) :
  fst (DynamicPricing.build_club_mapping txt_files md_files) !! txt_file
  = Some md_file_list ->
  txt_file ∈ txt_files
  /\ md_file_list <> []
  /\ (forall md_file, md_file ∈ md_file_list -> md_file ∈ md_files)
  /\ (length md_file_list <= 2)%nat.
Proof.
  unfold DynamicPricing.build_club_mapping. rewrite foldl_match_lookup.
  cbn [fst]. rewrite lookup_empty.
  destruct (decide (txt_file ∈ txt_files)) as [Hin|]; [|discriminate].
  intros H. split; [exact Hin|]. apply (match_alone_entry md_files txt_file).
  destruct (fst (DynamicPricing.match_txt_file _ _ _) !! txt_file); [exact H|discriminate].
Qed.

Lemma build_club_mapping_entries_witness :
  txt "CFF__Midtown" ∈ [txt "In-Shape__Other"; txt "CFF__Midtown"]
  /\ [txt "www.inshape.com_gyms_downtown_clean"] <> []
  /\ (forall md_file,
        md_file ∈ [txt "www.inshape.com_gyms_downtown_clean"] ->
        md_file ∈ [txt "www.inshape.com_gyms_downtown_clean"])
  /\ (length [txt "www.inshape.com_gyms_downtown_clean"] <= 2)%nat.
Proof.
  apply (build_club_mapping_entries
           [txt "In-Shape__Other"; txt "CFF__Midtown"]
           [txt "www.inshape.com_gyms_downtown_clean"]
           (txt "CFF__Midtown") [txt "www.inshape.com_gyms_downtown_clean"]).
  vm_compute. reflexivity.
Defined.

(** X22. No text file is passed over in silence: each text file has an
    entry in the mapping or a warning printed about it. *)
Theorem build_club_mapping_accounts (txt_files md_files : list text) (txt_file : text) :
  txt_file ∈ txt_files ->
  is_Some (fst (DynamicPricing.build_club_mapping txt_files md_files) !! txt_file)
  \/ exists w, w ∈ snd (DynamicPricing.build_club_mapping txt_files md_files)
               /\ warning_file w = txt_file.
Proof. intros Hin. apply foldl_accounted. exact Hin. Qed.

Lemma build_club_mapping_accounts_witness :
  is_Some (fst (DynamicPricing.build_club_mapping
                  [txt "In-Shape__Other"; txt "CFF__Midtown"]
                  [txt "www.inshape.com_gyms_downtown_clean"])
             !! txt "In-Shape__Other")
  \/ exists w, w ∈ snd (DynamicPricing.build_club_mapping
                          [txt "In-Shape__Other"; txt "CFF__Midtown"]
                          [txt "www.inshape.com_gyms_downtown_clean"])
               /\ warning_file w = txt "In-Shape__Other".
Proof.
  apply (build_club_mapping_accounts
           [txt "In-Shape__Other"; txt "CFF__Midtown"]
           [txt "www.inshape.com_gyms_downtown_clean"] (txt "In-Shape__Other")).
  left.
Defined.

(** ** The run over the text files *)

Section Run.
Import DynamicPricing.

(** A second replacement of the fee text changes nothing. *)
Lemma fee_text_fixed content :
  snd (replace_enhancement_fee_text (snd (replace_enhancement_fee_text content)))
  = snd (replace_enhancement_fee_text content).
Proof.
  assert (Hup : forall c, already_updated c = true ->
                  replace_enhancement_fee_text c = (true, c)).
  { intros c Hc. unfold replace_enhancement_fee_text.
    apply fee_plan_updated in Hc. rewrite Hc. reflexivity. }
  destruct (replace_cases content) as [H|[[Hu H]|(Hu & a & p & b & H)]];
    rewrite H; cbn [snd].
  - rewrite H. reflexivity.
  - rewrite H. reflexivity.
  - rewrite Hup; [reflexivity|]. apply already_updated_app, new_text_signed.
Qed.

Variable txt_dir md_dir : files.
Variable csv_file : option (list row).
Variable copy_ok : text -> bool.

Let mapping := fst (build_club_mapping (map fst txt_dir) (map fst md_dir)).
Let items := mapping_items (map fst txt_dir) mapping.

Lemma items_mapped f l : (f, l) ∈ items -> mapping !! f = Some l.
Proof.
  unfold items, mapping_items. intros H.
  apply list_elem_of_omap in H as (g & _ & H).
  destruct (mapping !! g) as [l'|] eqn:E; [|discriminate]. congruence.
Qed.

Lemma update_md_file_handled pc acc d :
  handled (fst (update_md_file md_dir copy_ok pc acc d)) = S (handled (fst acc))
  /\ total_files_processed (fst (update_md_file md_dir copy_ok pc acc d))
     = S (total_files_processed (fst acc)).
Proof.
  destruct acc as [n dir]. unfold update_md_file, handled.
  destruct (copy_ok d); [|cbn; lia].
  destruct (replace_pricing_section_in_md _ _) as [ok c].
  destruct (replace_enhancement_fee_text c) as [ok2 c2].
  destruct ok; cbn; lia.
Qed.

Lemma update_md_files_handled pc l : forall acc,
  handled (fst (foldl (update_md_file md_dir copy_ok pc) acc l))
  = (handled (fst acc) + length l)%nat
  /\ total_files_processed (fst (foldl (update_md_file md_dir copy_ok pc) acc l))
     = (total_files_processed (fst acc) + length l)%nat.
Proof.
  induction l as [|d l IH]; intros acc; cbn [foldl length]; [lia|].
  destruct (IH (update_md_file md_dir copy_ok pc acc d)) as [-> ->].
  destruct (update_md_file_handled pc acc d) as [-> ->]. lia.
Qed.

Lemma process_txt_file_handled acc item :
  handled (fst (process_txt_file txt_dir md_dir csv_file copy_ok acc item))
  = (handled (fst acc) + length (snd item))%nat
  /\ (total_files_processed (fst acc) <= handled (fst acc) ->
      total_files_processed (fst (process_txt_file txt_dir md_dir csv_file copy_ok acc item))
      <= handled (fst (process_txt_file txt_dir md_dir csv_file copy_ok acc item)))%nat.
Proof.
  destruct item as [f l]. unfold process_txt_file.
  destruct (pricing_content_for _ _ _) as [pc|].
  - destruct (update_md_files_handled pc l acc) as [-> ->]. cbn [snd]. lia.
  - unfold handled. cbn. lia.
Qed.

Lemma process_txt_files_handled l : forall acc,
  handled (fst (foldl (process_txt_file txt_dir md_dir csv_file copy_ok) acc l))
  = (handled (fst acc) + sum_list (map (fun it => length (snd it)) l))%nat
  /\ (total_files_processed (fst acc) <= handled (fst acc) ->
      total_files_processed
        (fst (foldl (process_txt_file txt_dir md_dir csv_file copy_ok) acc l))
      <= handled (fst (foldl (process_txt_file txt_dir md_dir csv_file copy_ok) acc l)))%nat.
Proof.
  induction l as [|it l IH]; intros acc; cbn [foldl map sum_list_with id].
  { split; [lia|auto]. }
  destruct (IH (process_txt_file txt_dir md_dir csv_file copy_ok acc it)) as [E H].
  destruct (process_txt_file_handled acc it) as [E' H'].
  split; [rewrite E, E'; lia|]. intros H0. apply H, H', H0.
Qed.

Lemma replace_in_all_counts dir :
  (fst (fst (replace_in_all dir)) + snd (fst (replace_in_all dir)))%nat
  = size (snd (replace_in_all dir)).
Proof.
  unfold replace_in_all. cbn [fst snd]. rewrite map_size_fmap.
  rewrite <- (length_map_to_list dir).
  rewrite <- (length_map (fun kv : text * text =>
                            fst (replace_enhancement_fee_text (snd kv)))
                         (map_to_list dir)).
  set (results := map _ (map_to_list dir)). clearbody results.
  induction results as [|b r IH]; [reflexivity|].
  rewrite !filter_cons. destruct b.
  - rewrite decide_True, decide_False by congruence. cbn [length]. lia.
  - rewrite decide_False, decide_True by congruence. cbn [length]. lia.
Qed.

Let copied := copied_document txt_dir md_dir csv_file copy_ok.

Lemma update_md_files_origin (updated_dir : gmap text text) f l0 pc :
  mapping !! f = Some l0 ->
  pricing_content_for csv_file (extract_club_name_from_txt f) (file_text txt_dir f)
  = Some pc ->
  forall l acc,
    (forall d, d ∈ l -> d ∈ l0) ->
    (forall d c, snd acc !! d = Some c -> updated_dir !! d = Some c \/ copied d c) ->
    forall d c,
      snd (foldl (update_md_file md_dir copy_ok pc) acc l) !! d = Some c ->
      updated_dir !! d = Some c \/ copied d c.
Proof.
  intros Hm Hpc. induction l as [|x l IH]; intros acc Hl Hacc; [exact Hacc|].
  cbn [foldl]. apply IH; [intros d Hd; apply Hl; right; exact Hd|].
  destruct acc as [n dir]. unfold update_md_file. cbn [snd] in Hacc.
  destruct (copy_ok x) eqn:Hok; [|exact Hacc].
  destruct (replace_pricing_section_in_md _ _) as [ok c1] eqn:E1.
  destruct (replace_enhancement_fee_text c1) as [ok2 c2] eqn:E2. cbn [snd].
  intros d c. destruct (decide (x = d)) as [<-|Hne].
  - rewrite lookup_insert_eq. intros [= <-]. right.
    exists f, l0, pc. repeat split; try assumption; [apply Hl; left|].
    rewrite E1. cbn [snd]. rewrite E2. reflexivity.
  - rewrite lookup_insert_ne by exact Hne. apply Hacc.
Qed.

Lemma process_txt_files_origin (updated_dir : gmap text text) : forall l acc,
  (forall it, it ∈ l -> it ∈ items) ->
  (forall d c, snd acc !! d = Some c -> updated_dir !! d = Some c \/ copied d c) ->
  forall d c,
    snd (foldl (process_txt_file txt_dir md_dir csv_file copy_ok) acc l) !! d = Some c ->
    updated_dir !! d = Some c \/ copied d c.
Proof.
  induction l as [|[f l0] l IH]; intros acc Hl Hacc; [exact Hacc|].
  cbn [foldl]. apply IH; [intros it Hit; apply Hl; right; exact Hit|].
  unfold process_txt_file.
  destruct (pricing_content_for _ _ _) as [pc|] eqn:Hpc; [|exact Hacc].
  assert (Hm : mapping !! f = Some l0) by (apply items_mapped, Hl; left).
  apply (update_md_files_origin updated_dir f l0 pc Hm Hpc l0 acc); [auto|exact Hacc].
Qed.

End Run.

(** X23. A run over existing directories counts each document of the
    mapping once, as a success or as a failure: the two counts add up to
    the number of documents listed in the mapping, the documents of a text
    file without pricing content counting as failures; the last pass
    counts every document of the output directory once. With a directory
    missing, nothing is done. *)
Theorem run_counts (txt_dir md_dir : DynamicPricing.files) (updated_dir : gmap text text)
    (csv_file : option (list (list text))) (copy_ok : text -> bool) :
  (exists s out,
     DynamicPricing.run (Some txt_dir) (Some md_dir) updated_dir csv_file copy_ok
     = Some (s, out)
     /\ let items :=
          DynamicPricing.mapping_items (map fst txt_dir)
            (fst (DynamicPricing.build_club_mapping (map fst txt_dir) (map fst md_dir))) in
        DynamicPricing.text_files_processed s = length items
        /\ handled (DynamicPricing.counts s)
           = sum_list (map (fun it => length (snd it)) items)
        /\ (DynamicPricing.total_files_processed (DynamicPricing.counts s)
            <= handled (DynamicPricing.counts s))%nat
        /\ (DynamicPricing.enhancement_fee_success_count s
            + DynamicPricing.enhancement_fee_failed_count s)%nat = size out)
  /\ DynamicPricing.run None (Some md_dir) updated_dir csv_file copy_ok = None
  /\ DynamicPricing.run (Some txt_dir) None updated_dir csv_file copy_ok = None.
Proof.
  split; [|split; reflexivity].
  unfold DynamicPricing.run.
  set (items := DynamicPricing.mapping_items _ _).
  destruct (process_txt_files_handled txt_dir md_dir csv_file copy_ok items
              ({| DynamicPricing.success_count := 0; DynamicPricing.failed_count := 0;
                  DynamicPricing.total_files_processed := 0 |}, updated_dir))
    as [H1 H2].
  destruct (foldl _ _ items) as [n dir1].
  pose proof (replace_in_all_counts dir1) as H3.
  destruct (DynamicPricing.replace_in_all dir1) as [[a b] out].
  eexists _, _. split; [reflexivity|]. cbn [fst snd] in *.
  cbn [DynamicPricing.text_files_processed DynamicPricing.counts
       DynamicPricing.enhancement_fee_success_count
       DynamicPricing.enhancement_fee_failed_count].
  split; [reflexivity|]. split; [exact H1|]. split; [|exact H3].
  apply H2. unfold handled. cbn. lia.
Qed.

(** X24. After a run, every document of the output directory is stable
    under the fee-text replacement, and is either a document that was in
    the output directory before, with its fee text replaced, or the copy
    of a document mapped to a text file with a pricing content, with its
    pricing section and then its fee text replaced; a document that no
    text file is mapped to is not copied. *)
Theorem run_output (txt_dir md_dir : DynamicPricing.files) (updated_dir : gmap text text)
    (csv_file : option (list (list text))) (copy_ok : text -> bool) :
  exists s out,
    DynamicPricing.run (Some txt_dir) (Some md_dir) updated_dir csv_file copy_ok
    = Some (s, out)
    /\ forall d c,
         out !! d = Some c ->
         snd (DynamicPricing.replace_enhancement_fee_text c) = c
         /\ ((exists c0, updated_dir !! d = Some c0
                         /\ c = snd (DynamicPricing.replace_enhancement_fee_text c0))
             \/ copied_document txt_dir md_dir csv_file copy_ok d c).
Proof.
  unfold DynamicPricing.run.
  set (items := DynamicPricing.mapping_items _ _).
  pose proof (process_txt_files_origin txt_dir md_dir csv_file copy_ok updated_dir items
                ({| DynamicPricing.success_count := 0; DynamicPricing.failed_count := 0;
                    DynamicPricing.total_files_processed := 0 |}, updated_dir)) as Ho.
  destruct (foldl _ _ items) as [n dir1].
  unfold DynamicPricing.replace_in_all.
  eexists _, _. split; [reflexivity|]. intros d c Hd.
  apply lookup_fmap_Some in Hd as (c1 & <- & Hd).
  split; [apply fee_text_fixed|].
  destruct (Ho (fun it H => H) (fun d c H => or_introl H) d c1 Hd) as [H|H].
  - left. eauto.
  - right. destruct H as (f & l & pc & Hm & Hl & Hok & Hpc & ->).
    exists f, l, pc. repeat split; try assumption.
    rewrite fee_text_fixed. reflexivity.
Qed.

(** X25. The pricing content of a club is the content the CSV gives when
    that content is not empty, and the block of the club text file
    otherwise: a club found in the CSV without a row of a known fee type
    has an empty CSV content and is served from its text file. The content
    is missing only when, besides, the text file does not hold "Member
    Type:"; a content found is never empty. *)
Theorem pricing_content_for_spec (csv_file : option (list (list text)))
    (club_name txt_content : text) :
  let from_csv :=
    match csv_file with
    | Some csv =>
        match DynamicPricing.read_pricing_content_from_csv csv club_name with
        | Some (pricing_content, _) => pricing_content
        | None => []
        end
    | None => []
    end in
  DynamicPricing.pricing_content_for csv_file club_name txt_content
  = match from_csv with
    | [] => DynamicPricing.read_pricing_content_from_txt txt_content
    | _ => Some from_csv
    end
  /\ (DynamicPricing.pricing_content_for csv_file club_name txt_content = None
      <-> from_csv = [] /\ contains member_type txt_content = false)
  /\ DynamicPricing.pricing_content_for csv_file club_name txt_content <> Some [].
Proof.
  intros from_csv.
  assert (Htxt : match DynamicPricing.read_pricing_content_from_txt txt_content with
                 | Some [] => False
                 | Some _ => contains member_type txt_content = true
                 | None => contains member_type txt_content = false
                 end).
  { pose proof (member_block_found txt_content) as H.
    destruct (DynamicPricing.read_pricing_content_from_txt txt_content) as [[|c b]|];
      [|tauto|exact H].
    destruct H as (_ & H & _). vm_compute in H. discriminate. }
  assert (E : DynamicPricing.pricing_content_for csv_file club_name txt_content
              = match from_csv with
                | [] => DynamicPricing.read_pricing_content_from_txt txt_content
                | _ => Some from_csv
                end).
  { unfold DynamicPricing.pricing_content_for. subst from_csv.
    destruct csv_file as [csv|].
    - destruct (DynamicPricing.read_pricing_content_from_csv csv club_name)
        as [[[|c pc] cols]|];
        try reflexivity;
        destruct (DynamicPricing.read_pricing_content_from_txt txt_content) as [[|? ?]|];
        try reflexivity; contradiction.
    - destruct (DynamicPricing.read_pricing_content_from_txt txt_content) as [[|? ?]|];
        try reflexivity; contradiction. }
  split; [exact E|]. rewrite E. clear E.
  destruct from_csv as [|c pc].
  - destruct (DynamicPricing.read_pricing_content_from_txt txt_content) as [[|? ?]|];
      [contradiction| |].
    + split; [|discriminate]. split; [intros [=]|intros [_ H]; congruence].
    + split; [|discriminate]. split; [auto|reflexivity].
  - split; [|discriminate]. split; [discriminate|intros [H _]; discriminate].
Qed.

(** ** The pricing content of the CSV and the order of the rows *)

Section CsvRows.
Import DynamicPricing.

(** The first element with a property, in a list where at most one
    element has it, is the same however the list is ordered. *)
Lemma find_unique_perm {A : Type} (p : A -> bool) (l l' : list A) :
  l ≡ₚ l' ->
  (forall x y, x ∈ l -> y ∈ l -> p x = true -> p y = true -> x = y) ->
  List.find p l = List.find p l'.
Proof.
  induction 1 as [|x l l' Hp IH|x y l|l l' l'' H1 IH1 H2 IH2]; intros Hu.
  - reflexivity.
  - simpl. destruct (p x); [reflexivity|]. apply IH.
    intros a b Ha Hb. apply Hu; right; assumption.
  - simpl. destruct (p x) eqn:Hx, (p y) eqn:Hy; try reflexivity.
    f_equal. apply Hu; [left|right; left|exact Hy|exact Hx].
  - rewrite IH1 by exact Hu. apply IH2.
    intros a b Ha Hb. apply Hu; rewrite H1; assumption.
Qed.

Lemma pricing_lines_ext club_rows club_rows' cols :
  (forall fee_type, fee_row_of club_rows fee_type = fee_row_of club_rows' fee_type) ->
  pricing_lines club_rows cols = pricing_lines club_rows' cols.
Proof.
  intros H. unfold pricing_lines. generalize fee_types. intros l.
  induction l as [|ft l IH]; [reflexivity|].
  cbn [omap list_omap]. rewrite H, IH. reflexivity.
Qed.

Lemma find_over_app {A : Type} (p : A -> bool) (l1 l2 : list A) :
  List.find p (l1 ++ l2)
  = match List.find p l1 with
    | Some x => Some x
    | None => List.find p l2
    end.
Proof.
  induction l1 as [|x l1 IH]; [reflexivity|]. simpl. destruct (p x); [reflexivity|exact IH].
Qed.

(** A row that comes after a row of the same fee type is never the row
    found for a fee type. *)
Lemma fee_row_of_later cp cq r0 r fee_type :
  r0 ∈ cp ->
  (forall ft, is_fee_row ft r = true -> is_fee_row ft r0 = true) ->
  fee_row_of (cp ++ r :: cq) fee_type = fee_row_of (cp ++ cq) fee_type.
Proof.
  intros Hin Hsame. unfold fee_row_of. rewrite !find_over_app.
  destruct (List.find (is_fee_row fee_type) cp) as [x|] eqn:Hf; [reflexivity|].
  simpl. destruct (is_fee_row fee_type r) eqn:Hr; [|reflexivity].
  exfalso. apply Hsame in Hr.
  pose proof (find_none _ _ Hf r0 (proj1 (list_elem_of_In _ _) Hin)) as Hn.
  congruence.
Qed.

End CsvRows.

(** X26. The pricing content read from the CSV does not depend on the
    order of the rows when no two rows of the club carry the same fee
    type. When several rows of the club carry the same fee type, the first
    of them in the file is the one used: a row standing anywhere after a
    row of the club that carries its fee type has no effect on the
    content, and can be taken out of the file without changing it. *)
Theorem read_pricing_content_from_csv_row_order
    (header : list text) (rows : list (list text)) (club_name : text) :
  (forall rows',
     rows' ≡ₚ rows ->
     (forall fee_type r1 r2,
        r1 ∈ DynamicPricing.club_rows_of rows club_name ->
        r2 ∈ DynamicPricing.club_rows_of rows club_name ->
        DynamicPricing.is_fee_row fee_type r1 = true ->
        DynamicPricing.is_fee_row fee_type r2 = true -> r1 = r2) ->
     DynamicPricing.read_pricing_content_from_csv (header :: rows') club_name
     = DynamicPricing.read_pricing_content_from_csv (header :: rows) club_name)
  /\ (forall before first_row later_row after,
        rows = before ++ later_row :: after ->
        first_row ∈ DynamicPricing.club_rows_of before club_name ->
        (forall fee_type,
           DynamicPricing.is_fee_row fee_type later_row = true ->
           DynamicPricing.is_fee_row fee_type first_row = true) ->
        DynamicPricing.read_pricing_content_from_csv (header :: rows) club_name
        = DynamicPricing.read_pricing_content_from_csv (header :: before ++ after) club_name).
Proof.
  split.
  - intros rows' Hperm Hu.
    unfold DynamicPricing.read_pricing_content_from_csv.
    destruct (DynamicPricing.index_where _ header 0) as [idx|]; [|reflexivity].
    assert (Hp : DynamicPricing.club_rows_of rows club_name
                 ≡ₚ DynamicPricing.club_rows_of rows' club_name).
    { unfold DynamicPricing.club_rows_of. rewrite Hperm. reflexivity. }
    assert (Hl : DynamicPricing.pricing_lines (DynamicPricing.club_rows_of rows' club_name)
                   (DynamicPricing.additional_columns header idx)
                 = DynamicPricing.pricing_lines (DynamicPricing.club_rows_of rows club_name)
                     (DynamicPricing.additional_columns header idx)).
    { apply pricing_lines_ext. intros ft. symmetry. unfold DynamicPricing.fee_row_of.
      apply find_unique_perm; [exact Hp|]. intros x y. apply Hu. }
    destruct (DynamicPricing.club_rows_of rows club_name) as [|r cr] eqn:E1,
             (DynamicPricing.club_rows_of rows' club_name) as [|r' cr'] eqn:E2.
    + reflexivity.
    + apply Permutation_nil_l in Hp. discriminate.
    + apply Permutation_nil_r in Hp. discriminate.
    + rewrite Hl. reflexivity.
  - intros before first_row later_row after -> Hin Hsame.
    unfold DynamicPricing.read_pricing_content_from_csv.
    destruct (DynamicPricing.index_where _ header 0) as [idx|]; [|reflexivity].
    unfold DynamicPricing.club_rows_of in *.
    rewrite !filter_app, filter_cons.
    set (cp := filter _ before) in *. set (cq := filter _ after).
    destruct (decide _) as [Hc|Hc]; [|reflexivity].
    assert (Hl : DynamicPricing.pricing_lines (cp ++ later_row :: cq)
                   (DynamicPricing.additional_columns header idx)
                 = DynamicPricing.pricing_lines (cp ++ cq)
                     (DynamicPricing.additional_columns header idx)).
    { apply pricing_lines_ext. intros ft.
      apply (fee_row_of_later cp cq first_row later_row ft Hin Hsame). }
    destruct cp as [|c0 cp']; [apply elem_of_nil in Hin; contradiction|].
    cbn [app] in *. rewrite Hl. reflexivity.
Qed.

Lemma read_pricing_content_from_csv_row_order_witness :
  DynamicPricing.read_pricing_content_from_csv (csv_header :: rev (tail csv_sample))
    (txt "Rocklin East")
  = DynamicPricing.read_pricing_content_from_csv (csv_header :: tail csv_sample)
      (txt "Rocklin East")
  /\ DynamicPricing.read_pricing_content_from_csv
       [csv_header;
        csv_row "Rocklin East" "Main Dues MTM" "$1" "$2" "$3" "" "";
        csv_row "Other" "Add Adult" "$1" "$1" "$2" "" "";
        csv_row "rocklin-east" "Main Dues MTM" "$7" "$8" "$9" "" ""]
       (txt "Rocklin East")
     = DynamicPricing.read_pricing_content_from_csv
         (csv_header ::
          [csv_row "Rocklin East" "Main Dues MTM" "$1" "$2" "$3" "" "";
           csv_row "Other" "Add Adult" "$1" "$1" "$2" "" ""] ++ [])
         (txt "Rocklin East").
Proof.
  split.
  - refine (proj1 (read_pricing_content_from_csv_row_order csv_header
                     (tail csv_sample) (txt "Rocklin East")) (rev (tail csv_sample)) _ _).
    + symmetry. apply Permutation_rev.
    + intros ft r1 r2 H1 H2.
      change (DynamicPricing.club_rows_of (tail csv_sample) (txt "Rocklin East"))
        with [csv_row "Rocklin East" "Main Dues MTM" "-" "$-" " " "-" "$30";
              csv_row "CFF: rocklin_east" "Add Adult" "$10" "$15" "$20" "$-" ""] in H1, H2.
      apply elem_of_cons in H1 as [->|H1]; [|apply list_elem_of_singleton in H1 as ->];
        (apply elem_of_cons in H2 as [->|H2]; [|apply list_elem_of_singleton in H2 as ->]);
        try reflexivity; intros E1 E2; exfalso;
        unfold DynamicPricing.is_fee_row in E1, E2; cbn in E1, E2;
        apply text_eqb_eq in E1; apply text_eqb_eq in E2; subst ft; discriminate.
  - refine (proj2 (read_pricing_content_from_csv_row_order csv_header _ (txt "Rocklin East"))
              [csv_row "Rocklin East" "Main Dues MTM" "$1" "$2" "$3" "" "";
               csv_row "Other" "Add Adult" "$1" "$1" "$2" "" ""]
              (csv_row "Rocklin East" "Main Dues MTM" "$1" "$2" "$3" "" "")
              (csv_row "rocklin-east" "Main Dues MTM" "$7" "$8" "$9" "" "")
              [] eq_refl _ _).
    + vm_compute. left.
    + intros ft H. unfold DynamicPricing.is_fee_row in *. cbn in H |- *. exact H.
Defined.

(** ** The club name of a location document *)

Section DocumentNames.
Import DynamicPricing.

(** A search passes over the places where the pattern does not match. *)
Lemma search_skip r X rest : forall bef,
  (forall a c b, X = a ++ c :: b ->
     rmatch r (rev a ++ bef, c :: b ++ rest) Some = None) ->
  search_from r bef (X ++ rest) = search_from r (rev X ++ bef) rest.
Proof.
  induction X as [|c X IH]; intros bef H; [reflexivity|].
  cbn [app search_from]. pose proof (H [] c X eq_refl) as H0. cbn [rev app] in H0.
  rewrite H0. rewrite IH.
  - cbn [rev]. rewrite <- app_assoc. reflexivity.
  - intros a d b E. specialize (H (c :: a) d b). cbn [rev app] in H.
    rewrite <- app_assoc in H. apply H. rewrite E. reflexivity.
Qed.

Lemma search_skip_class r p X rest bef :
  first_class r = Some p -> Forall (fun c => p c = false) X ->
  search_from r bef (X ++ rest) = search_from r (rev X ++ bef) rest.
Proof.
  intros Hf HX. apply search_skip. intros a c b E.
  destruct (rmatch r (rev a ++ bef, c :: b ++ rest) Some) as [x|] eqn:Hm; [|reflexivity].
  exfalso. apply rmatch_sound in Hm as (st' & Hm & _).
  destruct (first_class_spec _ _ _ _ Hf Hm) as (c' & tl & Es & Hp). cbn [snd] in Es.
  injection Es as <- _. subst X. apply Forall_app in HX as [_ HX].
  inversion HX; subst. congruence.
Qed.

Lemma star_greedy_all p w : forall bef,
  Forall (fun c => p c = true) w ->
  star_greedy p bef w Some = Some (rev w ++ bef, []).
Proof.
  induction w as [|c w IH]; intros bef H; [reflexivity|].
  inversion H as [|? ? Hc Hw]; subst. cbn [star_greedy]. rewrite Hc, IH by exact Hw.
  cbn [rev]. rewrite <- app_assoc. reflexivity.
Qed.

Lemma sub_from_nil fuel r repl bef :
  is_Some (first_class r) -> sub_from fuel r repl bef [] = [].
Proof.
  intros [p Hp]. destruct fuel; [reflexivity|]. cbn [sub_from search_from].
  destruct (rmatch r (bef, []) Some) as [x|] eqn:Hm; [|reflexivity].
  apply rmatch_sound in Hm as (st' & Hm & _).
  destruct (first_class_spec _ _ _ _ Hp Hm) as (c & tl & Es & _). discriminate.
Qed.

(** A substitution whose only match is the end of the text cuts it off. *)
Lemma re_sub_tail r X w :
  is_Some (first_class r) -> w <> [] ->
  search_from r [] (X ++ w) = Some (length X, (length X + length w)%nat) ->
  re_sub r [] (X ++ w) = X.
Proof.
  intros Hf Hw Hs. unfold re_sub. cbn [sub_from]. rewrite Hs. cbn [length].
  rewrite Nat.sub_0_r. replace (length X + length w - length X)%nat with (length w) by lia.
  destruct (length w) as [|n] eqn:El; [destruct w; [congruence|discriminate]|].
  rewrite <- El. rewrite take_app_length.
  replace (length X + length w)%nat with (length (X ++ w)) by apply length_app.
  rewrite drop_all. rewrite sub_from_nil by exact Hf. rewrite app_nil_r. reflexivity.
Qed.

End DocumentNames.



Section DocumentStems.
Import DynamicPricing.

Lemma search_from_eq r bef rest :
  search_from r bef rest
  = match rmatch r (bef, rest) Some with
    | Some st' => Some (length bef, mpos st')
    | None =>
        match rest with
        | c :: tl => search_from r (c :: bef) tl
        | [] => None
        end
    end.
Proof. destruct rest; reflexivity. Qed.

Lemma md_prefix_removed rest :
  re_sub md_prefix_re [] (txt "www.inshape.com_gyms_" ++ rest) = rest.
Proof.
  unfold md_prefix_re. cbn [seqs]. rewrite re_sub_bol_rest. unfold lit.
  rewrite rmatch_lit_t by discriminate. rewrite starts_with_app.
  cbn [snd]. apply drop_app_length.
Qed.

Lemma md_suffix_removed X :
  Forall (fun c => c <> "_"%char) X -> re_sub md_suffix_re [] (X ++ txt "_clean") = X.
Proof.
  intros HX. apply re_sub_tail; [eexists; reflexivity|discriminate|].
  rewrite (search_skip_class md_suffix_re (chr "_") X (txt "_clean") []).
  - rewrite app_nil_r, search_from_eq. unfold md_suffix_re. cbn [seqs rmatch].
    unfold lit. rewrite rmatch_lit_t by discriminate.
    change (starts_with (txt "_clean") (txt "_clean")) with true. cbn iota.
    change (drop (length (txt "_clean")) (txt "_clean")) with (@nil ascii).
    cbn [at_eol snd]. unfold mpos. cbn [fst].
    rewrite length_app, !length_rev. f_equal. f_equal. simpl. lia.
  - reflexivity.
  - eapply Forall_impl; [exact HX|]. intros c Hc. unfold chr.
    destruct (chr_eqb "_" c) eqn:E; [|reflexivity]. apply chr_eqb_eq in E. congruence.
Qed.

(** A digit right after the state name cannot stand earlier than the
    zip code. *)
Lemma digit_position (W L zip : text) d tl :
  W <> [] -> L <> [] -> Forall (fun c => is_digit c = false) W ->
  Forall (fun c => is_digit c = false) L ->
  W ++ L ++ zip = L ++ d :: tl -> is_digit d = true -> False.
Proof.
  intros HW HL HnW HnL E Hd.
  assert (Hl : (W ++ L ++ zip) !! length L = Some d).
  { rewrite E. apply list_lookup_middle. reflexivity. }
  assert (Hin : d ∈ W \/ d ∈ L).
  { destruct (decide (length L < length W)%nat) as [Hlt|Hge].
    - rewrite lookup_app_l in Hl by exact Hlt. left. eapply list_elem_of_lookup_2. exact Hl.
    - rewrite lookup_app_r in Hl by lia. rewrite lookup_app_l in Hl.
      + right. eapply list_elem_of_lookup_2. exact Hl.
      + destruct W; [congruence|]. destruct L; [congruence|]. simpl. lia. }
  rewrite Forall_forall in HnW, HnL.
  destruct Hin as [H|H]; [apply HnW in H|apply HnL in H]; congruence.
Qed.

(** Where the state pattern matches, a digit follows the state name. *)
Lemma md_state_zip_inv state st st' :
  matches (md_state_zip_re state) st st' ->
  exists d tl, is_digit d = true
               /\ snd st = (txt "-" ++ txt state ++ txt "-") ++ d :: tl.
Proof.
  unfold md_state_zip_re. cbn [seqs]. intros H.
  apply matches_seq_inv in H as (s1 & H1 & H).
  apply matches_seq_inv in H as (s2 & H2 & H).
  apply matches_seq_inv in H as (s3 & H3 & H).
  unfold Plus in H. apply matches_seq_inv in H as (s4 & H4 & _).
  apply matches_lit_t in H1 as [E1 _]. apply matches_lit_t in H2 as [E2 _].
  apply matches_lit_t in H3 as [E3 _].
  apply matches_cls_inv in H4 as (d & tl & E4 & Hd & _).
  exists d, tl. split; [exact Hd|].
  rewrite E1, E2, E3, E4, <- !app_assoc. reflexivity.
Qed.

Lemma md_state_zip_removed name zip :
  Forall (fun c => is_digit c = false) name ->
  zip <> [] -> Forall (fun c => is_digit c = true) zip ->
  re_sub (md_state_zip_re "california") [] (name ++ txt "-california-" ++ zip) = name.
Proof.
  intros Hname Hne Hzip. apply re_sub_tail; [eexists; reflexivity| |].
  { destruct zip; discriminate. }
  rewrite search_skip.
  - rewrite app_nil_r, search_from_eq. unfold md_state_zip_re. cbn [seqs rmatch].
    unfold lit.
    change (txt "-california-" ++ zip)
      with (txt "-" ++ txt "california" ++ txt "-" ++ zip).
    rewrite rmatch_lit_t, starts_with_app, drop_app_length by discriminate.
    rewrite rmatch_lit_t, starts_with_app, drop_app_length by discriminate.
    rewrite rmatch_lit_t, starts_with_app, drop_app_length by discriminate.
    unfold Plus. cbn [rmatch snd fst].
    destruct zip as [|z zs]; [congruence|]. inversion Hzip as [|? ? Hz Hzs]; subst.
    rewrite Hz. rewrite star_greedy_all by exact Hzs.
    unfold mpos. cbn [fst]. rewrite !length_app, !length_rev. cbn [length].
    rewrite !length_app. f_equal. f_equal. simpl. rewrite length_rev. lia.
  - intros a c b E.
    destruct (rmatch _ _ Some) as [x|] eqn:Hm; [|reflexivity]. exfalso.
    apply rmatch_sound in Hm as (st' & Hm & _).
    apply md_state_zip_inv in Hm as (d & tl & Hd & Es). cbn [snd] in Es.
    subst name. apply Forall_app in Hname as [_ Hname].
    apply (digit_position (c :: b) (txt "-" ++ txt "california" ++ txt "-") zip d tl);
      [discriminate|discriminate|exact Hname| |exact Es|exact Hd].
    apply Forall_forall. intros y Hy.
    repeat (apply elem_of_cons in Hy as [->|Hy]; [reflexivity|]). inversion Hy.
Qed.

Lemma md_state_zip_none state name :
  Forall (fun c => is_digit c = false) name ->
  re_sub (md_state_zip_re state) [] name = name.
Proof.
  intros Hname. apply re_sub_none.
  destruct (re_search (md_state_zip_re state) name) as [[i j]|] eqn:Hs; [|reflexivity].
  exfalso. destruct (re_search_spec _ _ _ _ Hs) as (pre & w & post & E & _ & _ & Hm & _).
  apply md_state_zip_inv in Hm as (d & tl & Hd & Es). cbn [snd] in Es.
  rewrite E, Es in Hname. rewrite Forall_forall in Hname.
  assert (is_digit d = false); [|congruence].
  apply Hname. rewrite !elem_of_app. right. right. left.
Qed.

End DocumentStems.

(** X27. The club name of a location document named
    "www.inshape.com_gyms_<name>-california-<zip>_clean" is <name> with its
    hyphens turned into spaces, for a name without digits and underscores
    and a zip code of digits: the prefix, the ending, the state and the zip
    code are removed. *)
Theorem extract_club_name_from_md_spec (name zip : text) :
  Forall (fun c => is_digit c = false /\ c <> "_"%char) name ->
  zip <> [] -> Forall (fun c => is_digit c = true) zip ->
  DynamicPricing.extract_club_name_from_md
    (txt "www.inshape.com_gyms_" ++ name ++ txt "-california-" ++ zip ++ txt "_clean")
  = hyphens_to_spaces name.
Proof.
  intros Hname Hne Hzip.
  assert (Hnd : Forall (fun c => is_digit c = false) name).
  { eapply Forall_impl; [exact Hname|]. intros c H. exact (proj1 H). }
  unfold DynamicPricing.extract_club_name_from_md.
  rewrite md_prefix_removed.
  replace (name ++ txt "-california-" ++ zip ++ txt "_clean")
    with ((name ++ txt "-california-" ++ zip) ++ txt "_clean")
    by (rewrite <- !app_assoc; reflexivity).
  rewrite md_suffix_removed.
  2:{ apply Forall_app. split;
        [eapply Forall_impl; [exact Hname|intros c H; exact (proj2 H)]|].
      apply Forall_app. split.
      - apply Forall_forall. intros x Hx.
        repeat (apply elem_of_cons in Hx as [->|Hx]; [discriminate|]). inversion Hx.
      - eapply Forall_impl; [exact Hzip|]. intros c Hc ->. discriminate. }
  rewrite md_state_zip_removed by assumption.
  rewrite md_state_zip_none by exact Hnd.
  change (txt "-") with ["-"%char]. change (txt " ") with [" "%char].
  change (txt "_") with ["_"%char]. rewrite !replace_char_map.
  unfold hyphens_to_spaces. rewrite map_map. apply map_ext_in. intros c Hc.
  rewrite Forall_forall in Hname. destruct (Hname c (proj2 (list_elem_of_In _ _) Hc)) as [_ Hu].
  destruct (chr_eqb "-" c); [reflexivity|].
  destruct (chr_eqb "_" c) eqn:E; [|reflexivity]. apply chr_eqb_eq in E. congruence.
Qed.

Lemma extract_club_name_from_md_spec_witness :
  DynamicPricing.extract_club_name_from_md
    (txt "www.inshape.com_gyms_" ++ txt "rocklin-east" ++ txt "-california-"
       ++ txt "95677" ++ txt "_clean")
  = hyphens_to_spaces (txt "rocklin-east").
Proof.
  apply (extract_club_name_from_md_spec (txt "rocklin-east") (txt "95677")).
  - repeat constructor; discriminate.
  - discriminate.
  - repeat constructor.
Defined.

(** ** From the club name to the file name and back *)



Section FileNameRoundTrip.
Import Splitter.

Lemma su_char_eqb x y :
  x <> "_"%char -> y <> "_"%char ->
  chr_eqb (if chr_eqb " " x then "_"%char else x) (if chr_eqb " " y then "_"%char else y)
  = chr_eqb x y.
Proof.
  intros Hx Hy.
  destruct (chr_eqb " " x) eqn:Ex, (chr_eqb " " y) eqn:Ey.
  - apply chr_eqb_eq in Ex, Ey. subst. reflexivity.
  - apply chr_eqb_eq in Ex. subst x. rewrite Ey.
    destruct (chr_eqb "_" y) eqn:E; [|reflexivity]. apply chr_eqb_eq in E. congruence.
  - apply chr_eqb_eq in Ey. subst y. rewrite (chr_eqb_sym x " "), Ex.
    destruct (chr_eqb x "_") eqn:E; [|reflexivity]. apply chr_eqb_eq in E. congruence.
  - reflexivity.
Qed.

Lemma su_starts_with p : forall s,
  Forall (fun c => c <> "_"%char) p -> Forall (fun c => c <> "_"%char) s ->
  starts_with (spaces_to_underscores p) (spaces_to_underscores s) = starts_with p s.
Proof.
  induction p as [|x p IH]; intros s Hp Hs; [reflexivity|].
  destruct s as [|y s]; [reflexivity|].
  inversion Hp; inversion Hs; subst. cbn [spaces_to_underscores map starts_with].
  rewrite su_char_eqb by assumption. fold (spaces_to_underscores p).
  fold (spaces_to_underscores s). rewrite IH by assumption. reflexivity.
Qed.

Lemma su_back s :
  Forall (fun c => c <> "_"%char) s ->
  map (fun c => if chr_eqb "_" c then " "%char else c) (spaces_to_underscores s) = s.
Proof.
  induction 1 as [|c s Hc _ IH]; [reflexivity|].
  cbn [spaces_to_underscores map]. fold (spaces_to_underscores s). rewrite IH. f_equal.
  destruct (chr_eqb " " c) eqn:E.
  - apply chr_eqb_eq in E. subst. reflexivity.
  - destruct (chr_eqb "_" c) eqn:E2; [|reflexivity]. apply chr_eqb_eq in E2. congruence.
Qed.

(** The file name of a club whose name is free of the characters
    replaced and of dots at its ends: the name with its spaces turned
    into underscores. *)
Lemma clean_filename_plain club :
  Forall (fun c => invalid_filename_char c = false /\ c <> "_"%char) club ->
  head club <> Some "."%char -> last club <> Some "."%char ->
  clean_filename (txt "Club Name: " ++ club) = spaces_to_underscores club.
Proof.
  intros Hc Hh Hl. unfold clean_filename.
  assert (Hcolon : ":"%char ∉ club).
  { intros Hin. rewrite Forall_forall in Hc. destruct (Hc _ Hin) as [H _].
    vm_compute in H. discriminate. }
  assert (E1 : str_replace club_name_prefix [] (txt "Club Name: " ++ club) = club).
  { pose proof (str_replace_first club_name_prefix [] [] club) as H.
    cbn [app] in H. change (txt "Club Name: ") with club_name_prefix. rewrite H.
    - apply str_replace_absent; [discriminate|].
      apply (contains_lacking _ _ ":"%char); [|exact Hcolon].
      vm_compute. repeat (first [left; reflexivity | right]).
    - discriminate.
    - intros a1 c a2 E. destruct a1; discriminate. }
  rewrite E1, re_sub_cls.
  assert (E2 : flat_map (fun c => if invalid_filename_char c then txt "_" else [c]) club
               = club).
  { clear -Hc. induction Hc as [|c l [Hi _] _ IH]; [reflexivity|].
    cbn [flat_map]. rewrite Hi, IH. reflexivity. }
  rewrite E2. change (txt " ") with [" "%char]. change (txt "_") with ["_"%char].
  rewrite replace_char_map. fold (spaces_to_underscores club).
  assert (Hkeep : forall c, c ∈ club -> c <> "."%char ->
            existsb (chr_eqb (if chr_eqb " " c then "_"%char else c)) (txt ". ") = false).
  { intros c _ Hd. destruct (chr_eqb " " c) eqn:E; [reflexivity|].
    cbn [txt list_ascii_of_string existsb]. rewrite orb_false_r.
    apply orb_false_iff. split.
    - destruct (chr_eqb c ".") eqn:E3; [|reflexivity]. apply chr_eqb_eq in E3. congruence.
    - rewrite chr_eqb_sym. exact E. }
  unfold strip_chars, rstrip_chars.
  rewrite (lstrip_chars_fixed _ (spaces_to_underscores club)).
  2:{ destruct club as [|c r]; [exact I|]. cbn [spaces_to_underscores map].
      apply Hkeep; [left|]. intros ->. apply Hh. reflexivity. }
  rewrite lstrip_chars_fixed; [apply rev_involutive|].
  unfold spaces_to_underscores. rewrite <- map_rev.
  rewrite last_rev_head in Hl.
  assert (Hin : forall c, c ∈ rev club -> c ∈ club).
  { intros c H. apply list_elem_of_In. apply list_elem_of_In in H.
    apply (proj2 (in_rev club c)). exact H. }
  destruct (rev club) as [|c r]; [exact I|]. cbn [map].
  apply Hkeep; [apply Hin; left|]. intros ->. apply Hl. reflexivity.
Qed.

End FileNameRoundTrip.

(** X28. The club name is recovered from the name of the club file: for a
    club name that is not empty, holds none of the characters replaced in
    file names and no underscore, has no dot at its ends and does not
    start with "CFF" or "In-Shape" and two spaces, the club name read
    from the stem of the file is the club name of the section. *)
Theorem club_name_from_filename (club : text) :
  club <> [] ->
  Forall (fun c => Splitter.invalid_filename_char c = false /\ c <> "_"%char) club ->
  head club <> Some "."%char -> last club <> Some "."%char ->
  starts_with (txt "CFF  ") club = false ->
  starts_with (txt "In-Shape  ") club = false ->
  DynamicPricing.extract_club_name_from_txt
    (Splitter.clean_filename (txt "Club Name: " ++ club))
  = club.
Proof.
  intros _ Hc Hh Hl H1 H2. rewrite clean_filename_plain by assumption.
  assert (Hu : Forall (fun c => c <> "_"%char) club).
  { eapply Forall_impl; [exact Hc|]. intros c H. exact (proj2 H). }
  rewrite (proj1 (txt_club_name _)).
  change (txt "CFF__") with (spaces_to_underscores (txt "CFF  ")).
  change (txt "In-Shape__") with (spaces_to_underscores (txt "In-Shape  ")).
  rewrite !su_starts_with, H1, H2; try exact Hu;
    try (repeat constructor; discriminate).
  change (txt "_") with ["_"%char]. change (txt " ") with [" "%char].
  rewrite replace_char_map. apply su_back. exact Hu.
Qed.

Lemma club_name_from_filename_witness :
  DynamicPricing.extract_club_name_from_txt
    (Splitter.clean_filename (txt "Club Name: " ++ txt "Rocklin East"))
  = txt "Rocklin East".
Proof.
  apply (club_name_from_filename (txt "Rocklin East")).
  - discriminate.
  - repeat constructor; discriminate.
  - simpl. congruence.
  - simpl. congruence.
  - reflexivity.
  - reflexivity.
Defined.
